(** * Nodify: the radial force-directed graph views

    A shallow embedding of the layout and interaction core of the graph
    components of the repository:

    - [GraphCanvas] (connection network): model building with the position
      store, angle seeding, ring radii, the custom radial force, the link
      set, the drag / click handlers, the tick handler and the selection
      highlight;
    - [EmailNodeGraph] (email overview): grouping of the emails by sender
      category, the descending sort and the truncation to eight categories,
      the seeding of the two views and the drill-down;
    - [ParticleBackground]: the particles and their motion;
    - [LegacyGraphCanvas]: the seeding and the link lengths of the earlier
      connection view.

    JavaScript numbers are IEEE-754 doubles.  They are modelled here as
    extended reals: a finite real, plus or minus infinity, or NaN, with exact
    arithmetic on the finite values and the IEEE rules on the special ones.
    Rounding, overflow and the sign of zero are not modelled.  The value
    [undefined] of an optional number is [None]. *)

From Stdlib Require Import Reals Lra Lia ZArith String Ascii Permutation Sorted.
From stdpp Require Import base option list strings gmap sorting.

Local Open Scope R_scope.

Set Warnings "-clear-no-such-hyp,-level-tolerance".

(** ** JavaScript numbers *)

Module JS.

Inductive num : Type :=
| Fin (r : R)
| PInf
| NInf
| NaN.

Definition isFinite (a : num) : bool :=
  match a with Fin _ => true | _ => false end.

Definition neg (a : num) : num :=
  match a with
  | Fin r => Fin (- r)
  | PInf => NInf
  | NInf => PInf
  | NaN => NaN
  end.

Definition add (a b : num) : num :=
  match a, b with
  | NaN, _ | _, NaN => NaN
  | Fin x, Fin y => Fin (x + y)
  | PInf, NInf | NInf, PInf => NaN
  | PInf, _ | _, PInf => PInf
  | NInf, _ | _, NInf => NInf
  end.

Definition sub (a b : num) : num := add a (neg b).

(** An infinity [i] multiplied by the sign of the finite value [r]. *)
Definition signed (r : R) (i : num) : num :=
  if Rlt_dec 0 r then i else if Rlt_dec r 0 then neg i else NaN.

Definition mul (a b : num) : num :=
  match a, b with
  | NaN, _ | _, NaN => NaN
  | Fin x, Fin y => Fin (x * y)
  | Fin x, i => signed x i
  | i, Fin y => signed y i
  | PInf, PInf | NInf, NInf => PInf
  | PInf, NInf | NInf, PInf => NInf
  end.

(** Division; a zero divisor counts as positive zero. *)
Definition div (a b : num) : num :=
  match a, b with
  | NaN, _ | _, NaN => NaN
  | Fin x, Fin y => if Req_dec_T y 0 then signed x PInf else Fin (x / y)
  | Fin _, _ => Fin 0
  | i, Fin y => if Rlt_dec y 0 then neg i else i
  | _, _ => NaN
  end.

(** [Math.sqrt] *)
Definition Math_sqrt (a : num) : num :=
  match a with
  | Fin x => if Rlt_dec x 0 then NaN else Fin (sqrt x)
  | PInf => PInf
  | NInf | NaN => NaN
  end.

(** [Math.cos], [Math.sin], [Math.PI] *)
Definition Math_cos (a : num) : num :=
  match a with Fin x => Fin (cos x) | _ => NaN end.

Definition Math_sin (a : num) : num :=
  match a with Fin x => Fin (sin x) | _ => NaN end.

Definition Math_PI : num := Fin PI.

(** [Math.min], [Math.max] of two arguments *)
Definition Math_min (a b : num) : num :=
  match a, b with
  | NaN, _ | _, NaN => NaN
  | NInf, _ | _, NInf => NInf
  | PInf, c | c, PInf => c
  | Fin x, Fin y => Fin (Rmin x y)
  end.

Definition Math_max (a b : num) : num :=
  match a, b with
  | NaN, _ | _, NaN => NaN
  | PInf, _ | _, PInf => PInf
  | NInf, c | c, NInf => c
  | Fin x, Fin y => Fin (Rmax x y)
  end.

(** The comparison [a < b]; false as soon as one side is NaN. *)
Definition ltb (a b : num) : bool :=
  match a, b with
  | NaN, _ | _, NaN => false
  | Fin x, Fin y => if Rlt_dec x y then true else false
  | _, NInf => false
  | PInf, _ => false
  | NInf, _ => true
  | Fin _, PInf => true
  end.

(** Truthiness of a number: zero and NaN are falsy. *)
Definition truthy (a : num) : bool :=
  match a with
  | Fin r => if Req_dec_T r 0 then false else true
  | PInf | NInf => true
  | NaN => false
  end.

(** An optional number: [None] is [undefined]. *)
Definition value : Type := option num.

Definition truthyV (v : value) : bool :=
  match v with Some a => truthy a | None => false end.

(** [ToNumber]: [undefined] becomes NaN. *)
Definition toNumber (v : value) : num :=
  match v with Some a => a | None => NaN end.

(** [isNaN(v)] *)
Definition isNaN (v : value) : bool :=
  match toNumber v with NaN => true | _ => false end.

(** [v || b] with a number on the right. *)
Definition or (v : value) (b : num) : num :=
  match v with
  | Some a => if truthy a then a else b
  | None => b
  end.

(** [v ?? b] *)
Definition nullish {A : Type} (v : option A) (b : A) : A :=
  match v with Some a => a | None => b end.

(** Truthiness of a string: the empty string is falsy. *)
Definition truthyS (s : option string) : bool :=
  match s with
  | Some s => if decide (s = ""%string) then false else true
  | None => false
  end.

(** [s || ''] on an optional string. *)
Definition orEmpty (s : option string) : string :=
  match s with Some s => s | None => ""%string end.

End JS.

Export JS.

Declare Scope js_scope.
Delimit Scope js_scope with js.
Infix "+" := JS.add : js_scope.
Infix "-" := JS.sub : js_scope.
Infix "*" := JS.mul : js_scope.
Infix "/" := JS.div : js_scope.

(** A real literal as a JavaScript number. *)
Coercion Fin : R >-> num.

(** ** [Math.random]

    The draws of [Math.random] are a sequence given once and for all; a
    computation that draws carries the number of draws made so far. *)

Definition Rand (A : Type) : Type := (nat → R) → nat → A * nat.

Definition ret {A} (a : A) : Rand A := λ _ k, (a, k).

Definition bind {A B} (m : Rand A) (f : A → Rand B) : Rand B :=
  λ draws k, let '(a, k') := m draws k in f a draws k'.

Notation "'let*' x ':=' m 'in' f" := (bind m (λ x, f))
  (at level 10, x name, m at level 100, f at level 200).

Definition Math_random : Rand num := λ draws k, (Fin (draws k), S k).

Fixpoint mapM {A B} (f : A → Rand B) (l : list A) : Rand (list B) :=
  match l with
  | [] => ret []
  | a :: l' => let* b := f a in let* bs := mapM f l' in ret (b :: bs)
  end.

(** ** Data model *)

Inductive HeatStatus : Type := hot | warm | cold.

(** A connection record, as the connections context hands it to the view.
    [degree] is a number at run time; only 1, 2 and 3 are known rings. *)
Module Conn.
Record t : Type := mk {
  id : string;
  name : string;
  title : string;
  company : string;
  degree : Z;
  connectedThrough : option string;
  heatStatus : HeatStatus
}.
End Conn.
Abbreviation ConnectionNode := Conn.t.

(** An explicit relation between two connection ids. *)
Module Link.
Record t : Type := mk { source : string; target : string }.
End Link.

(** A simulation node.  [x], [y], [vx], [vy] are optional numbers (absent
    until written); [fx], [fy] are the pin, [None] for [null] / [undefined]. *)
Module Node.
Record t : Type := mk {
  id : string;
  isUser : bool;
  connection : option ConnectionNode;
  x : value;
  y : value;
  vx : value;
  vy : value;
  fx : value;
  fy : value
}.

Definition with_pos (n : t) (x' y' : value) : t :=
  mk (id n) (isUser n) (connection n) x' y' (vx n) (vy n) (fx n) (fy n).

Definition with_v (n : t) (vx' vy' : value) : t :=
  mk (id n) (isUser n) (connection n) (x n) (y n) vx' vy' (fx n) (fy n).

Definition with_pin (n : t) (fx' fy' : value) : t :=
  mk (id n) (isUser n) (connection n) (x n) (y n) (vx n) (vy n) fx' fy'.
End Node.
Abbreviation SimNode := Node.t.

(** A simulation link.  Its ends are node objects of the [nodes] array; they
    are kept as positions in that array, so that a link sees every later
    mutation of the node it points to. *)
Module SimLink.
Record t : Type := mk { source : nat; target : nat }.
End SimLink.

(** The position store [nodePositionsRef.current]: node id to last saved
    [{x, y}]. *)
Abbreviation PositionStore := (gmap string (num * num)).

(** [arr.map((a, i) => [i, a])]: the elements with their index. *)
Definition indexed {A} (l : list A) : list (nat * A) := imap pair l.

(** [new Map(l.map(a => [key(a), val(a)]))]: a later entry with the same key
    replaces the earlier one. *)
Definition newMap {A V} (key : A → string) (val : A → V) (l : list A)
  : gmap string V :=
  foldl (λ m a, <[key a := val a]> m) ∅ l.

(** ** The d3-force simulation

    d3-force is a library the view calls; what follows is its documented
    behaviour, as far as the view relies on it: node initialisation, the
    tick with its velocity decay and pins, and forces as functions of
    [alpha] that mutate the nodes. *)

Module D3.

(** [force(alpha)], acting on the node array. *)
Definition Force : Type := num → list SimNode → list SimNode.

(** The built-in forces of the library (link, many-body, collide) write
    the velocities [vx], [vy] of the nodes and nothing else.  Such a force
    is given by the velocity it leaves on node [i]. *)
Definition VelocityField : Type := num → list SimNode → nat → num * num.

Definition builtin (f : VelocityField) : Force :=
  λ alpha nodes,
    imap (λ i node,
            let v := f alpha nodes i in
            Node.with_v node (Some v.1) (Some v.2))
         nodes.

(** The settings of a simulation, fixed once it is configured. *)
Record Config : Type := mkConfig {
  alphaMin : num;
  alphaDecay : num;
  velocityDecay : num;
  forces : list Force
}.

(** The state of a simulation: the node objects, [alpha], [alphaTarget],
    and whether the internal timer is running. *)
Record Simulation : Type := mk {
  nodes : list SimNode;
  alpha : num;
  alphaTarget : num;
  running : bool
}.

Definition initialRadius : num := Fin 10.
Definition initialAngle : num := (Math_PI * (Fin 3 - Math_sqrt (Fin 5)))%js.

(** [initializeNodes], for the node of index [i]. *)
Definition initializeNode (i : nat) (node : SimNode) : SimNode :=
  let x1 := match Node.fx node with Some f => Some f | None => Node.x node end in
  let y1 := match Node.fy node with Some f => Some f | None => Node.y node end in
  let radius := (initialRadius * Math_sqrt (Fin 0.5 + Fin (INR i)))%js in
  let angle := (Fin (INR i) * initialAngle)%js in
  let placed := isNaN x1 || isNaN y1 in
  let x2 := if placed then Some (radius * Math_cos angle)%js else x1 in
  let y2 := if placed then Some (radius * Math_sin angle)%js else y1 in
  let still := isNaN (Node.vx node) || isNaN (Node.vy node) in
  let vx2 := if still then Some (Fin 0) else Node.vx node in
  let vy2 := if still then Some (Fin 0) else Node.vy node in
  Node.with_v (Node.with_pos node x2 y2) vx2 vy2.

(** [d3.forceSimulation(nodes)]: [alpha] is 1, [alphaTarget] is 0, the
    nodes are initialised and the timer is started. *)
Definition forceSimulation (nodes : list SimNode) : Simulation :=
  {| nodes := imap initializeNode nodes; alpha := Fin 1;
     alphaTarget := Fin 0; running := true |}.

(** The end of a tick, for one node:
    [if (node.fx == null) node.x += node.vx *= velocityDecay;
     else node.x = node.fx, node.vx = 0;] and the same for [y]. *)
Definition move (velocityDecay : num) (node : SimNode) : SimNode :=
  let '(x', vx') :=
    match Node.fx node with
    | None =>
        let v := (toNumber (Node.vx node) * velocityDecay)%js in
        (Some (toNumber (Node.x node) + v)%js, Some v)
    | Some f => (Some f, Some (Fin 0))
    end in
  let '(y', vy') :=
    match Node.fy node with
    | None =>
        let v := (toNumber (Node.vy node) * velocityDecay)%js in
        (Some (toNumber (Node.y node) + v)%js, Some v)
    | Some f => (Some f, Some (Fin 0))
    end in
  Node.with_v (Node.with_pos node x' y') vx' vy'.

(** One iteration of [simulation.tick()]. *)
Definition tick1 (cfg : Config) (s : Simulation) : Simulation :=
  let alpha' :=
    (alpha s + (alphaTarget s - alpha s) * alphaDecay cfg)%js in
  let forced := foldl (λ nodes force, force alpha' nodes) (nodes s) (forces cfg) in
  {| nodes := map (move (velocityDecay cfg)) forced; alpha := alpha';
     alphaTarget := alphaTarget s; running := running s |}.

(** [simulation.tick(iterations)]; it dispatches no event. *)
Fixpoint tick (cfg : Config) (iterations : nat) (s : Simulation) : Simulation :=
  match iterations with
  | O => s
  | S k => tick cfg k (tick1 cfg s)
  end.

(** The end of the timer callback [step], after the tick and the
    listeners: the timer stops once [alpha < alphaMin]. *)
Definition settle (cfg : Config) (s : Simulation) : Simulation :=
  if ltb (alpha s) (alphaMin cfg)
  then {| nodes := nodes s; alpha := alpha s;
          alphaTarget := alphaTarget s; running := false |}
  else s.

Definition set_alpha (a : num) (s : Simulation) : Simulation :=
  {| nodes := nodes s; alpha := a; alphaTarget := alphaTarget s;
     running := running s |}.

Definition set_alphaTarget (a : num) (s : Simulation) : Simulation :=
  {| nodes := nodes s; alpha := alpha s; alphaTarget := a;
     running := running s |}.

Definition restart (s : Simulation) : Simulation :=
  {| nodes := nodes s; alpha := alpha s; alphaTarget := alphaTarget s;
     running := true |}.

Definition set_nodes (ns : list SimNode) (s : Simulation) : Simulation :=
  {| nodes := ns; alpha := alpha s; alphaTarget := alphaTarget s;
     running := running s |}.

End D3.

(** ** The connections context: selection *)

Module ConnectionsContext.

(** Modelled from the spec: [selectConnection] of the connections context
    ([@/context/ConnectionsContext]), which the view only calls.  Selecting
    a connection toggles it as the selected one: selecting the connection
    that is already selected, or selecting nothing, clears the selection. *)
Definition selectConnection (connection : option ConnectionNode)
    (selectedConnection : option ConnectionNode) : option ConnectionNode :=
  match connection with
  | None => None
  | Some c =>
      match selectedConnection with
      | Some s => if decide (Conn.id s = Conn.id c) then None else Some c
      | None => Some c
      end
  end.

End ConnectionsContext.

(** ** GraphCanvas: building the model *)

Module GraphCanvas.

Section Build.
(** [dimensions] and the collections obtained from the connections
    context, and the position store as it is when the effect runs. *)
Variables width height : num.
Variable filteredConnections : list ConnectionNode.
Variable links : list Link.t.
Variable nodePositionsRef : PositionStore.

Definition centerX : num := (width / Fin 2)%js.
Definition centerY : num := (height / Fin 2)%js.

Definition userNode : SimNode :=
  {| Node.id := "USER"; Node.isUser := true; Node.connection := None;
     Node.x := Some centerX; Node.y := Some centerY;
     Node.vx := None; Node.vy := None;
     Node.fx := Some centerX; Node.fy := Some centerY |}.

Definition connById : gmap string ConnectionNode :=
  newMap Conn.id (λ c, c) filteredConnections.

Definition firstDegree : list ConnectionNode :=
  filter (λ c, Conn.degree c = 1%Z) filteredConnections.

(** [firstDegree.forEach((conn, i) => angleByFirstDegree.set(conn.id,
    (i / firstDegree.length) * Math.PI * 2))] *)
Definition angleByFirstDegree : gmap string num :=
  newMap (λ ic, Conn.id ic.2)
    (λ ic, (Fin (INR ic.1) / Fin (INR (length firstDegree))
            * Math_PI * Fin 2)%js)
    (indexed firstDegree).

(** [Math.random() * Math.PI * 2] *)
Definition randomAngle : Rand num :=
  let* r := Math_random in ret (r * Math_PI * Fin 2)%js.

(** [(angleByFirstDegree.get(key) || 0) + (Math.random() - 0.5) * spread] *)
Definition jitteredAngle (key : string) (spread : R) : Rand num :=
  let base := JS.or (angleByFirstDegree !! key) (Fin 0) in
  let* r := Math_random in
  ret (base + (r - Fin 0.5) * Fin spread)%js.

(** The [angle] computed for one connection.  The right operand of [||]
    is evaluated, and a number drawn, only when the left one is falsy. *)
Definition seedAngle (conn : ConnectionNode) : Rand num :=
  if decide (Conn.degree conn = 1%Z) then
    match angleByFirstDegree !! Conn.id conn with
    | Some a => if truthy a then ret a else randomAngle
    | None => randomAngle
    end
  else if truthyS (Conn.connectedThrough conn) then
    match connById !! orEmpty (Conn.connectedThrough conn) with
    | Some parent =>
        if decide (Conn.degree parent = 1%Z) then
          jitteredAngle (Conn.id parent) 0.5
        else if truthyS (Conn.connectedThrough parent) then
          let grandparent :=
            connById !! orEmpty (Conn.connectedThrough parent) in
          jitteredAngle (orEmpty (Conn.id <$> grandparent)) 0.7
        else randomAngle
    | None => randomAngle
    end
  else randomAngle.

(** The [degreeRadius] table of the seeding code. *)
Definition degreeRadius_seed (degree : Z) : value :=
  match degree with
  | 1%Z => Some (Fin 120)
  | 2%Z => Some (Fin 220)
  | 3%Z => Some (Fin 320)
  | _ => None
  end.

(** [degreeRadius[conn.degree] || 150] *)
Definition seedRadius (degree : Z) : num :=
  JS.or (degreeRadius_seed degree) (Fin 150).

(** One element of [connectionNodes]. *)
Definition connectionNode (conn : ConnectionNode) : Rand SimNode :=
  let savedPos := nodePositionsRef !! Conn.id conn in
  let* angle := seedAngle conn in
  let radius := seedRadius (Conn.degree conn) in
  ret {| Node.id := Conn.id conn; Node.isUser := false;
         Node.connection := Some conn;
         Node.x := Some (nullish (fst <$> savedPos)
                           (centerX + Math_cos angle * radius)%js);
         Node.y := Some (nullish (snd <$> savedPos)
                           (centerY + Math_sin angle * radius)%js);
         Node.vx := None; Node.vy := None;
         Node.fx := None; Node.fy := None |}.

Definition connectionNodes : Rand (list SimNode) :=
  mapM connectionNode filteredConnections.

(** [nodes = [userNode, ...connectionNodes]] *)
Definition nodes (connectionNodes : list SimNode) : list SimNode :=
  userNode :: connectionNodes.

(** [nodeById]: id to node object, the object being its place in [nodes]. *)
Definition nodeById (nodes : list SimNode) : gmap string nat :=
  newMap (λ i_n, Node.id i_n.2) (λ i_n, i_n.1) (indexed nodes).

(** The links from the user node to every first-degree node. *)
Definition userLinks (connectionNodes : list SimNode) : list SimLink.t :=
  omap (λ i_n : nat * SimNode,
          if decide (Conn.degree <$> Node.connection i_n.2 = Some 1%Z)
          then Some (SimLink.mk 0 (S i_n.1)) else None)
       (indexed connectionNodes).

(** The explicit links whose two ends are found in [nodeById]. *)
Definition explicitLinks (nodes : list SimNode) : list SimLink.t :=
  omap (λ link : Link.t,
          match nodeById nodes !! Link.source link,
                nodeById nodes !! Link.target link with
          | Some source, Some target => Some (SimLink.mk source target)
          | _, _ => None
          end)
       links.

Definition simLinks (connectionNodes : list SimNode) : list SimLink.t :=
  userLinks connectionNodes ++ explicitLinks (nodes connectionNodes).

(** [Math.min(14, Math.max(8, 180 / Math.sqrt(nodes.length)))] *)
Definition baseRadius (nodes : list SimNode) : num :=
  Math_min (Fin 14)
    (Math_max (Fin 8) (Fin 180 / Math_sqrt (Fin (INR (length nodes))))%js).

(** ** Ring radii *)

Definition maxRadius : num := (Math_min width height / Fin 2 - Fin 60)%js.

Definition degreeRadius (degree : Z) : value :=
  match degree with
  | 1%Z => Some (maxRadius * Fin 0.3)%js
  | 2%Z => Some (maxRadius * Fin 0.6)%js
  | 3%Z => Some (maxRadius * Fin 0.9)%js
  | _ => None
  end.

(** ** The custom radial force *)

(** [Math.sqrt(dx * dx + dy * dy) || 1] *)
Definition radialDist (dx dy : num) : num :=
  JS.or (Some (Math_sqrt (dx * dx + dy * dy)%js)) (Fin 1).

(** What one call adds to [vx] and [vy] of a node at [(x, y)] whose ring
    table entry is [targetRadius]. *)
Definition radialPush (alpha : num) (targetRadius : value) (x y : num)
  : num * num :=
  let dx := (x - centerX)%js in
  let dy := (y - centerY)%js in
  let dist := radialDist dx dy in
  let diff := (toNumber targetRadius - dist)%js in
  let strength := (alpha * Fin 0.15)%js in
  ((dx / dist * diff * strength)%js, (dy / dist * diff * strength)%js).

(** The body of [connectionNodes.forEach] in [radialForce]. *)
Definition radialForceNode (alpha : num) (node : SimNode) : SimNode :=
  match Node.connection node, Node.x node, Node.y node with
  | Some connection, Some x, Some y =>
      let targetRadius := degreeRadius (Conn.degree connection) in
      let push := radialPush alpha targetRadius x y in
      Node.with_v node
        (Some (JS.or (Node.vx node) (Fin 0) + push.1)%js)
        (Some (JS.or (Node.vy node) (Fin 0) + push.2)%js)
  | _, _, _ => node
  end.

(** [radialForce(alpha)]: it runs over [connectionNodes], the objects of
    [nodes] after the user node. *)
Definition radialForce (alpha : num) (nodes : list SimNode) : list SimNode :=
  match nodes with
  | [] => []
  | user :: connectionNodes =>
      user :: map (radialForceNode alpha) connectionNodes
  end.

(** [getNodeSize]: no case of the [switch] matches an unknown degree. *)
Definition getNodeSize (node : SimNode) (baseRadius : num) : value :=
  if Node.isUser node then Some (baseRadius * Fin 1.8)%js
  else match Node.connection node with
       | None => Some baseRadius
       | Some connection =>
           match Conn.degree connection with
           | 1%Z => Some (baseRadius * Fin 1.1)%js
           | 2%Z => Some (baseRadius * Fin 0.85)%js
           | 3%Z => Some (baseRadius * Fin 0.65)%js
           | _ => None
           end
       end.

End Build.

(** ** GraphCanvas: the running view *)

(** The state of one run of the effect: the simulation and the position
    store. *)
Record View : Type := mkView {
  sim : D3.Simulation;
  store : PositionStore
}.

(** The events that reach a mounted view: the firing of the simulation
    timer, and the three phases of a drag gesture on the node object [d]
    ([active] is [event.active], [x] and [y] the pointer). *)
Inductive Event : Type :=
| TimerTick
| DragStart (d : nat) (active : nat)
| Drag (d : nat) (x y : num)
| DragEnd (d : nat) (active : nat).

Section Run.
Variables width height : num.
Variable filteredConnections : list ConnectionNode.
Variable links : list Link.t.

(** The link, many-body and collision forces of d3, as configured. *)
Variable forceLink : list SimLink.t → D3.VelocityField.
Variables forceManyBody forceCollide : D3.VelocityField.

(** [.alphaDecay(0.03)], [.velocityDecay(0.4)] (kept by d3 as the factor
    [1 - 0.4]) and the four forces, in the order they are registered. *)
Definition config (simLinks : list SimLink.t) : D3.Config :=
  {| D3.alphaMin := Fin 0.001;
     D3.alphaDecay := Fin 0.03;
     D3.velocityDecay := (Fin 1 - Fin 0.4)%js;
     D3.forces := [ radialForce width height;
                    D3.builtin (forceLink simLinks);
                    D3.builtin forceManyBody;
                    D3.builtin forceCollide ] |}.

(** The effect up to the first paint: the nodes and links are built, the
    simulation is created with [alpha(0.3)] and [alphaTarget(0)], run for
    100 ticks, and left at [alpha(0.1)]. *)
Definition mount (nodePositionsRef : PositionStore) : Rand (View * list SimLink.t) :=
  let* connectionNodes :=
    connectionNodes width height filteredConnections nodePositionsRef in
  let nodes := nodes width height connectionNodes in
  let simLinks := simLinks width height links connectionNodes in
  let simulation :=
    D3.set_alphaTarget (Fin 0) (D3.set_alpha (Fin 0.3) (D3.forceSimulation nodes)) in
  let simulation := D3.tick (config simLinks) 100 simulation in
  let simulation := D3.set_alpha (Fin 0.1) simulation in
  ret ({| sim := simulation; store := nodePositionsRef |}, simLinks).

(** The ['tick'] listener: save the position of every node but the user. *)
Definition savePositions (nodes : list SimNode) (store : PositionStore)
  : PositionStore :=
  foldl (λ store node,
           match Node.isUser node, Node.x node, Node.y node with
           | false, Some x, Some y => <[Node.id node := (x, y)]> store
           | _, _, _ => store
           end)
        store nodes.

(** One firing of the timer: a tick, the listener, the stopping test. *)
Definition step (simLinks : list SimLink.t) (v : View) : View :=
  let simulation := D3.tick1 (config simLinks) (sim v) in
  let store := savePositions (D3.nodes simulation) (store v) in
  {| sim := D3.settle (config simLinks) simulation; store := store |}.

(** Apply [f] to the node object [d]. *)
Definition update_node (d : nat) (f : SimNode → SimNode) (s : D3.Simulation)
  : D3.Simulation :=
  match D3.nodes s !! d with
  | Some node => D3.set_nodes (<[d := f node]> (D3.nodes s)) s
  | None => s
  end.

Definition is_user (d : nat) (s : D3.Simulation) : bool :=
  match D3.nodes s !! d with
  | Some node => Node.isUser node
  | None => false
  end.

(** [drag.on('start')] *)
Definition dragstarted (d active : nat) (s : D3.Simulation) : D3.Simulation :=
  if is_user d s then s
  else
    let s := if decide (active = 0%nat)
             then D3.restart (D3.set_alphaTarget (Fin 0.3) s) else s in
    update_node d (λ node, Node.with_pin node (Node.x node) (Node.y node)) s.

(** [drag.on('drag')] *)
Definition dragged (d : nat) (x y : num) (s : D3.Simulation) : D3.Simulation :=
  if is_user d s then s
  else update_node d (λ node, Node.with_pin node (Some x) (Some y)) s.

(** [drag.on('end')] *)
Definition dragended (d active : nat) (s : D3.Simulation) : D3.Simulation :=
  if is_user d s then s
  else
    let s := if decide (active = 0%nat)
             then D3.set_alphaTarget (Fin 0) s else s in
    update_node d (λ node, Node.with_pin node None None) s.

Definition handle (simLinks : list SimLink.t) (e : Event) (v : View) : View :=
  match e with
  | TimerTick => if D3.running (sim v) then step simLinks v else v
  | DragStart d active =>
      {| sim := dragstarted d active (sim v); store := store v |}
  | Drag d x y => {| sim := dragged d x y (sim v); store := store v |}
  | DragEnd d active =>
      {| sim := dragended d active (sim v); store := store v |}
  end.

Definition run (simLinks : list SimLink.t) (events : list Event) (v : View)
  : View :=
  foldl (λ v e, handle simLinks e v) v events.

End Run.

(** ** Clicks and the selection *)

(** [svg.on('click')] *)
Definition backgroundClick (selectedConnection : option ConnectionNode)
  : option ConnectionNode :=
  ConnectionsContext.selectConnection None selectedConnection.

(** A click on the node [d].  The listener of the node returns at once on
    the user node, and the click goes on to the listener of the svg; on any
    other node it stops the propagation and selects the connection. *)
Definition nodeClick (d : SimNode) (selectedConnection : option ConnectionNode)
  : option ConnectionNode :=
  if Node.isUser d then backgroundClick selectedConnection
  else ConnectionsContext.selectConnection (Node.connection d) selectedConnection.

(** ** The selection highlight *)

(** The [stroke] of the circle of the node [d], as the effect on
    [selectedConnection] sets it. *)
Definition stroke (selectedConnection : option ConnectionNode) (d : SimNode)
  : string :=
  if Node.isUser d then "rgba(255,255,255,0.5)"
  else if decide (Conn.id <$> selectedConnection = Some (Node.id d)) then "#fff"
  else "transparent".

End GraphCanvas.

(** ** EmailNodeGraph: the category overview

    Strings are sequences of 8-bit characters; the case conversions and
    the white-space class are those of ASCII. *)

Module EmailNodeGraph.

Local Open Scope char_scope.

Definition chars (s : string) : list ascii := list_ascii_of_string s.
Definition str (l : list ascii) : string := string_of_list_ascii l.

(** The longest prefix of characters satisfying [p], and the rest. *)
Fixpoint span (p : ascii → bool) (l : list ascii) : list ascii * list ascii :=
  match l with
  | [] => ([], [])
  | c :: l' =>
      if p c then let '(run, rest) := span p l' in (c :: run, rest)
      else ([], l)
  end.

Definition is_not (c : ascii) : ascii → bool := λ a, negb (Ascii.eqb a c).

(** The class [\s] *)
Definition isSpace (a : ascii) : bool :=
  let n := nat_of_ascii a in
  (Nat.leb 9 n && Nat.leb n 13) || Nat.eqb n 32.

Definition toLower (a : ascii) : ascii :=
  let n := nat_of_ascii a in
  if Nat.leb 65 n && Nat.leb n 90 then ascii_of_nat (n + 32) else a.

Definition toUpper (a : ascii) : ascii :=
  let n := nat_of_ascii a in
  if Nat.leb 97 n && Nat.leb n 122 then ascii_of_nat (n - 32) else a.

(** [s.match(/<([^>]+)>/)]: the capture of the leftmost match. *)
Fixpoint matchBracketed (l : list ascii) : option (list ascii) :=
  match l with
  | [] => None
  | c :: l' =>
      if Ascii.eqb c "<" then
        match span (is_not ">") l' with
        | ((_ :: _) as run, ">" :: _) => Some run
        | _ => matchBracketed l'
        end
      else matchBracketed l'
  end.

(** [s.match(/@([^.]+)/)] *)
Fixpoint matchDomain (l : list ascii) : option (list ascii) :=
  match l with
  | [] => None
  | c :: l' =>
      if Ascii.eqb c "@" then
        match span (is_not ".") l' with
        | ((_ :: _) as run, _) => Some run
        | _ => matchDomain l'
        end
      else matchDomain l'
  end.

(** [s.match(/^([^<]+)/)] and [s.match(/^([^\s<]+)/)] *)
Definition matchPrefix (p : ascii → bool) (l : list ascii) : option (list ascii) :=
  match span p l with
  | ((_ :: _) as run, _) => Some run
  | _ => None
  end.

Fixpoint trimStart (l : list ascii) : list ascii :=
  match l with
  | c :: l' => if isSpace c then trimStart l' else l
  | [] => []
  end.

Definition trim (l : list ascii) : list ascii :=
  rev (trimStart (rev (trimStart l))).

(** [s.split(' ')[0]] *)
Definition firstWord (l : list ascii) : list ascii := (span (is_not " ") l).1.

Definition freeMail : list string :=
  ["gmail"; "yahoo"; "outlook"; "hotmail"]%string.

Definition extractCategory (from : string) : string :=
  let email := match matchBracketed (chars from) with
               | Some e => e
               | None => chars from
               end in
  match matchDomain email with
  | Some d =>
      let domain := map toLower d in
      if bool_decide (str domain ∈ freeMail) then
        match matchPrefix (is_not "<") (chars from) with
        | Some n => str (firstWord (trim n))
        | None => "Personal"%string
        end
      else
        match domain with
        | c :: rest => str (toUpper c :: rest)
        | [] => ""%string
        end
  | None =>
      match matchPrefix (λ a, negb (isSpace a) && is_not "<" a) (chars from) with
      | Some n => str n
      | None => "Unknown"%string
      end
  end.

(** [s.replace(/\s+/g, '-')]: every maximal run of white space becomes one
    dash.  [inRun] tells that the previous character was white space. *)
Fixpoint dashSpaces (inRun : bool) (l : list ascii) : list ascii :=
  match l with
  | [] => []
  | c :: l' =>
      if isSpace c then
        if inRun then dashSpaces true l' else "-" :: dashSpaces true l'
      else c :: dashSpaces false l'
  end.

Local Close Scope char_scope.

(** An analysed email; the view reads [from] to group, the rest is payload. *)
Module Email.
Record t : Type := mk {
  id : string;
  from : string;
  subject : string;
  threadId : string;
  priority : string
}.
End Email.
Abbreviation AnalyzedEmail := Email.t.

Definition CATEGORY_COLORS : list string :=
  [ "#bf5af2"; "#ff6b6b"; "#ffc078"; "#74c0fc";
    "#63e6be"; "#ffd43b"; "#ff922b"; "#da77f2" ]%string.

(** [CATEGORY_COLORS[index % CATEGORY_COLORS.length]] *)
Definition getCategoryColor (index : nat) : option string :=
  CATEGORY_COLORS !! (index mod length CATEGORY_COLORS)%nat.

(** The [categoryMap] is a [Map] read back in insertion order: an
    association list, a new key going to the end.  [addEmail] is the body
    of [emails.forEach]. *)
Fixpoint addEmail (category : string) (email : AnalyzedEmail)
    (categoryMap : list (string * list AnalyzedEmail))
  : list (string * list AnalyzedEmail) :=
  match categoryMap with
  | [] => [(category, [email])]
  | (k, l) :: m =>
      if decide (k = category) then (k, l ++ [email]) :: m
      else (k, l) :: addEmail category email m
  end.

Definition categoryMap (emails : list AnalyzedEmail)
  : list (string * list AnalyzedEmail) :=
  foldl (λ m email, addEmail (extractCategory (Email.from email)) email m)
        [] emails.

(** [.sort((a, b) => b[1].length - a[1].length)]: the sort of an array is
    stable, so the result is the one of a stable insertion sort by
    decreasing number of emails. *)
Fixpoint insertEntry (e : string * list AnalyzedEmail)
    (sorted : list (string * list AnalyzedEmail))
  : list (string * list AnalyzedEmail) :=
  match sorted with
  | [] => [e]
  | e' :: rest =>
      if decide (length e.2 < length e'.2)%nat then e' :: insertEntry e rest
      else e :: sorted
  end.

Definition sortByCount (entries : list (string * list AnalyzedEmail))
  : list (string * list AnalyzedEmail) :=
  foldr insertEntry [] entries.

Module Category.
Record t : Type := mk {
  id : string;
  label : string;
  emails : list AnalyzedEmail;
  count : nat;
  color : option string
}.
End Category.

(** The callback of the final [.map]. *)
Definition mkCategory (index : nat) (entry : string * list AnalyzedEmail)
  : Category.t :=
  {| Category.id := str (dashSpaces false (map toLower (chars entry.1)));
     Category.label := entry.1;
     Category.emails := entry.2;
     Category.count := length entry.2;
     Category.color := getCategoryColor index |}.

(** The memoised [categories]. *)
Definition categories (emails : list AnalyzedEmail) : list Category.t :=
  imap mkCategory (take 8 (sortByCount (categoryMap emails))).

(** A node of the email graphs. *)
Module ENode.
Record t : Type := mk {
  id : string;
  isCenter : bool;
  category : option string;
  count : option nat;
  emails : option (list AnalyzedEmail);
  color : option string;
  x : value;
  y : value;
  fx : value;
  fy : value
}.
End ENode.

Section CategoryView.
Variables width height : num.

Definition centerX : num := (width / Fin 2)%js.
Definition centerY : num := (height / Fin 2)%js.

Definition centerNode : ENode.t :=
  {| ENode.id := "CENTER"; ENode.isCenter := true;
     ENode.category := None; ENode.count := None; ENode.emails := None;
     ENode.color := None;
     ENode.x := Some centerX; ENode.y := Some centerY;
     ENode.fx := Some centerX; ENode.fy := Some centerY |}.

Definition categoryNode (n : nat) (i : nat) (cat : Category.t) : ENode.t :=
  let angle := (Fin (INR i) / Fin (INR n) * Math_PI * Fin 2)%js in
  let radius := Fin 120 in
  {| ENode.id := Category.id cat; ENode.isCenter := false;
     ENode.category := Some (Category.label cat);
     ENode.count := Some (Category.count cat);
     ENode.emails := Some (Category.emails cat);
     ENode.color := Category.color cat;
     ENode.x := Some (centerX + Math_cos angle * radius)%js;
     ENode.y := Some (centerY + Math_sin angle * radius)%js;
     ENode.fx := None; ENode.fy := None |}.

Definition categoryNodes (categories : list Category.t) : list ENode.t :=
  imap (categoryNode (length categories)) categories.

(** The node array of the category view; the effect builds nothing when
    there is no category or when a category is selected. *)
Definition categoryViewNodes (categories : list Category.t)
    (selectedCategory : option string) : option (list ENode.t) :=
  match categories, selectedCategory with
  | [], _ => None
  | _, Some (String _ _) => None
  | _, _ => Some (centerNode :: categoryNodes categories)
  end.

End CategoryView.

(** ** EmailNodeGraph: circle sizes of the overview *)

(** [(d.count || 0) * 2] *)
Definition countTwice (d : ENode.t) : num :=
  (JS.or ((λ n : nat, Fin (INR n)) <$> ENode.count d) (Fin 0) * Fin 2)%js.

(** The [r] attribute of the circles. *)
Definition circleRadius (d : ENode.t) : num :=
  if ENode.isCenter d then Fin 40
  else (Fin 25 + Math_min (countTwice d) (Fin 10))%js.

(** The [radius] accessor of the collision force. *)
Definition collisionRadius (d : ENode.t) : num :=
  if ENode.isCenter d then Fin 45
  else (Fin 30 + Math_min (countTwice d) (Fin 12))%js.

(** ** EmailNodeGraph: the drill-down *)

(** The memoised [categoryEmails]. *)
Definition categoryEmails (categories : list Category.t)
    (selectedCategory : option string) : list AnalyzedEmail :=
  if truthyS selectedCategory then
    match List.find (λ c, bool_decide (Some (Category.label c) = selectedCategory))
                    categories with
    | Some cat => Category.emails cat
    | None => []
    end
  else [].

(** The click listener of the nodes of the overview: the new value of
    [selectedCategory]. *)
Definition categoryClick (d : ENode.t) (selectedCategory : option string)
  : option string :=
  if ENode.isCenter d then selectedCategory
  else if truthyS (ENode.category d) then ENode.category d else None.

(** A node of the email view. *)
Module MailNode.
Record t : Type := mk {
  id : string;
  isCenter : bool;
  category : option string;
  email : option AnalyzedEmail;
  x : value;
  y : value;
  fx : value;
  fy : value
}.
End MailNode.

Section EmailView.
Variables width height : num.

Definition emailCenterNode (selectedCategory : string) : MailNode.t :=
  {| MailNode.id := "CENTER"; MailNode.isCenter := true;
     MailNode.category := Some selectedCategory; MailNode.email := None;
     MailNode.x := Some (centerX width); MailNode.y := Some (centerY height);
     MailNode.fx := Some (centerX width); MailNode.fy := Some (centerY height) |}.

Definition emailNode (n : nat) (i : nat) (email : AnalyzedEmail)
  : Rand MailNode.t :=
  let angle := (Fin (INR i) / Fin (INR n) * Math_PI * Fin 2)%js in
  let* r := Math_random in
  let radius := (Fin 100 + r * Fin 20)%js in
  ret {| MailNode.id := Email.id email; MailNode.isCenter := false;
         MailNode.category := None; MailNode.email := Some email;
         MailNode.x := Some (centerX width + Math_cos angle * radius)%js;
         MailNode.y := Some (centerY height + Math_sin angle * radius)%js;
         MailNode.fx := None; MailNode.fy := None |}.

Definition emailNodes (categoryEmails : list AnalyzedEmail)
  : Rand (list MailNode.t) :=
  mapM (λ ie, emailNode (length categoryEmails) ie.1 ie.2)
       (indexed categoryEmails).

(** The node array of the email view; the effect builds nothing when no
    category is selected or when the selected one has no email. *)
Definition emailViewNodes (categories : list Category.t)
    (selectedCategory : option string) : Rand (option (list MailNode.t)) :=
  if truthyS selectedCategory then
    match categoryEmails categories selectedCategory with
    | [] => ret None
    | emails =>
        let* nodes := emailNodes emails in
        ret (Some (emailCenterNode (orEmpty selectedCategory) :: nodes))
    end
  else ret None.

End EmailView.

End EmailNodeGraph.

(** ** ParticleBackground

    [width] and [height] are [window.innerWidth] and [window.innerHeight];
    these and everything computed from them and from the draws are finite
    numbers, carried as reals. *)

Module ParticleBackground.

Module Particle.
Record t : Type := mk {
  x : R;
  y : R;
  vx : R;
  vy : R;
  size : R
}.
End Particle.

(** [Math.random()], the number drawn as a real. *)
Definition random : Rand R := λ draws k, (draws k, S k).

Section Canvas.
Variables width height : R.

(** [Math.floor((width * height) / 15000)] *)
Definition particleCount : Z := Int_part (width * height / 15000).

(** The object pushed by one round of the loop of [initParticles]. *)
Definition newParticle : Rand Particle.t :=
  let* rx := random in
  let* ry := random in
  let* rvx := random in
  let* rvy := random in
  let* rsize := random in
  ret {| Particle.x := rx * width; Particle.y := ry * height;
         Particle.vx := (rvx - 0.5) * 0.3; Particle.vy := (rvy - 0.5) * 0.3;
         Particle.size := rsize * 2 + 1 |}.

Fixpoint pushParticles (n : nat) : Rand (list Particle.t) :=
  match n with
  | O => ret []
  | S n' =>
      let* p := newParticle in
      let* ps := pushParticles n' in
      ret (p :: ps)
  end.

(** [initParticles]: the loop [for (i = 0; i < particleCount; i++)] runs
    [particleCount] times, and not at all when that is negative. *)
Definition initParticles : Rand (list Particle.t) :=
  pushParticles (Z.to_nat particleCount).

(** [c < 0 || c > limit] *)
Definition outside (c limit : R) : bool :=
  if Rlt_dec c 0 then true else if Rgt_dec c limit then true else false.

(** What one frame does to a particle. *)
Definition move (p : Particle.t) : Particle.t :=
  let x := Particle.x p + Particle.vx p in
  let y := Particle.y p + Particle.vy p in
  {| Particle.x := x; Particle.y := y;
     Particle.vx := if outside x width then Particle.vx p * -1
                    else Particle.vx p;
     Particle.vy := if outside y height then Particle.vy p * -1
                    else Particle.vy p;
     Particle.size := Particle.size p |}.

(** The body of [particles.forEach] in [draw]: the particle moves, then two
    numbers are drawn for its colour; the lines to the particles near it
    read positions and change none. *)
Definition drawParticle (p : Particle.t) : Rand Particle.t :=
  let p' := move p in
  let* isBlue := random in
  let* opacity := random in
  ret p'.

Definition draw (particles : list Particle.t) : Rand (list Particle.t) :=
  mapM drawParticle particles.

(** [n] animation frames. *)
Fixpoint frames (n : nat) (particles : list Particle.t)
  : Rand (list Particle.t) :=
  match n with
  | O => ret particles
  | S n' => let* particles' := draw particles in frames n' particles'
  end.

(** [resize(); draw()] and the frames that follow. *)
Definition animation (n : nat) : Rand (list Particle.t) :=
  let* particles := initParticles in frames n particles.

End Canvas.

End ParticleBackground.

(** ** The earlier GraphCanvas

    The view of [connection-graph], where it differs from the one above:
    the nodes are seeded at random around the centre and no position is
    stored, and the rest length of a link follows the ring of its target. *)

Module LegacyGraphCanvas.

Section Build.
Variables width height : num.
Variable filteredConnections : list ConnectionNode.

Definition connectionNode (conn : ConnectionNode) : Rand SimNode :=
  let* rx := Math_random in
  let* ry := Math_random in
  ret {| Node.id := Conn.id conn; Node.isUser := false;
         Node.connection := Some conn;
         Node.x := Some (GraphCanvas.centerX width
                         + (rx - Fin 0.5) * Fin 300)%js;
         Node.y := Some (GraphCanvas.centerY height
                         + (ry - Fin 0.5) * Fin 300)%js;
         Node.vx := None; Node.vy := None;
         Node.fx := None; Node.fy := None |}.

Definition connectionNodes : Rand (list SimNode) :=
  mapM connectionNode filteredConnections.

(** [target.connection?.degree || 2] *)
Definition targetDegree (target : SimNode) : Z :=
  match Node.connection target with
  | Some connection =>
      if decide (Conn.degree connection = 0%Z) then 2%Z
      else Conn.degree connection
  | None => 2%Z
  end.

(** The [distance] accessor of the link force. *)
Definition linkDistance (source target : SimNode) : num :=
  let degreeRadius := GraphCanvas.degreeRadius width height in
  if Node.isUser source then toNumber (degreeRadius 1%Z)
  else
    JS.or (Some (toNumber (degreeRadius (targetDegree target))
                 - toNumber (degreeRadius (targetDegree target - 1)%Z))%js)
          (Fin 80).

End Build.

End LegacyGraphCanvas.

(** * Properties

    The predicates and the sample inputs that the statements below use. *)

Import GraphCanvas.

(** The link [l], whose ends are node objects of [nodes], joins the two ids
    of the relation [rel]. *)
Definition linkFor (nodes : list SimNode) (rel : Link.t) (l : SimLink.t) : Prop :=
  ∃ s t,
    nodes !! SimLink.source l = Some s ∧ nodes !! SimLink.target l = Some t ∧
    Node.id s = Link.source rel ∧ Node.id t = Link.target rel.

(** Both ids of a relation are ids of nodes. *)
Definition bothPresent (nodes : list SimNode) (rel : Link.t) : Prop :=
  Link.source rel ∈ Node.id <$> nodes ∧ Link.target rel ∈ Node.id <$> nodes.

(** The angle [2π·i/n], written as the source computes it. *)
Definition evenAngle (i n : nat) : R := INR i / INR n * PI * 2.

(** What is never written in a node object. *)
Definition static (n : SimNode) : string * bool * option ConnectionNode :=
  (Node.id n, Node.isUser n, Node.connection n).

(** [n'] is [n] after mutations that leave the pin of a user node alone. *)
Definition keeps (n n' : SimNode) : Prop :=
  static n' = static n ∧
  (Node.isUser n = true → Node.fx n' = Node.fx n ∧ Node.fy n' = Node.fy n).

(** [n'] is [n] after a mutation of its velocity only. *)
Definition frame (n n' : SimNode) : Prop :=
  static n' = static n ∧ Node.x n' = Node.x n ∧ Node.y n' = Node.y n ∧
  Node.fx n' = Node.fx n ∧ Node.fy n' = Node.fy n.

(** A pinned coordinate is where the pin is. *)
Definition pinned (n : SimNode) : Prop :=
  (∀ f, Node.fx n = Some f → Node.x n = Some f) ∧
  (∀ f, Node.fy n = Some f → Node.y n = Some f).

Definition placed (n : SimNode) : Prop :=
  is_Some (Node.x n) ∧ is_Some (Node.y n).

(** What holds of every node between two events: it has a position, and a
    user node sits on its pin. *)
Definition ok (n : SimNode) : Prop :=
  placed n ∧ (Node.isUser n = true → pinned n).

(** The body of the loop of the ['tick'] listener. *)
Definition saveNode (store : PositionStore) (node : SimNode) : PositionStore :=
  match Node.isUser node, Node.x node, Node.y node with
  | false, Some x, Some y => <[Node.id node := (x, y)]> store
  | _, _, _ => store
  end.

(** The view and the links that one run of the effect leaves. *)
Definition mounted w h conns links fl fm fc st draws k : View :=
  (mount w h conns links fl fm fc st draws k).1.1.

Definition mountedLinks w h conns links fl fm fc st draws k : list SimLink.t :=
  (mount w h conns links fl fm fc st draws k).1.2.

(** Sample inputs. *)
Module Sample.
Definition alice : ConnectionNode :=
  Conn.mk "a" "Alice Ames" "Engineer" "Acme" 1 None hot.
Definition bob : ConnectionNode :=
  Conn.mk "b" "Bob Berg" "Designer" "Bolt" 2 (Some "a"%string) cold.
(** a connection whose degree is no known ring *)
Definition dana : ConnectionNode :=
  Conn.mk "d" "Dana Diaz" "Analyst" "Dune" 4 None cold.

Definition leaf (c : ConnectionNode) (x y : R) : SimNode :=
  {| Node.id := Conn.id c; Node.isUser := false; Node.connection := Some c;
     Node.x := Some (Fin x); Node.y := Some (Fin y);
     Node.vx := Some (Fin 0); Node.vy := Some (Fin 0);
     Node.fx := None; Node.fy := None |}.

Definition half : nat → R := λ _, 1 / 2.
Definition still : D3.VelocityField := λ _ _ _, (Fin 0, Fin 0).
End Sample.

(** ** The email overview *)

Module ENG := EmailNodeGraph.
Abbreviation AnalyzedEmail := ENG.Email.t.

(** The category of an email. *)
Definition categoryOf (e : AnalyzedEmail) : string :=
  ENG.extractCategory (ENG.Email.from e).

(** The emails of a list that fall in one category, in their order. *)
Definition emailsOf (category : string) (emails : list AnalyzedEmail)
  : list AnalyzedEmail :=
  filter (λ e, categoryOf e = category) emails.

(** An entry with more emails comes first. *)
Definition byCount (e1 e2 : string * list AnalyzedEmail) : Prop :=
  (length e2.2 ≤ length e1.2)%nat.

(** ** ASCII text

    The strings of the model are sequences of 8-bit characters, and its
    case conversions, its white-space class and its [trim] are those of
    ASCII: they are the ones of JavaScript on text whose characters are all
    below 128.  The statements about the text of a sender assume such text,
    and they speak of letters and of white space through the tables
    below, not through the functions of the model. *)

Definition isAscii (s : string) : Prop :=
  Forall (λ a, (nat_of_ascii a < 128)%nat) (ENG.chars s).

Definition upperLetters : list ascii := ENG.chars "ABCDEFGHIJKLMNOPQRSTUVWXYZ".
Definition lowerLetters : list ascii := ENG.chars "abcdefghijklmnopqrstuvwxyz".

(** Tab, line feed, vertical tab, form feed, carriage return and space. *)
Definition whiteSpace : list ascii := ascii_of_nat <$> [9; 10; 11; 12; 13; 32]%nat.

(** The character of [to] at the place that [a] has in [from]; [a] itself
    when it is not in [from]. *)
Definition translate (from to : list ascii) (a : ascii) : ascii :=
  match list_find (λ b, b = a) from with
  | Some (i, _) => default a (to !! i)
  | None => a
  end.

Definition lowerCase : ascii → ascii := translate upperLetters lowerLetters.

(** Sample emails. *)
Module MailSample.
Definition emails : list AnalyzedEmail :=
  [ ENG.Email.mk "1" "Ann <ann@acme.com>" "Offer" "t1" "HIGH";
    ENG.Email.mk "2" "noreply@GitHub.com" "Build" "t2" "LOW";
    ENG.Email.mk "3" "Bea Bell <bea@gmail.com>" "Lunch" "t3" "LOW";
    ENG.Email.mk "4" "Cy <cy@acme.com>" "Invoice" "t4" "MEDIUM" ]%string.
End MailSample.

(** ** The particles *)

Module PB := ParticleBackground.

(** The coordinate [c], moving by [v] a frame, is within one step of the
    range from 0 to [limit], and heads back when it is outside. *)
Definition near (limit c v : R) : Prop :=
  Rabs v <= limit ∧ - Rabs v <= c <= limit + Rabs v ∧
  (c < 0 → 0 < v) ∧ (limit < c → v < 0).

(** The particle [q] is [p] some frames later. *)
Definition later (width height : R) (p q : PB.Particle.t) : Prop :=
  PB.Particle.size q = PB.Particle.size p ∧
  Rabs (PB.Particle.vx q) = Rabs (PB.Particle.vx p) ∧
  Rabs (PB.Particle.vy q) = Rabs (PB.Particle.vy p) ∧
  (near width (PB.Particle.x p) (PB.Particle.vx p) →
   near width (PB.Particle.x q) (PB.Particle.vx q)) ∧
  (near height (PB.Particle.y p) (PB.Particle.vy p) →
   near height (PB.Particle.y q) (PB.Particle.vy q)).

(** * Arithmetic on finite numbers *)

Lemma add_fin (a b : R) : (Fin a + Fin b)%js = Fin (a + b).
Proof. reflexivity. Qed.

Lemma sub_fin (a b : R) : (Fin a - Fin b)%js = Fin (a - b).
Proof. reflexivity. Qed.

Lemma mul_fin (a b : R) : (Fin a * Fin b)%js = Fin (a * b).
Proof. reflexivity. Qed.

Lemma div_fin (a b : R) : b ≠ 0 → (Fin a / Fin b)%js = Fin (a / b).
Proof.
  intros Hb. unfold JS.div. destruct (Req_dec_T b 0); [contradiction | reflexivity].
Qed.

Lemma sqrt_fin (a : R) : 0 <= a → Math_sqrt (Fin a) = Fin (sqrt a).
Proof. intros Ha. unfold Math_sqrt. destruct (Rlt_dec a 0); [lra | reflexivity]. Qed.

Lemma truthy_fin_true (r : R) : r ≠ 0 → truthy (Fin r) = true.
Proof. intros. unfold truthy. by destruct (Req_dec_T r 0). Qed.

Lemma truthy_fin_zero (r : R) : r = 0 → truthy (Fin r) = false.
Proof. intros. unfold truthy. by destruct (Req_dec_T r 0). Qed.

Lemma centerX_fin (w : R) : centerX (Fin w) = Fin (w / 2).
Proof. unfold centerX. apply div_fin. lra. Qed.

Lemma centerY_fin (h : R) : centerY (Fin h) = Fin (h / 2).
Proof. unfold centerY. apply div_fin. lra. Qed.

(** Case analysis on the comparisons of reals left in the goal. *)
Ltac js_cases :=
  repeat match goal with
    | |- context [Req_dec_T ?a ?b] => destruct (Req_dec_T a b); try lra
    | |- context [Rlt_dec ?a ?b] => destruct (Rlt_dec a b); try lra
    end.

Lemma Rmin_800_600 : Rmin 800 600 = 600.
Proof. unfold Rmin. destruct (Rle_dec 800 600); lra. Qed.

(** * Ring radii *)

Lemma maxRadius_fin (w h : R) :
  maxRadius (Fin w) (Fin h) = Fin (Rmin w h / 2 - 60).
Proof. unfold maxRadius. cbn [Math_min]. rewrite div_fin by lra. reflexivity. Qed.

(** C5.  Ring monotonicity: in a viewport with [min(width, height) > 120],
    the ring radius of a level [L1] is strictly smaller than the one of a
    level [L2] whenever [1 <= L1 < L2 <= 3], and the radius of level 3 is at
    most [min(width, height) / 2 - 60]. *)
Theorem ring_monotonicity (w h : R) (L1 L2 : Z) :
  120 < Rmin w h → (1 ≤ L1)%Z → (L1 < L2)%Z → (L2 ≤ 3)%Z →
  ∃ r1 r2 r3 : R,
    degreeRadius (Fin w) (Fin h) L1 = Some (Fin r1) ∧
    degreeRadius (Fin w) (Fin h) L2 = Some (Fin r2) ∧
    degreeRadius (Fin w) (Fin h) 3 = Some (Fin r3) ∧
    r1 < r2 ∧ r3 <= Rmin w h / 2 - 60.
Proof.
  intros Hmin H1 H12 H3.
  assert (HL : ((L1 = 1 ∧ L2 = 2) ∨ (L1 = 1 ∧ L2 = 3) ∨ (L1 = 2 ∧ L2 = 3))%Z) by lia.
  unfold degreeRadius. rewrite maxRadius_fin. cbn [JS.mul].
  destruct HL as [[-> ->] | [[-> ->] | [-> ->]]];
    eexists _, _, _;
    (split; [reflexivity|]; split; [reflexivity|]; split; [reflexivity|]; split; lra).
Qed.

Lemma ring_monotonicity_witness :
  ∃ r1 r2 r3 : R,
    degreeRadius (Fin 800) (Fin 600) 1 = Some (Fin r1) ∧
    degreeRadius (Fin 800) (Fin 600) 2 = Some (Fin r2) ∧
    degreeRadius (Fin 800) (Fin 600) 3 = Some (Fin r3) ∧
    r1 < r2 ∧ r3 <= Rmin 800 600 / 2 - 60.
Proof.
  apply (ring_monotonicity 800 600 1 2); [| lia | lia | lia].
  rewrite Rmin_800_600. lra.
Defined.

(** * Maps built from arrays *)

Section NewMap.
Context {A V : Type} (key : A → string) (val : A → V).

Lemma newMap_snoc (l : list A) (a : A) :
  newMap key val (l ++ [a]) = <[key a := val a]> (newMap key val l).
Proof. unfold newMap. by rewrite foldl_app. Qed.

Lemma newMap_lookup_Some (l : list A) (k : string) (v : V) :
  newMap key val l !! k = Some v → ∃ a, a ∈ l ∧ key a = k ∧ val a = v.
Proof.
  induction l as [|a l IH] using rev_ind.
  - unfold newMap; simpl. by rewrite lookup_empty.
  - rewrite newMap_snoc. destruct (decide (key a = k)) as [<-|Hne].
    + rewrite lookup_insert_eq. intros [= <-]. exists a. set_solver.
    + rewrite lookup_insert_ne by done. intros (b & ? & ? & ?)%IH.
      exists b. set_solver.
Qed.

Lemma newMap_lookup_is_Some (l : list A) (k : string) :
  (∃ a, a ∈ l ∧ key a = k) → is_Some (newMap key val l !! k).
Proof.
  induction l as [|a l IH] using rev_ind.
  - intros (a & Ha & _). set_solver.
  - intros (b & Hb & Hk). rewrite newMap_snoc.
    destruct (decide (key a = k)) as [<-|Hne].
    + rewrite lookup_insert_eq. by eexists.
    + rewrite lookup_insert_ne by done. apply IH. exists b.
      apply elem_of_app in Hb as [Hb|Hb]; [done|].
      apply list_elem_of_singleton in Hb. congruence.
Qed.

Lemma newMap_lookup_NoDup (l : list A) (a : A) :
  NoDup (key <$> l) → a ∈ l → newMap key val l !! key a = Some (val a).
Proof.
  induction l as [|b l IH] using rev_ind; [set_solver|].
  rewrite fmap_app. intros [Hl [Hdisj _]]%NoDup_app Ha. rewrite newMap_snoc.
  apply elem_of_app in Ha as [Ha|Ha].
  - rewrite lookup_insert_ne; [by apply IH|].
    intros Heq. apply (Hdisj (key a)); [by apply list_elem_of_fmap_2|].
    rewrite <- Heq. set_solver.
  - apply list_elem_of_singleton in Ha as ->. by rewrite lookup_insert_eq.
Qed.
End NewMap.

Lemma elem_of_indexed {A} (l : list A) i a : (i, a) ∈ indexed l ↔ l !! i = Some a.
Proof.
  unfold indexed. rewrite elem_of_lookup_imap. split.
  - by intros (j & b & [= -> ->] & ?).
  - intros. by exists i, a.
Qed.

Lemma fmap_indexed {A B} (g : A → B) (l : list A) :
  (λ ia : nat * A, g ia.2) <$> indexed l = g <$> l.
Proof. unfold indexed. rewrite fmap_imap. exact (imap_const g l). Qed.

Lemma nodeById_Some (nodes : list SimNode) k i :
  nodeById nodes !! k = Some i → ∃ n, nodes !! i = Some n ∧ Node.id n = k.
Proof.
  unfold nodeById. intros ([j n] & Hin & Hk & Hv)%newMap_lookup_Some. simpl in *.
  subst. apply elem_of_indexed in Hin. eauto.
Qed.

Lemma nodeById_is_Some (nodes : list SimNode) k :
  k ∈ Node.id <$> nodes → is_Some (nodeById nodes !! k).
Proof.
  intros (n & -> & Hn)%list_elem_of_fmap. apply list_elem_of_lookup in Hn as [i Hi].
  unfold nodeById. apply newMap_lookup_is_Some. exists (i, n). split; [|done].
  by apply elem_of_indexed.
Qed.

Lemma nodeById_None (nodes : list SimNode) k :
  k ∉ Node.id <$> nodes → nodeById nodes !! k = None.
Proof.
  intros Hk. destruct (nodeById nodes !! k) as [i|] eqn:E; [|done].
  apply nodeById_Some in E as (n & Hn & <-). exfalso. apply Hk.
  apply list_elem_of_fmap. exists n. split; [done|]. by eapply list_elem_of_lookup_2.
Qed.

(** * The link set *)

Lemma linkFor_present (nodes : list SimNode) rel l :
  linkFor nodes rel l → bothPresent nodes rel.
Proof.
  intros (s & t & Hs & Ht & Hsid & Htid). unfold bothPresent.
  rewrite <- Hsid, <- Htid. split.
  - apply list_elem_of_fmap. exists s. split; [done|]. by eapply list_elem_of_lookup_2.
  - apply list_elem_of_fmap. exists t. split; [done|]. by eapply list_elem_of_lookup_2.
Qed.

Lemma userLinks_ends (cn : list SimNode) l :
  l ∈ userLinks cn →
  SimLink.source l = 0%nat ∧
  ∃ i n, SimLink.target l = S i ∧ cn !! i = Some n ∧
         Conn.degree <$> Node.connection n = Some 1%Z.
Proof.
  unfold userLinks. rewrite list_elem_of_omap. intros ([i n] & Hin & Hl).
  apply elem_of_indexed in Hin. cbn [fst snd] in Hl. case_decide; [|done].
  injection Hl as <-. split; [done|]. by exists i, n.
Qed.

Lemma explicitLinks_elem links (ns : list SimNode) l :
  l ∈ explicitLinks links ns ↔
  ∃ rel, rel ∈ links ∧
         nodeById ns !! Link.source rel = Some (SimLink.source l) ∧
         nodeById ns !! Link.target rel = Some (SimLink.target l).
Proof.
  unfold explicitLinks. rewrite list_elem_of_omap. split.
  - intros (rel & Hrel & Hl). exists rel. split; [done|].
    destruct (nodeById ns !! Link.source rel), (nodeById ns !! Link.target rel);
      try done. by injection Hl as <-.
  - intros (rel & Hrel & Hs & Ht). exists rel. split; [done|].
    rewrite Hs, Ht. by destruct l.
Qed.

Global Instance bothPresent_dec ns rel : Decision (bothPresent ns rel).
Proof. unfold bothPresent. apply _. Defined.

Lemma explicitLinks_length links (ns : list SimNode) :
  length (explicitLinks links ns) = length (filter (bothPresent ns) links).
Proof.
  unfold explicitLinks. induction links as [|rel links IH]; [done|].
  rewrite filter_cons. simpl.
  destruct (nodeById ns !! Link.source rel) as [s|] eqn:Es;
    [destruct (nodeById ns !! Link.target rel) as [t|] eqn:Et|].
  - rewrite decide_True; [simpl; f_equal; apply IH|].
    apply nodeById_Some in Es as (n1 & H1 & E1). apply nodeById_Some in Et as (n2 & H2 & E2).
    unfold bothPresent. rewrite <- E1, <- E2.
    split; apply list_elem_of_fmap; eexists; (split; [done|]); by eapply list_elem_of_lookup_2.
  - rewrite decide_False; [apply IH|]. intros [_ Ht].
    apply nodeById_is_Some in Ht as [? ?]. congruence.
  - rewrite decide_False; [apply IH|]. intros [Hs _].
    apply nodeById_is_Some in Hs as [? ?]. congruence.
Qed.

(** C6.  Drop on missing reference: a relation of the explicit list one of
    whose ids is the id of no node has no link in the built link set, a
    relation whose two ids are ids of nodes has one, every link points to
    node objects, and the explicit relations contribute exactly one link
    per relation with both ids present.  The build is a total function: it
    raises nothing. *)
Theorem drop_on_missing_reference (width height : num) (links : list Link.t)
    (connectionNodes : list SimNode) (rel : Link.t) :
  rel ∈ links →
  let ns := nodes width height connectionNodes in
  let built := simLinks width height links connectionNodes in
  (¬ bothPresent ns rel → ∀ l, l ∈ built → ¬ linkFor ns rel l) ∧
  (bothPresent ns rel → ∃ l, l ∈ built ∧ linkFor ns rel l) ∧
  (∀ l, l ∈ built →
        is_Some (ns !! SimLink.source l) ∧ is_Some (ns !! SimLink.target l)) ∧
  length built
  = (length (userLinks connectionNodes) + length (filter (bothPresent ns) links))%nat.
Proof.
  intros Hrel ns built. split; [|split; [|split]].
  - intros Hno l _ Hl. by apply Hno, linkFor_present with l.
  - intros [Hs Ht].
    apply nodeById_is_Some in Hs as [s Hs]. apply nodeById_is_Some in Ht as [t Ht].
    exists (SimLink.mk s t). split.
    + unfold built, simLinks. apply elem_of_app. right.
      apply explicitLinks_elem. by exists rel.
    + apply nodeById_Some in Hs as (n1 & ? & ?). apply nodeById_Some in Ht as (n2 & ? & ?).
      by exists n1, n2.
  - intros l [Hl|Hl]%elem_of_app.
    + apply userLinks_ends in Hl as (-> & i & n & -> & Hn & _).
      split; [by eexists|]. unfold ns, nodes. cbn. by eexists.
    + apply explicitLinks_elem in Hl as (r & _ & Hs & Ht).
      apply nodeById_Some in Hs as (? & ? & _). apply nodeById_Some in Ht as (? & ? & _).
      split; by eexists.
  - unfold built, simLinks. rewrite length_app. f_equal. apply explicitLinks_length.
Qed.

Lemma drop_on_missing_reference_witness :
  let cn := [Sample.leaf Sample.alice 520 300; Sample.leaf Sample.bob 620 300] in
  let links := [Link.mk "a" "b"; Link.mk "a" "ghost"] in
  let ns := nodes (Fin 800) (Fin 600) cn in
  let built := simLinks (Fin 800) (Fin 600) links cn in
  (∃ l, l ∈ built ∧ linkFor ns (Link.mk "a" "b") l) ∧
  (∀ l, l ∈ built → ¬ linkFor ns (Link.mk "a" "ghost") l).
Proof.
  cbn zeta. split.
  - apply (drop_on_missing_reference (Fin 800) (Fin 600) _ _ (Link.mk "a" "b")).
    + set_solver.
    + split; cbn; set_solver.
  - apply (drop_on_missing_reference (Fin 800) (Fin 600) _ _ (Link.mk "a" "ghost")).
    + set_solver.
    + intros [_ Ht]. cbn in Ht. set_solver.
Defined.

(** * Seeding the nodes *)

Lemma mapM_lookup {A B} (f : A → Rand B) (l : list A) draws k i a :
  l !! i = Some a →
  ∃ k', (mapM f l draws k).1 !! i = Some (f a draws k').1.
Proof.
  revert k i. induction l as [|b l IH]; intros k i Hi; [done|].
  cbn [mapM]. unfold bind at 1.
  destruct (f b draws k) as [b' k1] eqn:Hb.
  unfold bind at 1. destruct (mapM f l draws k1) as [bs k2] eqn:Hbs. cbn.
  destruct i as [|i]; simpl in *.
  - injection Hi as ->. exists k. by rewrite Hb.
  - destruct (IH k1 i Hi) as [k' Hk']. exists k'. by rewrite Hbs in Hk'.
Qed.

Lemma mapM_length {A B} (f : A → Rand B) (l : list A) draws k :
  length (mapM f l draws k).1 = length l.
Proof.
  revert k. induction l as [|b l IH]; intros k; [done|].
  cbn [mapM]. unfold bind at 1. destruct (f b draws k) as [b' k1].
  unfold bind at 1. specialize (IH k1). destruct (mapM f l draws k1) as [bs k2].
  cbn in *. by rewrite IH.
Qed.

Lemma mapM_Forall {A B} (P : B → Prop) (f : A → Rand B) (l : list A) draws k :
  (∀ a k', P (f a draws k').1) → Forall P (mapM f l draws k).1.
Proof.
  intros Hf. apply Forall_lookup. intros i b Hb.
  assert (i < length l)%nat as Hi.
  { rewrite <- (mapM_length f l draws k). by eapply lookup_lt_Some. }
  apply lookup_lt_is_Some in Hi as [a Ha].
  destruct (mapM_lookup f l draws k i a Ha) as [k' Hk']. simplify_eq. apply Hf.
Qed.

Lemma connectionNode_fst width height conns store conn draws k :
  (connectionNode width height conns store conn draws k).1 =
  let angle := (seedAngle conns conn draws k).1 in
  let radius := seedRadius (Conn.degree conn) in
  let savedPos := store !! Conn.id conn in
  {| Node.id := Conn.id conn; Node.isUser := false;
     Node.connection := Some conn;
     Node.x := Some (nullish (fst <$> savedPos)
                       (centerX width + Math_cos angle * radius)%js);
     Node.y := Some (nullish (snd <$> savedPos)
                       (centerY height + Math_sin angle * radius)%js);
     Node.vx := None; Node.vy := None;
     Node.fx := None; Node.fy := None |}.
Proof.
  unfold connectionNode, bind. by destruct (seedAngle _ _ _ _).
Qed.

(** The node built for the connection of rank [i]. *)
Lemma connectionNodes_seed (width height : num) (conns : list ConnectionNode)
    (store : PositionStore) (draws : nat → R) (k i : nat) (conn : ConnectionNode) :
  conns !! i = Some conn →
  ∃ node k',
    (connectionNodes width height conns store draws k).1 !! i = Some node ∧
    Node.id node = Conn.id conn ∧
    match store !! Conn.id conn with
    | Some saved => Node.x node = Some saved.1 ∧ Node.y node = Some saved.2
    | None =>
        let angle := (seedAngle conns conn draws k').1 in
        let radius := seedRadius (Conn.degree conn) in
        Node.x node = Some (centerX width + Math_cos angle * radius)%js ∧
        Node.y node = Some (centerY height + Math_sin angle * radius)%js
    end.
Proof.
  intros Hi. unfold connectionNodes.
  destruct (mapM_lookup (connectionNode width height conns store) conns draws k i conn Hi)
    as [k' Hk'].
  eexists _, k'. split; [exact Hk'|]. rewrite connectionNode_fst. cbn.
  split; [done|]. by destruct (store !! Conn.id conn) as [[px py]|].
Qed.

(** C2.  Idempotent rebuild: the node built for a connection whose id has a
    saved position starts exactly at the saved [(x, y)]; the position
    computed from the seed angle and the seed radius is used only when the
    store has no entry for the id. *)
Theorem idempotent_rebuild (width height : num) (conns : list ConnectionNode)
    (store : PositionStore) (draws : nat → R) (k i : nat) (conn : ConnectionNode) :
  conns !! i = Some conn →
  ∃ node k',
    (connectionNodes width height conns store draws k).1 !! i = Some node ∧
    Node.id node = Conn.id conn ∧
    match store !! Conn.id conn with
    | Some saved => Node.x node = Some saved.1 ∧ Node.y node = Some saved.2
    | None =>
        let angle := (seedAngle conns conn draws k').1 in
        let radius := seedRadius (Conn.degree conn) in
        Node.x node = Some (centerX width + Math_cos angle * radius)%js ∧
        Node.y node = Some (centerY height + Math_sin angle * radius)%js
    end.
Proof.
  intros Hi. unfold connectionNodes.
  destruct (mapM_lookup (connectionNode width height conns store) conns draws k i conn Hi)
    as [k' Hk'].
  exists (connectionNode width height conns store conn draws k').1, k'.
  split; [exact Hk'|]. rewrite connectionNode_fst. cbn.
  split; [reflexivity|]. by destruct (store !! Conn.id conn) as [[px py]|].
Qed.

Lemma idempotent_rebuild_witness :
  let store : PositionStore := {[ "a"%string := (Fin 410, Fin 275) ]} in
  ∃ node,
    (connectionNodes (Fin 800) (Fin 600) [Sample.alice] store Sample.half 0%nat).1 !! 0%nat
    = Some node ∧
    Node.x node = Some (Fin 410) ∧ Node.y node = Some (Fin 275).
Proof.
  cbn zeta.
  destruct (idempotent_rebuild (Fin 800) (Fin 600) [Sample.alice]
              {[ "a"%string := (Fin 410, Fin 275) ]} Sample.half 0%nat 0%nat Sample.alice
              eq_refl) as (node & k' & Hnode & _ & Hpos).
  exists node. split; [exact Hnode|].
  change (Conn.id Sample.alice) with "a"%string in Hpos.
  rewrite lookup_singleton_eq in Hpos. exact Hpos.
Defined.

(** ** The angle of a first-degree node *)

Lemma firstDegree_degree conns i c :
  firstDegree conns !! i = Some c → Conn.degree c = 1%Z.
Proof.
  intros Hi. apply list_elem_of_lookup_2 in Hi. unfold firstDegree in Hi.
  by apply list_elem_of_filter in Hi as [? _].
Qed.

Lemma angleByFirstDegree_lookup (conns : list ConnectionNode) i c :
  NoDup (Conn.id <$> firstDegree conns) →
  firstDegree conns !! i = Some c →
  angleByFirstDegree conns !! Conn.id c
  = Some (Fin (evenAngle i (length (firstDegree conns)))).
Proof.
  intros Hnd Hi. unfold angleByFirstDegree.
  assert (Hlen : INR (length (firstDegree conns)) ≠ 0).
  { apply not_0_INR. apply lookup_lt_Some in Hi. lia. }
  rewrite (newMap_lookup_NoDup (λ ic : nat * ConnectionNode, Conn.id ic.2) _ _ (i, c)).
  - cbn [fst snd]. rewrite div_fin by done. reflexivity.
  - by rewrite (fmap_indexed Conn.id).
  - by apply elem_of_indexed.
Qed.

Lemma evenAngle_zero n : evenAngle 0 n = 0.
Proof. unfold evenAngle. cbn [INR]. lra. Qed.

Lemma evenAngle_pos i n : (0 < i)%nat → (0 < n)%nat → 0 < evenAngle i n.
Proof.
  intros Hi Hn. unfold evenAngle.
  assert (0 < INR i) by (apply lt_0_INR; lia).
  assert (0 < INR n) by (apply lt_0_INR; lia).
  assert (0 < INR i / INR n) by (by apply Rdiv_lt_0_compat).
  pose proof PI_RGT_0. nra.
Qed.

(** Every first-degree node but the first gets its evenly spaced angle, and
    no number is drawn for it. *)
Lemma seedAngle_ring1_later (conns : list ConnectionNode) i c draws k :
  NoDup (Conn.id <$> firstDegree conns) →
  firstDegree conns !! i = Some c → (0 < i)%nat →
  seedAngle conns c draws k = (Fin (evenAngle i (length (firstDegree conns))), k).
Proof.
  intros Hnd Hi Hpos. unfold seedAngle.
  rewrite decide_True by by eapply firstDegree_degree.
  rewrite (angleByFirstDegree_lookup conns i c Hnd Hi).
  rewrite truthy_fin_true; [done|].
  apply lookup_lt_Some in Hi.
  assert (0 < evenAngle i (length (firstDegree conns))) by (apply evenAngle_pos; lia).
  lra.
Qed.

(** The first first-degree node has the angle 0 in the table; 0 is falsy,
    and the node gets a random angle. *)
Lemma seedAngle_ring1_first (conns : list ConnectionNode) c draws k :
  NoDup (Conn.id <$> firstDegree conns) →
  firstDegree conns !! 0%nat = Some c →
  seedAngle conns c draws k = ((Fin (draws k) * Math_PI * Fin 2)%js, S k).
Proof.
  intros Hnd Hi. unfold seedAngle.
  rewrite decide_True by by eapply firstDegree_degree.
  rewrite (angleByFirstDegree_lookup conns 0 c Hnd Hi).
  rewrite truthy_fin_zero by apply evenAngle_zero. reflexivity.
Qed.

(** C3.  The code at a failing input: a collection with one first-degree
    connection, no saved position, and a draw of 1/2.  The node has index 0
    among the first-degree nodes, its evenly spaced angle is [2π·0/1 = 0],
    but the angle used is [π]: the node is seeded at the left of the centre,
    at x = 280, not at x = 520. *)
Theorem ring1_index0_not_evenly_spaced :
  let conns := [Sample.alice] in
  firstDegree conns !! 0%nat = Some Sample.alice ∧
  (seedAngle conns Sample.alice Sample.half 0%nat).1 = Fin PI ∧
  Fin PI ≠ Fin (evenAngle 0 (length (firstDegree conns))) ∧
  ∃ node,
    (connectionNodes (Fin 800) (Fin 600) conns ∅ Sample.half 0%nat).1 = [node] ∧
    Node.x node = Some (Fin 280) ∧
    Some (centerX (Fin 800) + Math_cos (Fin (evenAngle 0 1)) * seedRadius 1)%js
    = Some (Fin 520).
Proof.
  cbn zeta. split; [reflexivity|].
  assert (Ha : seedAngle [Sample.alice] Sample.alice Sample.half 0%nat = (Fin PI, 1%nat)).
  { rewrite seedAngle_ring1_first; [| repeat constructor; set_solver | reflexivity].
    unfold Sample.half. cbn. do 2 f_equal. lra. }
  split; [by rewrite Ha|]. split.
  { rewrite evenAngle_zero. intros [= H]. pose proof PI_RGT_0. lra. }
  eexists. split; [|split].
  - unfold connectionNodes. cbn [mapM]. unfold bind at 1, connectionNode, bind at 1.
    rewrite Ha. cbn. reflexivity.
  - cbn. rewrite lookup_empty, cos_PI. js_cases. cbn. do 2 f_equal. lra.
  - rewrite evenAngle_zero, centerX_fin. cbn. rewrite cos_0. js_cases. cbn.
    do 2 f_equal. lra.
Qed.

(** * The radial force *)

Lemma add_NaN_r (a : num) : (a + NaN)%js = NaN.
Proof. by destruct a. Qed.

Lemma mul_NaN_r (a : num) : (a * NaN)%js = NaN.
Proof. by destruct a. Qed.

Lemma mul_NaN_l (a : num) : (NaN * a)%js = NaN.
Proof. by destruct a. Qed.

Lemma sub_NaN_l (a : num) : (NaN - a)%js = NaN.
Proof. by destruct a. Qed.

(** Without an entry in the ring table, the push is NaN on both axes,
    wherever the node is. *)
Lemma radialPush_undefined width height alpha x y :
  radialPush width height alpha None x y = (NaN, NaN).
Proof.
  unfold radialPush. cbn [toNumber]. rewrite sub_NaN_l.
  by rewrite !mul_NaN_r, !mul_NaN_l.
Qed.

Lemma degreeRadius_unknown width height degree :
  ¬ (1 ≤ degree ≤ 3)%Z → degreeRadius width height degree = None.
Proof.
  intros Hd. unfold degreeRadius.
  destruct degree as [|p|p]; try done.
  destruct p as [[p|p|]|[p|p|]|]; try done; lia.
Qed.

Lemma seedRadius_unknown degree :
  ¬ (1 ≤ degree ≤ 3)%Z → seedRadius degree = Fin 150.
Proof.
  intros Hd. unfold seedRadius, degreeRadius_seed.
  destruct degree as [|p|p]; try done.
  destruct p as [[p|p|]|[p|p|]|]; try done; lia.
Qed.

(** A node of unknown degree leaves the radial force with NaN velocities. *)
Lemma radialForceNode_unknown width height alpha node c x y :
  Node.connection node = Some c → Node.x node = Some x → Node.y node = Some y →
  ¬ (1 ≤ Conn.degree c ≤ 3)%Z →
  Node.vx (radialForceNode width height alpha node) = Some NaN ∧
  Node.vy (radialForceNode width height alpha node) = Some NaN.
Proof.
  intros Hc Hx Hy Hd. unfold radialForceNode. rewrite Hc, Hx, Hy.
  rewrite degreeRadius_unknown by done. rewrite radialPush_undefined.
  cbn. by rewrite !add_NaN_r.
Qed.

(** C7.  The code at a failing input: a connection of degree 4, at the
    finite position (403, 304) of an 800 x 600 viewport.  Seeding uses the
    fallback radius 150, but the ring table of the radial force has no entry
    and no fallback: the target radius is undefined (the ring-2 radius would
    be 144), the force writes NaN velocities, and the tick that follows
    moves the node to NaN. *)
Theorem unknown_degree_radial_force_is_NaN :
  let node := Sample.leaf Sample.dana 403 304 in
  let forced := radialForceNode (Fin 800) (Fin 600) (Fin 0.3) node in
  seedRadius 4 = Fin 150 ∧
  degreeRadius (Fin 800) (Fin 600) 4 = None ∧
  degreeRadius (Fin 800) (Fin 600) 2 = Some (Fin 144) ∧
  Node.vx forced = Some NaN ∧ Node.vy forced = Some NaN ∧
  Node.x (D3.move (Fin 0.6) forced) = Some NaN ∧
  Node.y (D3.move (Fin 0.6) forced) = Some NaN.
Proof.
  cbn zeta. split; [apply seedRadius_unknown; lia|]. split; [reflexivity|]. split.
  { unfold degreeRadius. rewrite maxRadius_fin, Rmin_800_600. cbn. do 2 f_equal. lra. }
  destruct (radialForceNode_unknown (Fin 800) (Fin 600) (Fin 0.3)
              (Sample.leaf Sample.dana 403 304) Sample.dana (Fin 403) (Fin 304))
    as [Hvx Hvy]; [done | done | done | cbn; lia |].
  split; [done|]. split; [done|].
  unfold D3.move. rewrite Hvx, Hvy. cbn. done.
Qed.

Lemma sum_squares_nonneg (a b : R) : 0 <= a * a + b * b.
Proof. nra. Qed.

Lemma radialDist_fin (dx dy : R) :
  ∃ d : R,
    radialDist (Fin dx) (Fin dy) = Fin d ∧ d ≠ 0 ∧
    (sqrt (dx * dx + dy * dy) = 0 → d = 1) ∧
    (sqrt (dx * dx + dy * dy) ≠ 0 → d = sqrt (dx * dx + dy * dy)).
Proof.
  unfold radialDist. rewrite mul_fin, mul_fin, add_fin.
  rewrite sqrt_fin by apply sum_squares_nonneg. cbn [JS.or truthy].
  destruct (Req_dec_T (sqrt (dx * dx + dy * dy)) 0) as [Hz|Hnz].
  - exists 1. split; [done|]. split; [lra|]. split; [done|]. intros; contradiction.
  - exists (sqrt (dx * dx + dy * dy)). split; [done|]. split; [done|].
    split; [intros; contradiction | done].
Qed.

(** The claim of C8 as it is stated fails on a node of unknown degree: its
    position is finite, and the push is not. *)
Lemma finite_position_push_not_finite :
  let push := radialPush (Fin 800) (Fin 600) (Fin 0.3)
                (degreeRadius (Fin 800) (Fin 600) (Conn.degree Sample.dana))
                (Fin 403) (Fin 304) in
  isFinite (Fin 403) = true ∧ isFinite (Fin 304) = true ∧
  isFinite push.1 = false ∧ isFinite push.2 = false.
Proof.
  cbn zeta. change (degreeRadius _ _ _) with (@None num).
  by rewrite radialPush_undefined.
Qed.

Lemma radialDist_bounds (B dx dy : R) :
  1 <= B → -2 * B <= dx <= 2 * B → -2 * B <= dy <= 2 * B →
  ∃ d : R,
    radialDist (Fin dx) (Fin dy) = Fin d ∧ 0 < d <= 3 * B ∧
    (d = 1 ∨ d = sqrt (dx * dx + dy * dy)) ∧
    (dx = 0 → dy = 0 → d = 1) ∧
    dx * dx + dy * dy <= 8 * (B * B) ∧
    -1 <= dx / d <= 1 ∧ -1 <= dy / d <= 1.
Proof.
  intros HB Hdx Hdy.
  destruct (radialDist_fin dx dy) as (d & Hd & Hnz & Hzero & Hpos).
  pose proof (sum_squares_nonneg dx dy) as Hs.
  assert (Hsum : dx * dx + dy * dy <= 8 * (B * B)) by nra.
  exists d. split; [done|].
  destruct (Req_dec_T (sqrt (dx * dx + dy * dy)) 0) as [Hz|Hn].
  - specialize (Hzero Hz). subst d.
    assert (Hs0 : dx * dx + dy * dy = 0) by by apply sqrt_eq_0.
    assert (dx = 0) by nra. assert (dy = 0) by nra. subst dx dy.
    split; [lra|]. split; [by left|]. split; [done|]. split; [done|].
    unfold Rdiv. rewrite Rmult_0_l. lra.
  - specialize (Hpos Hn). set (s := dx * dx + dy * dy) in *.
    assert (Hsq : d * d = s) by (rewrite Hpos; by apply sqrt_sqrt).
    assert (Hdpos : 0 < d).
    { pose proof (sqrt_pos s). rewrite <- Hpos in *. lra. }
    split; [split; [done | nra]|]. split; [by right|].
    split.
    { intros -> ->. exfalso. apply Hn. unfold s.
      replace (0 * 0 + 0 * 0) with 0 by ring. apply sqrt_0. }
    split; [done|].
    assert (Hx : -d <= dx <= d) by (unfold s in Hsq; nra).
    assert (Hy : -d <= dy <= d) by (unfold s in Hsq; nra).
    split; split.
    + apply Rmult_le_reg_r with d; [done|]. unfold Rdiv.
      rewrite Rmult_assoc, Rinv_l by lra. lra.
    + apply Rmult_le_reg_r with d; [done|]. unfold Rdiv.
      rewrite Rmult_assoc, Rinv_l by lra. lra.
    + apply Rmult_le_reg_r with d; [done|]. unfold Rdiv.
      rewrite Rmult_assoc, Rinv_l by lra. lra.
    + apply Rmult_le_reg_r with d; [done|]. unfold Rdiv.
      rewrite Rmult_assoc, Rinv_l by lra. lra.
Qed.

Lemma degreeRadius_bounds (B w h : R) (degree : Z) :
  (1 ≤ degree ≤ 3)%Z → 1 <= B → -B <= w <= B → -B <= h <= B →
  ∃ t : R, degreeRadius (Fin w) (Fin h) degree = Some (Fin t) ∧
           -(B + 60) <= t <= B + 60.
Proof.
  intros Hdeg HB Hw Hh.
  assert (Hm : -B <= Rmin w h <= B).
  { unfold Rmin. destruct (Rle_dec w h); lra. }
  assert (degree = 1 ∨ degree = 2 ∨ degree = 3)%Z as [-> | [-> | ->]] by lia;
    unfold degreeRadius; rewrite maxRadius_fin; cbn [JS.mul];
    (eexists; split; [reflexivity | lra]).
Qed.

(** C8, amended.  For a node whose degree is 1, 2 or 3, when the
    coordinates of the node and the dimensions of the viewport are at most
    [B] in magnitude, for some [B] between 1 and [10^100], and [alpha] is
    at most 1 in magnitude: the divisor of the radial force is positive, it
    is the distance to the centre, or 1 when that distance is zero; no
    intermediate result of the computation exceeds [8·B²] in magnitude, so
    nothing overflows; and the two velocity increments are finite, at most
    [2·B + 60] in magnitude. *)
Theorem radial_force_zero_guard (B w h alpha x y : R) (degree : Z) :
  (1 ≤ degree ≤ 3)%Z →
  1 <= B <= 10 ^ 100 →
  -B <= w <= B → -B <= h <= B → -B <= x <= B → -B <= y <= B →
  -1 <= alpha <= 1 →
  let dx := x - w / 2 in
  let dy := y - h / 2 in
  ∃ d t px py : R,
    radialDist (Fin x - centerX (Fin w))%js (Fin y - centerY (Fin h))%js = Fin d ∧
    0 < d <= 3 * B ∧
    (d = 1 ∨ d = sqrt (dx * dx + dy * dy)) ∧
    (dx = 0 → dy = 0 → d = 1) ∧
    -2 * B <= dx <= 2 * B ∧ -2 * B <= dy <= 2 * B ∧
    dx * dx + dy * dy <= 8 * (B * B) ∧
    -2 <= dx / d <= 2 ∧ -2 <= dy / d <= 2 ∧
    degreeRadius (Fin w) (Fin h) degree = Some (Fin t) ∧
    -(B + 60) <= t <= B + 60 ∧
    -(4 * B + 60) <= t - d <= 4 * B + 60 ∧
    radialPush (Fin w) (Fin h) (Fin alpha) (degreeRadius (Fin w) (Fin h) degree)
               (Fin x) (Fin y)
    = (Fin px, Fin py) ∧
    px = dx / d * (t - d) * (alpha * 0.15) ∧
    py = dy / d * (t - d) * (alpha * 0.15) ∧
    -(2 * B + 60) <= px <= 2 * B + 60 ∧
    -(2 * B + 60) <= py <= 2 * B + 60.
Proof.
  intros Hdeg [HB _] Hw Hh Hx Hy Halpha dx dy.
  rewrite centerX_fin, centerY_fin, !sub_fin. fold dx dy.
  assert (Hdx : -2 * B <= dx <= 2 * B) by (unfold dx; lra).
  assert (Hdy : -2 * B <= dy <= 2 * B) by (unfold dy; lra).
  destruct (radialDist_bounds B dx dy HB Hdx Hdy)
    as (d & Hd & Hdb & Hor & Hzero & Hsum & Hqx & Hqy).
  destruct (degreeRadius_bounds B w h degree Hdeg HB Hw Hh) as (t & Ht & Htb).
  exists d, t, (dx / d * (t - d) * (alpha * 0.15)),
    (dy / d * (t - d) * (alpha * 0.15)).
  split; [done|]. split; [done|]. split; [done|]. split; [done|].
  split; [done|]. split; [done|]. split; [done|].
  split; [lra|]. split; [lra|]. split; [done|]. split; [done|].
  assert (Htd : -(4 * B + 60) <= t - d <= 4 * B + 60) by lra.
  split; [done|]. split.
  { unfold radialPush. rewrite centerX_fin, centerY_fin, !sub_fin. fold dx dy.
    rewrite Hd, Ht. cbn [toNumber]. rewrite !div_fin by lra.
    by rewrite !sub_fin, !mul_fin. }
  split; [done|]. split; [done|].
  set (qx := dx / d) in *. set (qy := dy / d) in *. set (e := t - d) in *.
  set (a := alpha * 0.15).
  assert (Ha : -0.15 <= a <= 0.15) by (unfold a; lra).
  assert (Hex : -(4 * B + 60) <= qx * e <= 4 * B + 60) by nra.
  assert (Hey : -(4 * B + 60) <= qy * e <= 4 * B + 60) by nra.
  split; nra.
Qed.

Lemma radial_force_zero_guard_witness :
  ∃ d t px py : R,
    radialDist (Fin 400 - centerX (Fin 800))%js (Fin 300 - centerY (Fin 600))%js = Fin d ∧
    0 < d <= 3 * 1000 ∧
    (d = 1 ∨
     d = sqrt ((400 - 800 / 2) * (400 - 800 / 2) + (300 - 600 / 2) * (300 - 600 / 2))) ∧
    (400 - 800 / 2 = 0 → 300 - 600 / 2 = 0 → d = 1) ∧
    -2 * 1000 <= 400 - 800 / 2 <= 2 * 1000 ∧ -2 * 1000 <= 300 - 600 / 2 <= 2 * 1000 ∧
    (400 - 800 / 2) * (400 - 800 / 2) + (300 - 600 / 2) * (300 - 600 / 2)
      <= 8 * (1000 * 1000) ∧
    -2 <= (400 - 800 / 2) / d <= 2 ∧ -2 <= (300 - 600 / 2) / d <= 2 ∧
    degreeRadius (Fin 800) (Fin 600) 1 = Some (Fin t) ∧
    -(1000 + 60) <= t <= 1000 + 60 ∧
    -(4 * 1000 + 60) <= t - d <= 4 * 1000 + 60 ∧
    radialPush (Fin 800) (Fin 600) (Fin 0.3) (degreeRadius (Fin 800) (Fin 600) 1)
               (Fin 400) (Fin 300)
    = (Fin px, Fin py) ∧
    px = (400 - 800 / 2) / d * (t - d) * (0.3 * 0.15) ∧
    py = (300 - 600 / 2) / d * (t - d) * (0.3 * 0.15) ∧
    -(2 * 1000 + 60) <= px <= 2 * 1000 + 60 ∧
    -(2 * 1000 + 60) <= py <= 2 * 1000 + 60.
Proof.
  apply (radial_force_zero_guard 1000 800 600 0.3 400 300 1).
  - lia.
  - split; [lra|]. replace 1000 with (10 ^ 3) by (simpl; lra).
    apply Rle_pow; [lra | lia].
  - lra.
  - lra.
  - lra.
  - lra.
  - lra.
Defined.

(** * Invariants of the running view *)

Lemma keeps_refl n : keeps n n.
Proof. by split. Qed.

Lemma keeps_trans n1 n2 n3 : keeps n1 n2 → keeps n2 n3 → keeps n1 n3.
Proof.
  intros [Hs1 Hp1] [Hs2 Hp2]. split; [congruence|]. intros Hu.
  assert (Node.isUser n2 = true) as Hu2.
  { unfold static in Hs1. congruence. }
  destruct (Hp1 Hu), (Hp2 Hu2). split; congruence.
Qed.

Lemma frame_keeps n n' : frame n n' → keeps n n'.
Proof. intros (? & ? & ? & ? & ?). by split. Qed.

Lemma frame_refl n : frame n n.
Proof. by repeat split. Qed.

Lemma frame_trans n1 n2 n3 : frame n1 n2 → frame n2 n3 → frame n1 n3.
Proof. intros (? & ? & ? & ? & ?) (? & ? & ? & ? & ?). repeat split; congruence. Qed.

Lemma frame_with_v n vx vy : frame n (Node.with_v n vx vy).
Proof. by repeat split. Qed.

Lemma Forall2_keeps_trans l1 l2 l3 :
  Forall2 keeps l1 l2 → Forall2 keeps l2 l3 → Forall2 keeps l1 l3.
Proof.
  intros H12. revert l3. induction H12; intros l3 H23; inversion H23; subst;
    constructor; eauto using keeps_trans.
Qed.

Lemma Forall2_frame_trans l1 l2 l3 :
  Forall2 frame l1 l2 → Forall2 frame l2 l3 → Forall2 frame l1 l3.
Proof.
  intros H12. revert l3. induction H12; intros l3 H23; inversion H23; subst;
    constructor; eauto using frame_trans.
Qed.

Lemma Forall2_imap_r {A B} (R : A → B → Prop) (g : nat → A → B) (l : list A) :
  (∀ i a, R a (g i a)) → Forall2 R l (imap g l).
Proof.
  revert g. induction l as [|a l IH]; intros g Hg; cbn; constructor; [done|].
  apply IH. intros i b. apply Hg.
Qed.

Lemma Forall2_map_r {A B} (R : A → B → Prop) (g : A → B) (l : list A) :
  (∀ a, R a (g a)) → Forall2 R l (map g l).
Proof. intros Hg. induction l; cbn; constructor; auto. Qed.

(** *** The forces write velocities only *)

Lemma builtin_frame f alpha ns : Forall2 frame ns (D3.builtin f alpha ns).
Proof. unfold D3.builtin. apply Forall2_imap_r. intros. apply frame_with_v. Qed.

Lemma radialForceNode_frame w h alpha n : frame n (radialForceNode w h alpha n).
Proof.
  unfold radialForceNode.
  destruct (Node.connection n), (Node.x n), (Node.y n);
    auto using frame_refl, frame_with_v.
Qed.

Lemma radialForce_frame w h alpha ns : Forall2 frame ns (radialForce w h alpha ns).
Proof.
  destruct ns as [|u cn]; cbn; constructor; [apply frame_refl|].
  apply Forall2_map_r. intros. apply radialForceNode_frame.
Qed.

Lemma radialForce_head w h alpha u cn :
  radialForce w h alpha (u :: cn) !! 0%nat = Some u.
Proof. done. Qed.

Section Invariants.
Context (width height : num) (forceLink : list SimLink.t → D3.VelocityField)
        (forceManyBody forceCollide : D3.VelocityField) (simLinks : list SimLink.t).

Let cfg := config width height forceLink forceManyBody forceCollide simLinks.

Lemma forces_frame alpha ns :
  Forall2 frame ns (foldl (λ nodes force, force alpha nodes) ns (D3.forces cfg)).
Proof.
  cbn.
  eapply Forall2_frame_trans; [| apply builtin_frame].
  eapply Forall2_frame_trans; [| apply builtin_frame].
  eapply Forall2_frame_trans; [| apply builtin_frame].
  apply radialForce_frame.
Qed.

Lemma move_keeps vd n :
  static (D3.move vd n) = static n ∧
  Node.fx (D3.move vd n) = Node.fx n ∧ Node.fy (D3.move vd n) = Node.fy n.
Proof. by destruct n as [i u c x y vx vy [fx|] [fy|]]. Qed.

Lemma move_pinned vd n : pinned (D3.move vd n) ∧ placed (D3.move vd n).
Proof.
  unfold D3.move, pinned, placed.
  destruct n as [i u c x y vx vy [fx|] [fy|]]; cbn;
    repeat split; intros; simplify_eq; eauto.
Qed.

Lemma tick1_keeps s : Forall2 keeps (D3.nodes s) (D3.nodes (D3.tick1 cfg s)).
Proof.
  unfold D3.tick1. cbn [D3.nodes].
  eapply Forall2_keeps_trans.
  - eapply Forall2_impl; [apply forces_frame | apply frame_keeps].
  - apply Forall2_map_r. intros n. destruct (move_keeps (D3.velocityDecay cfg) n) as (? & ? & ?).
    by split.
Qed.

Lemma tick1_pinned s :
  Forall (λ n, pinned n ∧ placed n) (D3.nodes (D3.tick1 cfg s)).
Proof.
  unfold D3.tick1. cbn [D3.nodes]. apply list.Forall_forall. intros n Hn.
  apply list_elem_of_fmap in Hn as (m & -> & _). apply move_pinned.
Qed.

Lemma tick1_ok s : Forall ok (D3.nodes (D3.tick1 cfg s)).
Proof. eapply Forall_impl; [apply tick1_pinned|]. intros n [? ?]. by split. Qed.

Lemma tick_keeps k s : Forall2 keeps (D3.nodes s) (D3.nodes (D3.tick cfg k s)).
Proof.
  revert s. induction k as [|k IH]; intros s; cbn.
  - apply Forall2_same_length_lookup_2; [done|]. intros i n n' H1 H2. simplify_eq. apply keeps_refl.
  - eapply Forall2_keeps_trans; [apply tick1_keeps | apply IH].
Qed.

Lemma tick_ok k s :
  Forall ok (D3.nodes s) → Forall ok (D3.nodes (D3.tick cfg k s)).
Proof.
  revert s. induction k as [|k IH]; intros s Hs; cbn; [done|].
  apply IH, tick1_ok.
Qed.

Lemma tick_S_ok k s : Forall ok (D3.nodes (D3.tick cfg (S k) s)).
Proof. cbn. apply tick_ok, tick1_ok. Qed.
End Invariants.

Lemma initializeNode_keeps i n : keeps n (D3.initializeNode i n).
Proof. by split. Qed.

Lemma forceSimulation_keeps ns :
  Forall2 keeps ns (D3.nodes (D3.forceSimulation ns)).
Proof. cbn. apply Forall2_imap_r. intros. apply initializeNode_keeps. Qed.

Lemma Forall2_keeps_refl ns : Forall2 keeps ns ns.
Proof. induction ns; constructor; auto using keeps_refl. Qed.

(** *** The drag handlers leave a user node alone *)

Lemma update_node_keeps d f s s' :
  (∀ n, Node.isUser n = false → static (f n) = static n) →
  D3.nodes s' = D3.nodes s →
  is_user d s = false →
  Forall2 keeps (D3.nodes s) (D3.nodes (update_node d f s')).
Proof.
  intros Hf Hs Hu. unfold update_node, is_user in *. rewrite Hs.
  destruct (D3.nodes s !! d) as [n|] eqn:Hd; [|rewrite Hs; apply Forall2_keeps_refl].
  cbn. apply Forall2_same_length_lookup_2; [by rewrite length_insert|].
  intros i a b Ha Hb. destruct (decide (i = d)) as [->|Hne].
  - rewrite list_lookup_insert_eq in Hb by (by eapply lookup_lt_Some). simplify_eq.
    split; [by apply Hf|]. congruence.
  - rewrite list_lookup_insert_ne in Hb by done. simplify_eq. apply keeps_refl.
Qed.

Lemma update_node_ok d f s s' :
  (∀ n, Node.isUser n = false → ok n → ok (f n)) →
  D3.nodes s' = D3.nodes s →
  is_user d s = false →
  Forall ok (D3.nodes s) → Forall ok (D3.nodes (update_node d f s')).
Proof.
  intros Hf Hs Hu Hok. unfold update_node, is_user in *. rewrite Hs.
  destruct (D3.nodes s !! d) as [n|] eqn:Hd; [|by rewrite Hs].
  cbn. apply Forall_insert; [done|]. apply Hf; [done|].
  eapply Forall_lookup_1; eauto.
Qed.

Lemma with_pin_ok n fx fy : Node.isUser n = false → ok n → ok (Node.with_pin n fx fy).
Proof. intros Hu [Hp _]. split; [done|]. cbn. congruence. Qed.

Lemma dragstarted_keeps d active s :
  Forall2 keeps (D3.nodes s) (D3.nodes (dragstarted d active s)) ∧
  (Forall ok (D3.nodes s) → Forall ok (D3.nodes (dragstarted d active s))).
Proof.
  unfold dragstarted. destruct (is_user d s) eqn:Hu; [split; [apply Forall2_keeps_refl|done]|].
  split.
  - destruct (decide (active = 0%nat)); by apply update_node_keeps.
  - destruct (decide (active = 0%nat)); by apply update_node_ok; auto using with_pin_ok.
Qed.

Lemma dragged_keeps d x y s :
  Forall2 keeps (D3.nodes s) (D3.nodes (dragged d x y s)) ∧
  (Forall ok (D3.nodes s) → Forall ok (D3.nodes (dragged d x y s))).
Proof.
  unfold dragged. destruct (is_user d s) eqn:Hu; [split; [apply Forall2_keeps_refl|done]|].
  split; [by apply update_node_keeps | by apply update_node_ok; auto using with_pin_ok].
Qed.

Lemma dragended_keeps d active s :
  Forall2 keeps (D3.nodes s) (D3.nodes (dragended d active s)) ∧
  (Forall ok (D3.nodes s) → Forall ok (D3.nodes (dragended d active s))).
Proof.
  unfold dragended. destruct (is_user d s) eqn:Hu; [split; [apply Forall2_keeps_refl|done]|].
  split.
  - destruct (decide (active = 0%nat)); by apply update_node_keeps.
  - destruct (decide (active = 0%nat)); by apply update_node_ok; auto using with_pin_ok.
Qed.

Section Running.
Context (width height : num) (forceLink : list SimLink.t → D3.VelocityField)
        (forceManyBody forceCollide : D3.VelocityField) (simLinks : list SimLink.t).

Let cfg := config width height forceLink forceManyBody forceCollide simLinks.
Let step := step width height forceLink forceManyBody forceCollide simLinks.
Let handle := handle width height forceLink forceManyBody forceCollide simLinks.
Let run := run width height forceLink forceManyBody forceCollide simLinks.

Lemma settle_nodes s : D3.nodes (D3.settle cfg s) = D3.nodes s.
Proof. unfold D3.settle. by destruct (ltb _ _). Qed.

Lemma step_nodes v : D3.nodes (sim (step v)) = D3.nodes (D3.tick1 cfg (sim v)).
Proof. unfold step, GraphCanvas.step. cbn [sim]. apply settle_nodes. Qed.

Lemma handle_keeps e v :
  Forall2 keeps (D3.nodes (sim v)) (D3.nodes (sim (handle e v))) ∧
  (Forall ok (D3.nodes (sim v)) → Forall ok (D3.nodes (sim (handle e v)))).
Proof.
  destruct e as [|d a|d x y|d a]; cbn [handle GraphCanvas.handle sim].
  - destruct (D3.running (sim v)); [|split; [apply Forall2_keeps_refl|done]].
    fold (step v). rewrite step_nodes. split; [apply tick1_keeps|]. intros _. apply tick1_ok.
  - apply dragstarted_keeps.
  - apply dragged_keeps.
  - apply dragended_keeps.
Qed.

Lemma run_keeps events v :
  Forall2 keeps (D3.nodes (sim v)) (D3.nodes (sim (run events v))) ∧
  (Forall ok (D3.nodes (sim v)) → Forall ok (D3.nodes (sim (run events v)))).
Proof.
  revert v. induction events as [|e events IH]; intros v; cbn.
  - split; [apply Forall2_keeps_refl|done].
  - destruct (IH (handle e v)) as [IH1 IH2], (handle_keeps e v) as [H1 H2].
    split; [eapply Forall2_keeps_trans; eauto | auto].
Qed.
End Running.


(** *** What the effect builds *)

(** From here on the hundred ticks of the effect are not unfolded. *)
Local Opaque D3.tick.

Lemma mount_fst w h conns links fl fm fc st draws k :
  (mount w h conns links fl fm fc st draws k).1 =
  let cn := (connectionNodes w h conns st draws k).1 in
  let sl := simLinks w h links cn in
  ({| sim := D3.set_alpha (Fin 0.1)
               (D3.tick (config w h fl fm fc sl) 100
                  (D3.set_alphaTarget (Fin 0)
                     (D3.set_alpha (Fin 0.3) (D3.forceSimulation (nodes w h cn)))));
      store := st |}, sl).
Proof.
  unfold mount, bind.
  destruct (connectionNodes w h conns st draws k) as [cn k']. reflexivity.
Qed.

Lemma mounted_eq w h conns links fl fm fc st draws k :
  mounted w h conns links fl fm fc st draws k =
  {| sim := D3.set_alpha (Fin 0.1)
              (D3.tick (config w h fl fm fc
                          (simLinks w h links (connectionNodes w h conns st draws k).1))
                 100
                 (D3.set_alphaTarget (Fin 0)
                    (D3.set_alpha (Fin 0.3)
                       (D3.forceSimulation
                          (nodes w h (connectionNodes w h conns st draws k).1)))));
     store := st |}.
Proof. unfold mounted. rewrite mount_fst. reflexivity. Qed.

Lemma mountedLinks_eq w h conns links fl fm fc st draws k :
  mountedLinks w h conns links fl fm fc st draws k
  = simLinks w h links (connectionNodes w h conns st draws k).1.
Proof. unfold mountedLinks. rewrite mount_fst. reflexivity. Qed.

Lemma mounted_store w h conns links fl fm fc st draws k :
  store (mounted w h conns links fl fm fc st draws k) = st.
Proof. by rewrite mounted_eq. Qed.

Lemma nodes_set_alpha a s : D3.nodes (D3.set_alpha a s) = D3.nodes s.
Proof. reflexivity. Qed.

Lemma nodes_set_alphaTarget a s : D3.nodes (D3.set_alphaTarget a s) = D3.nodes s.
Proof. reflexivity. Qed.

Lemma nodes_restart s : D3.nodes (D3.restart s) = D3.nodes s.
Proof. reflexivity. Qed.

Lemma mounted_keeps w h conns links fl fm fc st draws k :
  let cn := (connectionNodes w h conns st draws k).1 in
  let v0 := mounted w h conns links fl fm fc st draws k in
  Forall2 keeps (nodes w h cn) (D3.nodes (sim v0)) ∧ Forall ok (D3.nodes (sim v0)).
Proof.
  intros cn v0. unfold v0. rewrite mounted_eq. cbn [sim]. fold cn.
  rewrite nodes_set_alpha.
  set (sl := simLinks w h links cn).
  set (s0 := D3.set_alphaTarget _ _).
  split.
  - apply Forall2_keeps_trans with (D3.nodes s0); [|apply tick_keeps].
    unfold s0. rewrite nodes_set_alphaTarget, nodes_set_alpha.
    cbn [D3.nodes D3.forceSimulation].
    apply Forall2_imap_r. intros. apply initializeNode_keeps.
  - apply (tick_S_ok w h fl fm fc sl 99 s0).
Qed.

Lemma mapM_fmap {A B C} (g : B → C) (g' : A → C) (f : A → Rand B)
    (l : list A) draws k :
  (∀ a k', g (f a draws k').1 = g' a) →
  g <$> (mapM f l draws k).1 = g' <$> l.
Proof.
  intros Hf. apply list_eq. intros i. rewrite !list_lookup_fmap.
  destruct (l !! i) as [a|] eqn:Ha.
  - destruct (mapM_lookup f l draws k i a Ha) as [k' ->]. cbn. by rewrite Hf.
  - rewrite lookup_ge_None_2; [done|]. rewrite mapM_length. by apply lookup_ge_None.
Qed.

Lemma connectionNodes_static w h conns st draws k :
  static <$> (connectionNodes w h conns st draws k).1
  = (λ c, (Conn.id c, false, Some c)) <$> conns.
Proof.
  unfold connectionNodes. apply mapM_fmap. intros c k'.
  by rewrite connectionNode_fst.
Qed.

Lemma Forall2_keeps_static l1 l2 :
  Forall2 keeps l1 l2 → static <$> l2 = static <$> l1.
Proof. induction 1 as [|n n' l l' [Hs _] _ IH]; [done|]. cbn. by rewrite Hs, IH. Qed.

Section Reachable.
Context (width height : num) (conns : list ConnectionNode) (links : list Link.t)
        (forceLink : list SimLink.t → D3.VelocityField)
        (forceManyBody forceCollide : D3.VelocityField)
        (st : PositionStore) (draws : nat → R) (k : nat).

Let v0 := mounted width height conns links forceLink forceManyBody forceCollide st draws k.
Let sl := mountedLinks width height conns links forceLink forceManyBody forceCollide st draws k.
Let cn := (connectionNodes width height conns st draws k).1.
Let run := run width height forceLink forceManyBody forceCollide sl.

Lemma reachable_keeps events :
  Forall2 keeps (nodes width height cn) (D3.nodes (sim (run events v0))) ∧
  Forall ok (D3.nodes (sim (run events v0))).
Proof.
  destruct (mounted_keeps width height conns links forceLink forceManyBody
              forceCollide st draws k) as [Hk0 Hok0].
  destruct (run_keeps width height forceLink forceManyBody forceCollide sl events v0)
    as [Hk Hok].
  split; [eapply Forall2_keeps_trans; eauto | auto].
Qed.

Lemma reachable_static events :
  static <$> D3.nodes (sim (run events v0))
  = ("USER"%string, true, None) :: ((λ c, (Conn.id c, false, Some c)) <$> conns).
Proof.
  destruct (reachable_keeps events) as [Hk _].
  apply Forall2_keeps_static in Hk. rewrite Hk. unfold nodes. cbn [fmap list_fmap].
  f_equal. apply connectionNodes_static.
Qed.
End Reachable.

Lemma static_lookup (ns : list SimNode) L i n :
  static <$> ns = L → ns !! i = Some n → L !! i = Some (static n).
Proof. intros <- Hn. by rewrite list_lookup_fmap, Hn. Qed.

(** A node after the first one is the node of the connection of the same
    rank. *)
Lemma leaf_lookup (ns : list SimNode) (conns : list ConnectionNode) i n :
  static <$> ns
  = ("USER"%string, true, None) :: ((λ c, (Conn.id c, false, Some c)) <$> conns) →
  ns !! S i = Some n →
  ∃ conn, conns !! i = Some conn ∧ static n = (Conn.id conn, false, Some conn).
Proof.
  intros Hst Hn. pose proof (static_lookup _ _ _ _ Hst Hn) as H.
  change (((λ c, (Conn.id c, false, Some c)) <$> conns) !! i = Some (static n)) in H.
  rewrite list_lookup_fmap in H.
  destruct (conns !! i) as [conn|]; [|done]. exists conn. split; [done|].
  cbn in H. congruence.
Qed.

(** C1.  Anchor invariance: after the effect has run, and after any
    sequence of timer ticks and drag events, the first node object is the
    user node, its position and its pin are the centre of the viewport
    [(width / 2, height / 2)], and no other node is a user node. *)
Theorem anchor_invariance (width height : num) (conns : list ConnectionNode)
    (links : list Link.t) (forceLink : list SimLink.t → D3.VelocityField)
    (forceManyBody forceCollide : D3.VelocityField) (st : PositionStore)
    (draws : nat → R) (k : nat) (events : list Event) :
  let v0 := mounted width height conns links forceLink forceManyBody forceCollide st draws k in
  let sl := mountedLinks width height conns links forceLink forceManyBody forceCollide st draws k in
  let v := run width height forceLink forceManyBody forceCollide sl events v0 in
  ∃ user,
    D3.nodes (sim v) !! 0%nat = Some user ∧
    Node.isUser user = true ∧
    Node.x user = Some (width / Fin 2)%js ∧ Node.y user = Some (height / Fin 2)%js ∧
    Node.fx user = Some (width / Fin 2)%js ∧ Node.fy user = Some (height / Fin 2)%js ∧
    ∀ i n, D3.nodes (sim v) !! S i = Some n → Node.isUser n = false.
Proof.
  intros v0 sl v.
  destruct (reachable_keeps width height conns links forceLink forceManyBody
              forceCollide st draws k events) as [Hk Hok].
  pose proof (reachable_static width height conns links forceLink forceManyBody
                forceCollide st draws k events) as Hst.
  fold v0 sl v in Hk, Hok, Hst.
  unfold nodes in Hk. inversion Hk as [|u0 user l0 l [Hs Hpin] Hrest E1 E2]; subst.
  destruct (Hpin eq_refl) as [Hfx Hfy]. cbn in Hfx, Hfy.
  assert (Huser : Node.isUser user = true) by (unfold static in Hs; by simplify_eq).
  rewrite <- E2 in Hok. apply Forall_cons in Hok as [[_ Hpinned] _].
  destruct (Hpinned Huser) as [Hx Hy].
  exists user. split; [done|]. split; [done|].
  split; [by apply Hx|]. split; [by apply Hy|]. split; [done|]. split; [done|].
  intros i n Hn. rewrite <- E2 in Hst.
  destruct (leaf_lookup _ _ _ _ Hst Hn) as (conn & _ & Hsn).
  unfold static in Hsn. by simplify_eq.
Qed.

(** * The position store *)

Lemma savePositions_snoc ns n st :
  savePositions (ns ++ [n]) st = saveNode (savePositions ns st) n.
Proof. unfold savePositions. by rewrite foldl_app. Qed.

Lemma savePositions_other ns st key :
  (∀ n, n ∈ ns → Node.isUser n = false → Node.id n ≠ key) →
  savePositions ns st !! key = st !! key.
Proof.
  induction ns as [|n ns IH] using rev_ind; intros Hk; [done|].
  rewrite savePositions_snoc. unfold saveNode.
  destruct (Node.isUser n) eqn:Hu, (Node.x n), (Node.y n);
    try (apply IH; intros; apply Hk; set_solver).
  rewrite lookup_insert_ne; [apply IH; intros; apply Hk; set_solver|].
  apply Hk; [set_solver | done].
Qed.

Lemma savePositions_saved ns st n px py :
  NoDup (Node.id <$> ns) → n ∈ ns → Node.isUser n = false →
  Node.x n = Some px → Node.y n = Some py →
  savePositions ns st !! Node.id n = Some (px, py).
Proof.
  induction ns as [|m ns IH] using rev_ind; [set_solver|].
  rewrite fmap_app. intros [Hnd [Hdisj _]]%NoDup_app Hin Hu Hx Hy.
  rewrite savePositions_snoc.
  apply elem_of_app in Hin as [Hin|Hin].
  - assert (Node.id m ≠ Node.id n) as Hne.
    { intros Heq. apply (Hdisj (Node.id n)); [by apply list_elem_of_fmap_2|].
      rewrite <- Heq. set_solver. }
    unfold saveNode. destruct (Node.isUser m), (Node.x m), (Node.y m);
      rewrite ?lookup_insert_ne by done; by apply IH.
  - apply list_elem_of_singleton in Hin as ->. unfold saveNode.
    rewrite Hu, Hx, Hy. by rewrite lookup_insert_eq.
Qed.

Lemma static_ids (ns : list SimNode) (conns : list ConnectionNode) :
  static <$> ns
  = ("USER"%string, true, None) :: ((λ c, (Conn.id c, false, Some c)) <$> conns) →
  Node.id <$> ns = "USER"%string :: (Conn.id <$> conns).
Proof.
  intros Hst. apply (f_equal (fmap (λ s : string * bool * option ConnectionNode, s.1.1))) in Hst.
  rewrite <- list_fmap_compose in Hst. rewrite fmap_cons, <- list_fmap_compose in Hst.
  exact Hst.
Qed.

Lemma static_not_user (ns : list SimNode) (conns : list ConnectionNode) n :
  NoDup ("USER"%string :: (Conn.id <$> conns)) →
  static <$> ns
  = ("USER"%string, true, None) :: ((λ c, (Conn.id c, false, Some c)) <$> conns) →
  n ∈ ns → Node.isUser n = false → Node.id n ≠ "USER"%string.
Proof.
  intros Hnd Hst Hn Hu. apply list_elem_of_lookup in Hn as [[|i] Hi].
  - pose proof (static_lookup _ _ _ _ Hst Hi) as H. cbn in H.
    unfold static in H. simplify_eq. congruence.
  - destruct (leaf_lookup _ _ _ _ Hst Hi) as (conn & Hc & Hs).
    unfold static in Hs. simplify_eq. apply NoDup_cons in Hnd as [Hnot _].
    intros Heq. apply Hnot. rewrite <- Heq. apply list_elem_of_fmap.
    exists conn. split; [congruence|]. by eapply list_elem_of_lookup_2.
Qed.

Section Store.
Context (width height : num) (conns : list ConnectionNode) (links : list Link.t)
        (forceLink : list SimLink.t → D3.VelocityField)
        (forceManyBody forceCollide : D3.VelocityField)
        (st : PositionStore) (draws : nat → R) (k : nat).

Let v0 := mounted width height conns links forceLink forceManyBody forceCollide st draws k.
Let sl := mountedLinks width height conns links forceLink forceManyBody forceCollide st draws k.
Let run := run width height forceLink forceManyBody forceCollide sl.
Let step := step width height forceLink forceManyBody forceCollide sl.
Let handle := handle width height forceLink forceManyBody forceCollide sl.

Hypothesis unique_ids : NoDup ("USER"%string :: (Conn.id <$> conns)).
Hypothesis no_user_entry : st !! "USER"%string = None.

Lemma run_snoc events e : run (events ++ [e]) v0 = handle e (run events v0).
Proof. unfold run, GraphCanvas.run. by rewrite foldl_app. Qed.

Lemma step_static events :
  static <$> D3.nodes (sim (step (run events v0)))
  = ("USER"%string, true, None) :: ((λ c, (Conn.id c, false, Some c)) <$> conns).
Proof.
  unfold step. rewrite step_nodes.
  rewrite (Forall2_keeps_static _ _ (tick1_keeps width height forceLink forceManyBody
                                       forceCollide sl (sim (run events v0)))).
  apply reachable_static.
Qed.

Lemma step_store v :
  store (step v)
  = savePositions (D3.nodes (D3.tick1 (config width height forceLink forceManyBody
                                         forceCollide sl) (sim v))) (store v).
Proof. reflexivity. Qed.

Lemma reachable_no_user_entry events :
  store (run events v0) !! "USER"%string = None.
Proof.
  induction events as [|e events IH] using rev_ind.
  - unfold run, v0. cbn. by rewrite mounted_store.
  - rewrite run_snoc.
    destruct e as [|d a|d x y|d a]; cbn [handle GraphCanvas.handle store]; try done.
    destruct (D3.running (sim (run events v0))); [|done].
    fold (step (run events v0)). rewrite step_store, savePositions_other; [done|].
    intros n Hn Hu. refine (static_not_user _ conns n unique_ids _ Hn Hu).
    rewrite <- step_nodes. apply step_static.
Qed.
End Store.

(** C9.  On every firing of the timer, the listener saves the position of
    every node but the user node: after the step, the store holds under the
    id of each other node exactly its current [(x, y)], which is the pin when
    the node is pinned by a drag; the store has no entry for "USER"; and
    a rebuild from that store starts each node at those coordinates.  The
    ids of the connections are distinct and none is "USER". *)
Theorem tick_saves_positions (width height : num) (conns : list ConnectionNode)
    (links : list Link.t) (forceLink : list SimLink.t → D3.VelocityField)
    (forceManyBody forceCollide : D3.VelocityField) (st : PositionStore)
    (draws : nat → R) (k : nat) (events : list Event) :
  NoDup ("USER"%string :: (Conn.id <$> conns)) →
  st !! "USER"%string = None →
  let v0 := mounted width height conns links forceLink forceManyBody forceCollide st draws k in
  let sl := mountedLinks width height conns links forceLink forceManyBody forceCollide st draws k in
  let v := run width height forceLink forceManyBody forceCollide sl events v0 in
  let v' := step width height forceLink forceManyBody forceCollide sl v in
  store v' !! "USER"%string = None ∧
  ∀ i n, D3.nodes (sim v') !! S i = Some n →
    ∃ conn px py,
      conns !! i = Some conn ∧ Node.id n = Conn.id conn ∧ Node.isUser n = false ∧
      Node.x n = Some px ∧ Node.y n = Some py ∧
      store v' !! Node.id n = Some (px, py) ∧
      pinned n ∧
      ∀ draws' k', ∃ m,
        (connectionNodes width height conns (store v') draws' k').1 !! i = Some m ∧
        Node.x m = Some px ∧ Node.y m = Some py.
Proof.
  intros Hnd Hst v0 sl v v'.
  pose proof (step_static width height conns links forceLink forceManyBody forceCollide
                st draws k events) as Hstatic.
  fold v0 sl v v' in Hstatic.
  assert (Hnodes : D3.nodes (sim v')
                   = D3.nodes (D3.tick1 (config width height forceLink forceManyBody
                                           forceCollide sl) (sim v))) by apply step_nodes.
  assert (Hstore : store v' = savePositions (D3.nodes (sim v')) (store v)).
  { rewrite Hnodes. reflexivity. }
  split.
  - rewrite Hstore, savePositions_other.
    + by apply reachable_no_user_entry.
    + intros n Hn Hu. by eapply static_not_user.
  - intros i n Hn.
    destruct (leaf_lookup _ _ _ _ Hstatic Hn) as (conn & Hconn & Hsn).
    unfold static in Hsn. injection Hsn as Hid Huser Hc.
    assert (Hgood : pinned n ∧ placed n).
    { pose proof (tick1_pinned width height forceLink forceManyBody forceCollide sl (sim v)) as H.
      rewrite <- Hnodes in H. eapply Forall_lookup_1 in H; eauto. }
    destruct Hgood as [Hpin [[px Hx] [py Hy]]].
    assert (Hsaved : store v' !! Node.id n = Some (px, py)).
    { rewrite Hstore. apply savePositions_saved; try done.
      - rewrite (static_ids _ _ Hstatic). exact Hnd.
      - by eapply list_elem_of_lookup_2. }
    exists conn, px, py. repeat (split; [done|]).
    intros draws' k'.
    destruct (connectionNodes_seed width height conns (store v') draws' k' i conn Hconn)
      as (m & kk & Hm & _ & Hpos).
    exists m. split; [done|]. rewrite <- Hid, Hsaved in Hpos. exact Hpos.
Qed.

Lemma tick_saves_positions_witness :
  let conns := [Sample.alice] in
  let events := [DragStart 1 0; Drag 1 (Fin 500) (Fin 100)] in
  let v0 := mounted (Fin 800) (Fin 600) conns [] (λ _, Sample.still) Sample.still
              Sample.still ∅ Sample.half 0 in
  let sl := mountedLinks (Fin 800) (Fin 600) conns [] (λ _, Sample.still) Sample.still
              Sample.still ∅ Sample.half 0 in
  let v := run (Fin 800) (Fin 600) (λ _, Sample.still) Sample.still Sample.still sl events v0 in
  let v' := step (Fin 800) (Fin 600) (λ _, Sample.still) Sample.still Sample.still sl v in
  store v' !! "USER"%string = None ∧
  ∀ i n, D3.nodes (sim v') !! S i = Some n →
    ∃ conn px py,
      conns !! i = Some conn ∧ Node.id n = Conn.id conn ∧ Node.isUser n = false ∧
      Node.x n = Some px ∧ Node.y n = Some py ∧
      store v' !! Node.id n = Some (px, py) ∧
      pinned n ∧
      ∀ draws' k', ∃ m,
        (connectionNodes (Fin 800) (Fin 600) conns (store v') draws' k').1 !! i = Some m ∧
        Node.x m = Some px ∧ Node.y m = Some py.
Proof.
  apply (tick_saves_positions (Fin 800) (Fin 600) [Sample.alice] []
           (λ _, Sample.still) Sample.still Sample.still ∅ Sample.half 0
           [DragStart 1 0; Drag 1 (Fin 500) (Fin 100)]).
  - apply NoDup_cons. split; [|apply NoDup_singleton].
    intros H. apply list_elem_of_singleton in H. discriminate H.
  - apply lookup_empty.
Defined.

(** * Clicks and the selection *)

(** C4.  For a node that is not the user node: a click on it while its
    connection is the selected one clears the selection; from any other
    selection a first click selects the connection and a second one clears
    the selection; a click on the background clears the selection. *)
Theorem click_twice_deselects (d : SimNode) (c : ConnectionNode)
    (selected : option ConnectionNode) :
  Node.isUser d = false → Node.connection d = Some c →
  nodeClick d (Some c) = None ∧
  (Conn.id <$> selected ≠ Some (Conn.id c) →
     nodeClick d selected = Some c ∧ nodeClick d (nodeClick d selected) = None) ∧
  backgroundClick selected = None.
Proof.
  intros Hu Hc. unfold nodeClick, backgroundClick. rewrite Hu, Hc.
  unfold ConnectionsContext.selectConnection. split; [|split; [|done]].
  - by rewrite decide_True.
  - intros Hsel. destruct selected as [s|]; cbn in *.
    + rewrite decide_False by congruence. by rewrite decide_True.
    + by rewrite decide_True.
Qed.

Lemma click_twice_deselects_witness :
  let d := Sample.leaf Sample.alice 520 300 in
  nodeClick d (Some Sample.alice) = None ∧
  nodeClick d None = Some Sample.alice ∧
  nodeClick d (nodeClick d None) = None ∧
  backgroundClick (Some Sample.alice) = None.
Proof.
  cbn zeta.
  destruct (click_twice_deselects (Sample.leaf Sample.alice 520 300) Sample.alice None
              eq_refl eq_refl) as (H1 & H2 & _).
  destruct (H2 ltac:(discriminate)) as [H3 H4].
  destruct (click_twice_deselects (Sample.leaf Sample.alice 520 300) Sample.alice
              (Some Sample.alice) eq_refl eq_refl) as (_ & _ & H5).
  exact (conj H1 (conj H3 (conj H4 H5))).
Defined.

(** * The categories of the email overview *)

Lemma categoryMap_snoc emails e :
  ENG.categoryMap (emails ++ [e]) = ENG.addEmail (categoryOf e) e (ENG.categoryMap emails).
Proof. unfold ENG.categoryMap. by rewrite foldl_app. Qed.

Lemma addEmail_keys category e m :
  (category ∈ m.*1 → (ENG.addEmail category e m).*1 = m.*1) ∧
  (category ∉ m.*1 → (ENG.addEmail category e m).*1 = m.*1 ++ [category]).
Proof.
  induction m as [|[k l] m [IH1 IH2]]; [split; [set_solver | done]|].
  cbn [ENG.addEmail]. destruct (decide (k = category)) as [->|Hne]; cbn.
  - split; [done | set_solver].
  - split.
    + intros Hin. f_equal. apply IH1. set_solver.
    + intros Hnin. f_equal. apply IH2. set_solver.
Qed.

Lemma addEmail_NoDup category e m : NoDup m.*1 → NoDup (ENG.addEmail category e m).*1.
Proof.
  intros Hnd. destruct (addEmail_keys category e m) as [H1 H2].
  destruct (decide (category ∈ m.*1)) as [Hin|Hnin].
  - by rewrite H1.
  - rewrite H2 by done. apply NoDup_app. split; [done|]. split; [set_solver|].
    apply NoDup_singleton.
Qed.

Lemma addEmail_elem category e m k l :
  NoDup (m.*1) →
  (k, l) ∈ ENG.addEmail category e m ↔
  ((k ≠ category ∧ (k, l) ∈ m) ∨
   (k = category ∧ ((∃ l0, (category, l0) ∈ m ∧ l = l0 ++ [e]) ∨
                    (category ∉ m.*1 ∧ l = [e])))).
Proof.
  induction m as [|[k0 l0] m IH]; intros Hnd.
  - cbn. rewrite list_elem_of_singleton. split.
    + intros Heq. simplify_eq. right. split; [done|]. right. split; [set_solver|done].
    + intros [[_ H]|[-> [(? & H & _)|[_ ->]]]]; [set_solver | set_solver | done].
  - cbn in Hnd. apply NoDup_cons in Hnd as [Hk0 Hnd]. specialize (IH Hnd).
    assert (Hfresh : ∀ l', (k0, l') ∉ m).
    { intros l' Hin. apply Hk0. apply list_elem_of_fmap. by exists (k0, l'). }
    cbn [ENG.addEmail]. destruct (decide (k0 = category)) as [->|Hne].
    + split.
      * intros [Heq|Hin]%elem_of_cons.
        -- simplify_eq. right. split; [done|]. left. exists l0.
           split; [apply elem_of_cons; by left | done].
        -- left. split; [|apply elem_of_cons; by right]. intros ->. by apply (Hfresh l).
      * intros [[Hk Hin]|[-> [(l1 & Hin & ->)|[Hnin _]]]].
        -- apply elem_of_cons in Hin as [Heq|Hin]; [simplify_eq|].
           apply elem_of_cons; by right.
        -- apply elem_of_cons in Hin as [Heq|Hin].
           ++ simplify_eq. apply elem_of_cons; by left.
           ++ exfalso. by apply (Hfresh l1).
        -- exfalso. apply Hnin. cbn. apply elem_of_cons; by left.
    + rewrite elem_of_cons, IH. split.
      * intros [Heq|[[Hk Hin]|[-> [(l1 & Hin & ->)|[Hnin ->]]]]].
        -- simplify_eq. left. split; [done | apply elem_of_cons; by left].
        -- left. split; [done | apply elem_of_cons; by right].
        -- right. split; [done|]. left. exists l1.
           split; [apply elem_of_cons; by right | done].
        -- right. split; [done|]. right. split; [|done]. cbn.
           intros [Heq|Hin]%elem_of_cons; [by apply Hne | done].
      * intros [[Hk Hin]|[-> [(l1 & Hin & ->)|[Hnin ->]]]].
        -- apply elem_of_cons in Hin as [Heq|Hin]; [by left | right; left; done].
        -- apply elem_of_cons in Hin as [Heq|Hin]; [simplify_eq|].
           right. right. split; [done|]. left. by exists l1.
        -- right. right. split; [done|]. right. split; [|done].
           intros Hin. apply Hnin. cbn. apply elem_of_cons. by right.
Qed.

Lemma emailsOf_snoc category emails e :
  emailsOf category (emails ++ [e])
  = emailsOf category emails ++ (if decide (categoryOf e = category) then [e] else []).
Proof.
  unfold emailsOf. rewrite filter_app. f_equal.
Qed.

(** The grouping: the keys are distinct, and the entries are exactly the
    categories that have an email, each with its emails in their order. *)
Lemma categoryMap_spec emails :
  NoDup (ENG.categoryMap emails).*1 ∧
  ∀ k l, (k, l) ∈ ENG.categoryMap emails ↔ l = emailsOf k emails ∧ l ≠ [].
Proof.
  induction emails as [|e emails [IHnd IH]] using rev_ind.
  - split; [constructor|]. intros k l. cbn. split; [set_solver|].
    intros [-> H]. done.
  - rewrite categoryMap_snoc. split; [by apply addEmail_NoDup|].
    intros k l. rewrite addEmail_elem by done. rewrite emailsOf_snoc.
    destruct (decide (categoryOf e = k)) as [Heq|Hne].
    + subst k. split.
      * intros [[Hk _]|[_ [(l0 & Hin & ->)|[Hnin ->]]]]; [done | |].
        -- apply IH in Hin as [-> _]. split; [done|]. by destruct (emailsOf _ _).
        -- split; [|done]. destruct (emailsOf (categoryOf e) emails) as [|e0 l0] eqn:E; [done|].
           exfalso. apply Hnin. apply list_elem_of_fmap.
           exists (categoryOf e, e0 :: l0). split; [done|]. apply IH. by rewrite E.
      * intros [-> _]. right. split; [done|].
        destruct (emailsOf (categoryOf e) emails) as [|e0 l0] eqn:E.
        -- right. split; [|done]. intros ([k' l'] & Hk' & Hin)%list_elem_of_fmap.
           cbn in Hk'. subst k'. apply IH in Hin as [-> Hne]. by rewrite E in Hne.
        -- left. exists (e0 :: l0). split; [|done]. apply IH. by rewrite E.
    + rewrite app_nil_r. split.
      * intros [[_ Hin]|[-> _]]; [by apply IH | done].
      * intros H. left. split; [congruence | by apply IH].
Qed.

Lemma insertEntry_perm e l : ENG.insertEntry e l ≡ₚ e :: l.
Proof.
  induction l as [|e' l IH]; [done|]. cbn. destruct (decide _); [|done].
  rewrite IH. apply Permutation_swap.
Qed.

Lemma sortByCount_perm l : ENG.sortByCount l ≡ₚ l.
Proof.
  induction l as [|e l IH]; [done|]. cbn. by rewrite insertEntry_perm, IH.
Qed.

Lemma insertEntry_sorted e l :
  StronglySorted byCount l → StronglySorted byCount (ENG.insertEntry e l).
Proof.
  induction 1 as [|e' l Hs IH Hall]; cbn.
  - repeat constructor.
  - destruct (decide _) as [Hlt|Hge].
    + constructor; [done|]. rewrite insertEntry_perm. constructor; [|done].
      unfold byCount. lia.
    + constructor; [by constructor|]. constructor; [unfold byCount; lia|].
      eapply Forall_impl; [exact Hall|]. unfold byCount. intros; cbn in *. lia.
Qed.

Lemma sortByCount_sorted l : StronglySorted byCount (ENG.sortByCount l).
Proof. induction l; cbn; [constructor | by apply insertEntry_sorted]. Qed.

Lemma StronglySorted_lookup {A} (R : relation A) (l : list A) i j x y :
  StronglySorted R l → (i < j)%nat → l !! i = Some x → l !! j = Some y → R x y.
Proof.
  intros Hs. revert i j. induction Hs as [|a l Hs IH Hall]; intros i j Hij Hi Hj; [done|].
  destruct j as [|j]; [lia|]. destruct i as [|i]; cbn in *.
  - simplify_eq. eapply Forall_lookup_1 in Hall; eauto.
  - apply (IH i j); [lia | done | done].
Qed.

Lemma categories_lookup emails i c :
  ENG.categories emails !! i = Some c ↔
  ∃ entry, ENG.sortByCount (ENG.categoryMap emails) !! i = Some entry ∧ (i < 8)%nat ∧
           c = ENG.mkCategory i entry.
Proof.
  unfold ENG.categories. rewrite list_lookup_imap. split.
  - destruct (take 8 _ !! i) as [entry|] eqn:E; [|done]. intros [= <-].
    apply lookup_take_Some in E as [E Hi]. by exists entry.
  - intros (entry & E & Hi & ->). rewrite lookup_take_lt by done. by rewrite E.
Qed.

Lemma sorted_entry emails entry :
  entry ∈ ENG.sortByCount (ENG.categoryMap emails) ↔
  entry.2 = emailsOf entry.1 emails ∧ entry.2 ≠ [].
Proof.
  rewrite sortByCount_perm. destruct entry as [k l].
  apply (proj2 (categoryMap_spec emails)).
Qed.

Lemma mkCategory_fields i entry :
  ENG.Category.label (ENG.mkCategory i entry) = entry.1 ∧
  ENG.Category.emails (ENG.mkCategory i entry) = entry.2 ∧
  ENG.Category.count (ENG.mkCategory i entry) = length entry.2.
Proof. done. Qed.

Lemma categories_elem emails c :
  c ∈ ENG.categories emails →
  ∃ i entry, ENG.sortByCount (ENG.categoryMap emails) !! i = Some entry ∧
             (i < 8)%nat ∧ c = ENG.mkCategory i entry.
Proof.
  intros [i Hi]%list_elem_of_lookup. apply categories_lookup in Hi as (entry & ? & ? & ?).
  by exists i, entry.
Qed.

Lemma categories_labels emails :
  ENG.Category.label <$> ENG.categories emails
  = take 8 (ENG.sortByCount (ENG.categoryMap emails)).*1.
Proof.
  unfold ENG.categories. rewrite fmap_imap, <- fmap_take. exact (imap_const fst _).
Qed.

Lemma sortByCount_keys_NoDup emails :
  NoDup (ENG.sortByCount (ENG.categoryMap emails)).*1.
Proof.
  rewrite sortByCount_perm. apply (proj1 (categoryMap_spec emails)).
Qed.

(** C10.  The email overview has at most eight category nodes.  The
    categories are the first eight entries of the grouping of the emails by
    extracted sender category, sorted by decreasing number of emails: their
    labels are distinct, each one holds exactly the emails of its category,
    in their order, and at least one; their counts decrease along the list;
    and a category of some email that is not among them is left out only
    when eight are shown, each with at least as many emails. *)
Theorem at_most_eight_categories (emails : list AnalyzedEmail) (width height : num) :
  let cats := ENG.categories emails in
  (length cats ≤ 8)%nat ∧
  length (ENG.categoryNodes width height cats) = length cats ∧
  cats = imap ENG.mkCategory (take 8 (ENG.sortByCount (ENG.categoryMap emails))) ∧
  NoDup (ENG.Category.label <$> cats) ∧
  (∀ c, c ∈ cats →
        ENG.Category.emails c = emailsOf (ENG.Category.label c) emails ∧
        ENG.Category.count c = length (ENG.Category.emails c) ∧
        (0 < ENG.Category.count c)%nat) ∧
  (∀ i j ci cj, (i < j)%nat → cats !! i = Some ci → cats !! j = Some cj →
        (ENG.Category.count cj ≤ ENG.Category.count ci)%nat) ∧
  (∀ e, e ∈ emails → categoryOf e ∉ ENG.Category.label <$> cats →
        length cats = 8%nat ∧
        ∀ c, c ∈ cats →
             (length (emailsOf (categoryOf e) emails) ≤ ENG.Category.count c)%nat).
Proof.
  intros cats. set (sorted := ENG.sortByCount (ENG.categoryMap emails)).
  assert (Hlen : length cats = min 8 (length sorted)).
  { unfold cats, ENG.categories. by rewrite length_imap, length_take. }
  split; [lia|]. split; [apply length_imap|]. split; [done|]. split; [|split; [|split]].
  - unfold cats. rewrite categories_labels.
    eapply sublist_NoDup; [apply sortByCount_keys_NoDup | apply sublist_take].
  - intros c (i & entry & Hentry & _ & ->)%categories_elem.
    apply list_elem_of_lookup_2, sorted_entry in Hentry as [Heq Hne].
    destruct (mkCategory_fields i entry) as (-> & -> & ->).
    split; [done|]. split; [done|]. destruct entry.2; [done | cbn; lia].
  - intros i j ci cj Hij (ei & Hi & _ & ->)%categories_lookup
      (ej & Hj & _ & ->)%categories_lookup.
    exact (StronglySorted_lookup byCount _ i j ei ej
             (sortByCount_sorted _) Hij Hi Hj).
  - intros e He Hnot.
    assert (Hentry : (categoryOf e, emailsOf (categoryOf e) emails) ∈ sorted).
    { apply sorted_entry. cbn. split; [done|].
      intros Hnil. assert (e ∈ emailsOf (categoryOf e) emails) as Hin.
      { unfold emailsOf. by apply list_elem_of_filter. }
      rewrite Hnil in Hin. by apply not_elem_of_nil in Hin. }
    apply list_elem_of_lookup in Hentry as [j Hj].
    assert (8 ≤ j)%nat as Hge.
    { destruct (decide (j < 8)%nat) as [Hlt|]; [|lia]. exfalso. apply Hnot.
      unfold cats. rewrite categories_labels. apply elem_of_take. exists j.
      split; [|done]. fold sorted. by rewrite list_lookup_fmap, Hj. }
    apply lookup_lt_Some in Hj as Hjlt. split; [lia|].
    intros c (i & entry & Hi & Hi8 & ->)%categories_elem.
    exact (StronglySorted_lookup byCount _ i j entry _
             (sortByCount_sorted _) ltac:(lia) Hi Hj).
Qed.

(** * Further properties of the connection view *)

(** ** Node sizes *)

Lemma sqrt_INR_pos n : (0 < n)%nat → 0 < sqrt (INR n).
Proof. intros Hn. apply sqrt_lt_R0. apply lt_0_INR. lia. Qed.

Lemma baseRadius_pos (nodes : list SimNode) :
  (0 < length nodes)%nat →
  baseRadius nodes = Fin (Rmin 14 (Rmax 8 (180 / sqrt (INR (length nodes))))).
Proof.
  intros Hn. unfold baseRadius. rewrite sqrt_fin by apply pos_INR.
  pose proof (sqrt_INR_pos _ Hn). rewrite div_fin by lra. reflexivity.
Qed.

(** X1.  The base radius of the circles is a finite number between 8 and
    14 for every node array, the empty one included; it is 14 up to 165
    nodes and 8 from 507 nodes on. *)
Theorem baseRadius_bounds (nodes : list SimNode) :
  ∃ r : R,
    baseRadius nodes = Fin r ∧ 8 <= r <= 14 ∧
    ((length nodes ≤ 165)%nat → r = 14) ∧
    ((507 ≤ length nodes)%nat → r = 8).
Proof.
  destruct (decide (length nodes = 0%nat)) as [Hz|Hnz].
  - exists 14. unfold baseRadius. rewrite Hz. cbn [INR].
    rewrite sqrt_fin by lra. rewrite sqrt_0. unfold JS.div.
    destruct (Req_dec_T 0 0) as [_|Hne]; [|lra]. unfold signed.
    destruct (Rlt_dec 0 180) as [_|Hn]; [|lra]. cbn.
    split; [done|]. split; [lra|]. split; [done | lia].
  - assert (Hpos : (0 < length nodes)%nat) by lia.
    rewrite baseRadius_pos by done. eexists. split; [reflexivity|].
    set (q := 180 / sqrt (INR (length nodes))).
    pose proof (sqrt_INR_pos _ Hpos) as Hs.
    split; [|split].
    + unfold Rmin, Rmax. destruct (Rle_dec 8 q), (Rle_dec 14 _); lra.
    + intros Hle.
      assert (Hq : 14 <= q).
      { assert (sqrt (INR (length nodes)) <= 90 / 7) as Hsq.
        { rewrite <- (sqrt_square (90 / 7)) by lra. apply sqrt_le_1_alt.
          apply le_INR in Hle.
          assert (INR 165 = 165) as E by (rewrite INR_IZR_INZ; reflexivity).
          lra. }
        unfold q. apply Rmult_le_reg_r with (sqrt (INR (length nodes))); [done|].
        unfold Rdiv. rewrite Rmult_assoc, Rinv_l by lra. lra. }
      unfold Rmin, Rmax. destruct (Rle_dec 8 q), (Rle_dec 14 _); lra.
    + intros Hge.
      assert (Hq : q <= 8).
      { assert (45 / 2 <= sqrt (INR (length nodes))) as Hsq.
        { rewrite <- (sqrt_square (45 / 2)) by lra. apply sqrt_le_1_alt.
          apply le_INR in Hge.
          assert (INR 507 = 507) as E by (rewrite INR_IZR_INZ; reflexivity).
          lra. }
        unfold q. apply Rmult_le_reg_r with (sqrt (INR (length nodes))); [done|].
        unfold Rdiv. rewrite Rmult_assoc, Rinv_l by lra. lra. }
      unfold Rmin, Rmax. destruct (Rle_dec 8 q), (Rle_dec 14 _); lra.
Qed.

(** X2.  With a positive base radius, a user node is drawn larger than any
    other node, a node of a known degree is larger than one of a higher
    known degree, and the size of a node of unknown degree is undefined. *)
Theorem getNodeSize_order (b : R) (n m : SimNode) (cn cm : ConnectionNode) :
  0 < b →
  Node.isUser n = false → Node.connection n = Some cn →
  Node.isUser m = false → Node.connection m = Some cm →
  (1 ≤ Conn.degree cn)%Z → (Conn.degree cn < Conn.degree cm)%Z →
  (Conn.degree cm ≤ 3)%Z →
  ∃ sn sm : R,
    getNodeSize n (Fin b) = Some (Fin sn) ∧ getNodeSize m (Fin b) = Some (Fin sm) ∧
    0 < sm < sn ∧
    (∀ u, Node.isUser u = true →
          ∃ su, getNodeSize u (Fin b) = Some (Fin su) ∧ sn < su) ∧
    (∀ o co, Node.isUser o = false → Node.connection o = Some co →
             ¬ (1 ≤ Conn.degree co ≤ 3)%Z → getNodeSize o (Fin b) = None).
Proof.
  intros Hb Hun Hcn Hum Hcm H1 Hlt H3.
  assert (HL : ((Conn.degree cn = 1 ∧ Conn.degree cm = 2) ∨
                (Conn.degree cn = 1 ∧ Conn.degree cm = 3) ∨
                (Conn.degree cn = 2 ∧ Conn.degree cm = 3))%Z) by lia.
  unfold getNodeSize. rewrite Hun, Hcn, Hum, Hcm.
  assert (Huser : ∀ u, Node.isUser u = true →
            (if Node.isUser u then Some (Fin b * Fin 1.8)%js else None)
            = Some (Fin (b * 1.8))).
  { intros u ->. reflexivity. }
  assert (Hother : ∀ o co, Node.isUser o = false → Node.connection o = Some co →
            ¬ (1 ≤ Conn.degree co ≤ 3)%Z → getNodeSize o (Fin b) = None).
  { intros o co Ho Hco Hd. unfold getNodeSize. rewrite Ho, Hco.
    destruct (Conn.degree co) as [|p|p]; try done.
    destruct p as [[p|p|]|[p|p|]|]; try done; lia. }
  destruct HL as [[-> ->] | [[-> ->] | [-> ->]]]; cbn [JS.mul];
    eexists _, _; (split; [reflexivity|]; split; [reflexivity|]; split; [lra|];
                   split; [|exact Hother]);
    intros u Hu; unfold getNodeSize; rewrite Hu; eexists; (split; [reflexivity|lra]).
Qed.

Lemma getNodeSize_order_witness :
  ∃ sn sm : R,
    getNodeSize (Sample.leaf Sample.alice 520 300) (Fin 14) = Some (Fin sn) ∧
    getNodeSize (Sample.leaf Sample.bob 620 300) (Fin 14) = Some (Fin sm) ∧
    0 < sm < sn ∧
    (∀ u, Node.isUser u = true →
          ∃ su, getNodeSize u (Fin 14) = Some (Fin su) ∧ sn < su) ∧
    (∀ o co, Node.isUser o = false → Node.connection o = Some co →
             ¬ (1 ≤ Conn.degree co ≤ 3)%Z → getNodeSize o (Fin 14) = None).
Proof.
  apply (getNodeSize_order 14 (Sample.leaf Sample.alice 520 300)
           (Sample.leaf Sample.bob 620 300) Sample.alice Sample.bob);
    [lra | reflexivity | reflexivity | reflexivity | reflexivity
    | cbn; lia | cbn; lia | cbn; lia].
Defined.

(** ** Seeds *)

Lemma angleByFirstDegree_fin conns key a :
  angleByFirstDegree conns !! key = Some a →
  ∃ i, a = Fin (evenAngle i (length (firstDegree conns))) ∧
       (i < length (firstDegree conns))%nat.
Proof.
  unfold angleByFirstDegree.
  intros ([i c] & Hin & _ & Hv)%newMap_lookup_Some. cbn [fst snd] in Hv.
  apply elem_of_indexed, lookup_lt_Some in Hin.
  exists i. split; [|done]. rewrite <- Hv. rewrite div_fin; [reflexivity|].
  apply not_0_INR. lia.
Qed.

Lemma or_table_fin conns key :
  ∃ b : R, JS.or (angleByFirstDegree conns !! key) (Fin 0) = Fin b ∧ 0 <= b.
Proof.
  destruct (angleByFirstDegree conns !! key) as [a|] eqn:E; cbn; [|exists 0; split; [done|lra]].
  apply angleByFirstDegree_fin in E as (i & -> & Hi). cbn.
  destruct (Req_dec_T _ 0); [exists 0; split; [done|lra]|].
  eexists. split; [done|]. destruct i; [rewrite evenAngle_zero; lra|].
  left. apply evenAngle_pos; lia.
Qed.

Lemma randomAngle_eq draws k :
  randomAngle draws k = (Fin (draws k * PI * 2), S k).
Proof. reflexivity. Qed.

Lemma jitteredAngle_eq conns key spread draws k :
  ∃ b : R,
    JS.or (angleByFirstDegree conns !! key) (Fin 0) = Fin b ∧
    jitteredAngle conns key spread draws k
    = (Fin (b + (draws k - 0.5) * spread), S k).
Proof.
  destruct (or_table_fin conns key) as (b & Hb & _). exists b. split; [done|].
  unfold jitteredAngle, bind, Math_random, ret. rewrite Hb. reflexivity.
Qed.

(** The seed angle is a finite number, and at most one number is drawn. *)
Lemma seedAngle_fin conns conn draws k :
  ∃ (a : R) (k' : nat),
    seedAngle conns conn draws k = (Fin a, k') ∧ (k ≤ k' ≤ S k)%nat.
Proof.
  unfold seedAngle.
  repeat first
    [ rewrite randomAngle_eq
    | match goal with
      | |- context [decide ?P] => destruct (decide P)
      | |- context [truthyS ?s] => destruct (truthyS s)
      | |- context [truthy ?a] => destruct (truthy a) eqn:?
      | |- context [match angleByFirstDegree ?c !! ?key with _ => _ end] =>
          let E := fresh "E" in
          destruct (angleByFirstDegree c !! key) eqn:E;
          [apply angleByFirstDegree_fin in E as (? & -> & ?)|]
      | |- context [match connById ?c !! ?key with _ => _ end] =>
          destruct (connById c !! key)
      | |- context [jitteredAngle ?c ?key ?sp ?d ?kk] =>
          let b := fresh "b" in let H := fresh "H" in
          destruct (jitteredAngle_eq c key sp d kk) as (b & _ & H); rewrite H
      end ];
    eexists _, _; (split; [reflexivity | lia]).
Qed.

Lemma seedRadius_cases degree :
  ∃ r : R, seedRadius degree = Fin r ∧
    (degree = 1%Z → r = 120) ∧ (degree = 2%Z → r = 220) ∧
    (degree = 3%Z → r = 320) ∧ (¬ (1 ≤ degree ≤ 3)%Z → r = 150).
Proof.
  unfold seedRadius, degreeRadius_seed.
  destruct degree as [|p|p]; cbn;
    try (exists 150; split; [done|]; repeat split; (done || lia)).
  destruct p as [[p|p|]|[p|p|]|]; cbn; js_cases;
    eexists; (split; [reflexivity|]); repeat split; intros; (done || lia).
Qed.

(** X3.  A new node lies on its seed ring: in a finite viewport, the node
    built for a connection without a saved position is at a finite point
    whose distance to the centre is the seed radius of its degree: 120 for
    degree 1, 220 for degree 2, 320 for degree 3, and 150 for any other
    degree. *)
Theorem fresh_seed_on_ring (w h : R) (conns : list ConnectionNode)
    (store : PositionStore) (draws : nat → R) (k i : nat) (conn : ConnectionNode) :
  conns !! i = Some conn → store !! Conn.id conn = None →
  ∃ (node : SimNode) (x y r : R),
    (connectionNodes (Fin w) (Fin h) conns store draws k).1 !! i = Some node ∧
    Node.x node = Some (Fin x) ∧ Node.y node = Some (Fin y) ∧
    (Conn.degree conn = 1%Z → r = 120) ∧
    (Conn.degree conn = 2%Z → r = 220) ∧
    (Conn.degree conn = 3%Z → r = 320) ∧
    (¬ (1 ≤ Conn.degree conn ≤ 3)%Z → r = 150) ∧
    (x - w / 2) * (x - w / 2) + (y - h / 2) * (y - h / 2) = r * r.
Proof.
  intros Hi Hst.
  destruct (connectionNodes_seed (Fin w) (Fin h) conns store draws k i conn Hi)
    as (node & k' & Hnode & _ & Hpos).
  rewrite Hst in Hpos. cbn zeta in Hpos. destruct Hpos as [Hx Hy].
  destruct (seedAngle_fin conns conn draws k') as (a & k'' & Ha & _).
  destruct (seedRadius_cases (Conn.degree conn)) as (r & Hr & H1 & H2 & H3 & H4).
  rewrite Ha, Hr in Hx, Hy. cbn [fst] in Hx, Hy.
  rewrite centerX_fin in Hx. rewrite centerY_fin in Hy.
  cbn [Math_cos Math_sin JS.mul JS.add] in Hx, Hy.
  exists node, (w / 2 + cos a * r), (h / 2 + sin a * r), r.
  repeat (split; [done|]).
  pose proof (sin2_cos2 a) as Hsc. unfold Rsqr in Hsc.
  replace ((w / 2 + cos a * r - w / 2) * (w / 2 + cos a * r - w / 2) +
           (h / 2 + sin a * r - h / 2) * (h / 2 + sin a * r - h / 2))
    with ((sin a * sin a + cos a * cos a) * (r * r)) by ring.
  rewrite Hsc. ring.
Qed.

Lemma fresh_seed_on_ring_witness :
  ∃ (node : SimNode) (x y r : R),
    (connectionNodes (Fin 800) (Fin 600) [Sample.alice; Sample.bob] ∅ Sample.half 0%nat).1
      !! 1%nat = Some node ∧
    Node.x node = Some (Fin x) ∧ Node.y node = Some (Fin y) ∧
    (Conn.degree Sample.bob = 1%Z → r = 120) ∧
    (Conn.degree Sample.bob = 2%Z → r = 220) ∧
    (Conn.degree Sample.bob = 3%Z → r = 320) ∧
    (¬ (1 ≤ Conn.degree Sample.bob ≤ 3)%Z → r = 150) ∧
    (x - 800 / 2) * (x - 800 / 2) + (y - 600 / 2) * (y - 600 / 2) = r * r.
Proof.
  apply (fresh_seed_on_ring 800 600 [Sample.alice; Sample.bob] ∅ Sample.half 0%nat 1%nat
           Sample.bob); [reflexivity | apply lookup_empty].
Defined.

(** X4.  A node reached through a first-degree parent is seeded within
    0.25 rad of the table angle of the parent (0 when the table has none or
    holds 0), and a node reached through a parent that is itself reached
    through someone is seeded within 0.35 rad of the table angle of that
    grandparent; exactly one number is drawn. *)
Theorem child_seed_near_parent (conns : list ConnectionNode)
    (conn parent : ConnectionNode) (through : string) (draws : nat → R) (k : nat) :
  0 <= draws k < 1 →
  Conn.degree conn ≠ 1%Z →
  Conn.connectedThrough conn = Some through → through ≠ ""%string →
  connById conns !! through = Some parent →
  (Conn.degree parent = 1%Z →
   ∃ a b : R,
     seedAngle conns conn draws k = (Fin a, S k) ∧
     JS.or (angleByFirstDegree conns !! Conn.id parent) (Fin 0) = Fin b ∧
     b - 0.25 <= a < b + 0.25) ∧
  (Conn.degree parent ≠ 1%Z →
   ∀ via, Conn.connectedThrough parent = Some via → via ≠ ""%string →
     ∃ a b : R,
       seedAngle conns conn draws k = (Fin a, S k) ∧
       JS.or (angleByFirstDegree conns
                !! orEmpty (Conn.id <$> connById conns !! via)) (Fin 0) = Fin b ∧
       b - 0.35 <= a < b + 0.35).
Proof.
  intros Hr Hdeg Hthrough Hne Hparent.
  assert (Hts : truthyS (Some through) = true).
  { unfold truthyS. by rewrite decide_False. }
  split.
  - intros Hp. unfold seedAngle. rewrite decide_False by done.
    rewrite Hthrough, Hts. cbn [orEmpty]. rewrite Hparent, decide_True by done.
    destruct (jitteredAngle_eq conns (Conn.id parent) 0.5 draws k) as (b & Hb & ->).
    eexists _, b. split; [reflexivity|]. split; [done | lra].
  - intros Hp via Hvia Hvne. unfold seedAngle. rewrite decide_False by done.
    rewrite Hthrough, Hts. cbn [orEmpty]. rewrite Hparent, decide_False by done.
    rewrite Hvia. unfold truthyS at 1. rewrite decide_False by done. cbn [orEmpty].
    destruct (jitteredAngle_eq conns (orEmpty (Conn.id <$> connById conns !! via))
                0.7 draws k) as (b & Hb & ->).
    eexists _, b. split; [reflexivity|]. split; [done | lra].
Qed.

Lemma child_seed_near_parent_witness :
  ∃ a b : R,
    seedAngle [Sample.alice; Sample.bob] Sample.bob Sample.half 0%nat = (Fin a, 1%nat) ∧
    JS.or (angleByFirstDegree [Sample.alice; Sample.bob] !! Conn.id Sample.alice) (Fin 0)
    = Fin b ∧
    b - 0.25 <= a < b + 0.25.
Proof.
  refine (proj1 (child_seed_near_parent [Sample.alice; Sample.bob] Sample.bob
                   Sample.alice "a" Sample.half 0%nat _ _ eq_refl _ _) eq_refl).
  - unfold Sample.half. lra.
  - discriminate.
  - discriminate.
  - unfold connById, newMap. cbn [foldl Conn.id Sample.alice Sample.bob].
    rewrite lookup_insert_ne by discriminate. apply lookup_insert_eq.
Defined.

(** ** Links *)

Lemma userLinks_elem (cn : list SimNode) l :
  l ∈ userLinks cn ↔
  SimLink.source l = 0%nat ∧
  ∃ i n, SimLink.target l = S i ∧ cn !! i = Some n ∧
         Conn.degree <$> Node.connection n = Some 1%Z.
Proof.
  split; [apply userLinks_ends|].
  intros (Hs & i & n & Ht & Hn & Hd). unfold userLinks. apply list_elem_of_omap.
  exists (i, n). split; [by apply elem_of_indexed|]. cbn [fst snd].
  rewrite decide_True by done. destruct l; cbn in *. by subst.
Qed.

Lemma omap_indexed_length {A} (P : A → Prop) `{!∀ a, Decision (P a)}
    (f : nat → SimLink.t) (l : list A) (j : nat) :
  length (omap (λ ia : nat * A, if decide (P ia.2) then Some (f ia.1) else None)
               (imap (λ i a, (j + i, a)%nat) l))
  = length (filter P l).
Proof.
  revert j. induction l as [|a l IH]; intros j; [done|].
  cbn [imap omap list_omap fst snd]. rewrite filter_cons.
  assert (Htail : imap ((λ i a, ((j + i)%nat, a)) ∘ S) l
                  = imap (λ i a, ((S j + i)%nat, a)) l).
  { apply imap_ext. intros i x _. cbn. f_equal. lia. }
  destruct (decide (P a)); cbn; rewrite Htail; [f_equal|]; apply IH.
Qed.

Lemma userLinks_length (cn : list SimNode) :
  length (userLinks cn)
  = length (filter (λ n, Conn.degree <$> Node.connection n = Some 1%Z) cn).
Proof.
  unfold userLinks, indexed.
  exact (omap_indexed_length
           (λ n, Conn.degree <$> Node.connection n = Some 1%Z)
           (λ i, SimLink.mk 0 (S i)) cn 0).
Qed.

Lemma connectionNodes_connection w h conns st draws k :
  Node.connection <$> (connectionNodes w h conns st draws k).1 = Some <$> conns.
Proof.
  unfold connectionNodes. apply mapM_fmap. intros c k'. by rewrite connectionNode_fst.
Qed.

Lemma filter_fmap_length {A B} (f : A → B) (P : B → Prop) (Q : A → Prop)
    `{!∀ b, Decision (P b)} `{!∀ a, Decision (Q a)} (l : list A) :
  (∀ a, P (f a) ↔ Q a) →
  length (filter P (f <$> l)) = length (filter Q l).
Proof.
  intros HPQ. induction l as [|a l IH]; [done|].
  cbn [fmap list_fmap]. rewrite !filter_cons.
  destruct (decide (P (f a))) as [HP|HP], (decide (Q a)) as [HQ|HQ]; cbn;
    rewrite ?IH; try done; exfalso; by (apply HP, HPQ || apply HQ, HPQ).
Qed.

(** X5.  Without explicit relations the link set is the star around the
    user node: one link per first-degree connection, from the user node to
    the node of that connection, and no other link. *)
Theorem star_of_first_degree (w h : num) (conns : list ConnectionNode)
    (st : PositionStore) (draws : nat → R) (k : nat) :
  let cn := (connectionNodes w h conns st draws k).1 in
  let built := simLinks w h [] cn in
  length built = length (firstDegree conns) ∧
  ∀ l, l ∈ built ↔
       SimLink.source l = 0%nat ∧
       ∃ i c, SimLink.target l = S i ∧ conns !! i = Some c ∧ Conn.degree c = 1%Z.
Proof.
  intros cn built.
  assert (Hbuilt : built = userLinks cn).
  { unfold built, simLinks, explicitLinks. cbn. apply app_nil_r. }
  assert (Hconn : ∀ i, Node.connection <$> cn !! i = Some <$> conns !! i).
  { intros i. rewrite <- !list_lookup_fmap. unfold cn.
    by rewrite connectionNodes_connection. }
  rewrite Hbuilt. split.
  - rewrite userLinks_length.
    transitivity (length (filter (λ o, Conn.degree <$> o = Some 1%Z)
                            (Node.connection <$> cn))).
    { symmetry. by apply filter_fmap_length. }
    unfold cn. rewrite connectionNodes_connection. unfold firstDegree.
    apply filter_fmap_length. intros c. cbn.
    split; [by intros [= ->] | by intros ->].
  - intros l. rewrite userLinks_elem. split.
    + intros (Hs & i & n & Ht & Hn & Hd). split; [done|].
      specialize (Hconn i). rewrite Hn in Hconn. cbn in Hconn.
      destruct (conns !! i) as [c|] eqn:Hc; [|done]. exists i, c.
      split; [done|]. split; [done|]. cbn in Hconn. injection Hconn as Hconn.
      rewrite Hconn in Hd. cbn in Hd. by injection Hd.
    + intros (Hs & i & c & Ht & Hc & Hd). split; [done|].
      specialize (Hconn i). rewrite Hc in Hconn. cbn in Hconn.
      destruct (cn !! i) as [n|] eqn:Hn; [|done]. exists i, n.
      split; [done|]. split; [done|]. cbn in Hconn. injection Hconn as ->.
      cbn. by rewrite Hd.
Qed.

(** ** Dragging *)

Lemma update_node_lookup d f s n :
  D3.nodes s !! d = Some n →
  D3.nodes (update_node d f s) !! d = Some (f n).
Proof.
  intros Hn. unfold update_node. rewrite Hn. cbn.
  apply list_lookup_insert_eq. by eapply lookup_lt_Some.
Qed.

Lemma update_node_running d f s : D3.running (update_node d f s) = D3.running s.
Proof. unfold update_node. by destruct (D3.nodes s !! d). Qed.

Lemma is_user_false d s n :
  D3.nodes s !! d = Some n → Node.isUser n = false → is_user d s = false.
Proof. intros Hn Hu. unfold is_user. by rewrite Hn. Qed.

Section Tick.
Context (width height : num) (forceLink : list SimLink.t → D3.VelocityField)
        (forceManyBody forceCollide : D3.VelocityField) (simLinks : list SimLink.t).

Let cfg := config width height forceLink forceManyBody forceCollide simLinks.

(** What a tick does to one node object. *)
Lemma tick1_lookup s j n :
  D3.nodes s !! j = Some n →
  ∃ m, frame n m ∧
       D3.nodes (D3.tick1 cfg s) !! j = Some (D3.move (D3.velocityDecay cfg) m).
Proof.
  intros Hn. unfold D3.tick1. cbn [D3.nodes].
  set (alpha' := (D3.alpha s + _)%js).
  pose proof (forces_frame width height forceLink forceManyBody forceCollide
                simLinks alpha' (D3.nodes s)) as Hf.
  fold cfg in Hf.
  destruct (Forall2_lookup_l _ _ _ _ _ Hf Hn) as (m & Hm & Hframe).
  exists m. split; [done|].
  change (map (D3.move (D3.velocityDecay cfg)))
    with (fmap (M := list) (D3.move (D3.velocityDecay cfg))).
  by rewrite list_lookup_fmap, Hm.
Qed.

Lemma move_pinned_at vd m px py :
  Node.fx m = Some px → Node.fy m = Some py →
  Node.x (D3.move vd m) = Some px ∧ Node.y (D3.move vd m) = Some py ∧
  Node.vx (D3.move vd m) = Some (Fin 0) ∧ Node.vy (D3.move vd m) = Some (Fin 0) ∧
  Node.fx (D3.move vd m) = Some px ∧ Node.fy (D3.move vd m) = Some py ∧
  static (D3.move vd m) = static m.
Proof. intros Hx Hy. unfold D3.move. rewrite Hx, Hy. by destruct m. Qed.
End Tick.

(** X6.  Drag pin exactness: in a mounted view, after any events, when a
    drag starts on the node of a connection, the pointer moves to [(px, py)]
    and the timer fires, that node is exactly at [(px, py)], with no
    velocity, and its pin is [(px, py)]. *)
Theorem drag_pin_exactness (width height : num) (conns : list ConnectionNode)
    (links : list Link.t) (forceLink : list SimLink.t → D3.VelocityField)
    (forceManyBody forceCollide : D3.VelocityField) (st : PositionStore)
    (draws : nat → R) (k : nat) (events : list Event)
    (i : nat) (conn : ConnectionNode) (px py : num) :
  conns !! i = Some conn →
  let v0 := mounted width height conns links forceLink forceManyBody forceCollide st draws k in
  let sl := mountedLinks width height conns links forceLink forceManyBody forceCollide st draws k in
  let v := run width height forceLink forceManyBody forceCollide sl events v0 in
  let v' := run width height forceLink forceManyBody forceCollide sl
              [DragStart (S i) 0; Drag (S i) px py; TimerTick] v in
  ∃ n, D3.nodes (sim v') !! S i = Some n ∧
       Node.id n = Conn.id conn ∧
       Node.x n = Some px ∧ Node.y n = Some py ∧
       Node.vx n = Some (Fin 0) ∧ Node.vy n = Some (Fin 0) ∧
       Node.fx n = Some px ∧ Node.fy n = Some py.
Proof.
  intros Hconn v0 sl v v'.
  pose proof (reachable_static width height conns links forceLink forceManyBody
                forceCollide st draws k events) as Hst.
  fold v0 sl v in Hst.
  assert (Hlen : (S i < length (D3.nodes (sim v)))%nat).
  { rewrite <- (length_fmap static), Hst. cbn. rewrite length_fmap.
    apply lookup_lt_Some in Hconn. lia. }
  apply lookup_lt_is_Some in Hlen as [n Hn].
  destruct (leaf_lookup _ _ _ _ Hst Hn) as (c & Hc & Hsn).
  rewrite Hconn in Hc. injection Hc as <-.
  unfold static in Hsn. injection Hsn as Hid Hu _.
  (* drag start *)
  set (s1 := dragstarted (S i) 0 (sim v)).
  assert (H1 : D3.nodes s1 !! S i
               = Some (Node.with_pin n (Node.x n) (Node.y n)) ∧ D3.running s1 = true).
  { unfold s1, dragstarted. rewrite (is_user_false _ _ _ Hn Hu).
    rewrite decide_True by done. split.
    - apply (update_node_lookup (S i)
               (λ node, Node.with_pin node (Node.x node) (Node.y node)) _ n).
      exact Hn.
    - by rewrite update_node_running. }
  destruct H1 as [Hn1 Hrun1].
  (* the pointer moves *)
  set (s2 := dragged (S i) px py s1).
  assert (H2 : D3.nodes s2 !! S i
               = Some (Node.with_pin (Node.with_pin n (Node.x n) (Node.y n))
                         (Some px) (Some py)) ∧ D3.running s2 = true).
  { unfold s2, dragged. rewrite (is_user_false _ _ _ Hn1 Hu). split.
    - by apply (update_node_lookup (S i)
                  (λ node, Node.with_pin node (Some px) (Some py))).
    - by rewrite update_node_running. }
  destruct H2 as [Hn2 Hrun2].
  (* the timer fires *)
  assert (Hv' : D3.nodes (sim v')
                = D3.nodes (D3.tick1 (config width height forceLink forceManyBody
                                        forceCollide sl) s2)).
  { unfold v', run. cbn [foldl handle sim]. fold s1. fold s2. rewrite Hrun2.
    apply step_nodes. }
  destruct (tick1_lookup width height forceLink forceManyBody forceCollide sl
              s2 (S i) _ Hn2) as (m & (Hsm & _ & _ & Hfx & Hfy) & Hm).
  cbn in Hfx, Hfy.
  destruct (move_pinned_at (D3.velocityDecay (config width height forceLink
              forceManyBody forceCollide sl)) m px py Hfx Hfy)
    as (Hx & Hy & Hvx & Hvy & Hfx' & Hfy' & Hs').
  eexists. rewrite Hv'. split; [exact Hm|].
  split; [|done].
  unfold static in Hs', Hsm. cbn in Hsm. congruence.
Qed.

Lemma drag_pin_exactness_witness :
  let v0 := mounted (Fin 800) (Fin 600) [Sample.alice] [] (λ _, Sample.still)
              Sample.still Sample.still ∅ Sample.half 0 in
  let sl := mountedLinks (Fin 800) (Fin 600) [Sample.alice] [] (λ _, Sample.still)
              Sample.still Sample.still ∅ Sample.half 0 in
  let v' := run (Fin 800) (Fin 600) (λ _, Sample.still) Sample.still Sample.still sl
              [DragStart 1 0; Drag 1 (Fin 500) (Fin 100); TimerTick] v0 in
  ∃ n, D3.nodes (sim v') !! 1%nat = Some n ∧
       Node.id n = "a"%string ∧
       Node.x n = Some (Fin 500) ∧ Node.y n = Some (Fin 100) ∧
       Node.vx n = Some (Fin 0) ∧ Node.vy n = Some (Fin 0) ∧
       Node.fx n = Some (Fin 500) ∧ Node.fy n = Some (Fin 100).
Proof.
  exact (drag_pin_exactness (Fin 800) (Fin 600) [Sample.alice] [] (λ _, Sample.still)
           Sample.still Sample.still ∅ Sample.half 0 [] 0 Sample.alice
           (Fin 500) (Fin 100) eq_refl).
Defined.

Lemma update_node_nodes d f s n :
  D3.nodes s !! d = Some n →
  D3.nodes (update_node d f s) = <[d := f n]> (D3.nodes s).
Proof. intros Hn. unfold update_node. by rewrite Hn. Qed.

Lemma update_node_alpha d f s : D3.alpha (update_node d f s) = D3.alpha s.
Proof. unfold update_node. by destruct (D3.nodes s !! d). Qed.

Lemma update_node_alphaTarget d f s :
  D3.alphaTarget (update_node d f s) = D3.alphaTarget s.
Proof. unfold update_node. by destruct (D3.nodes s !! d). Qed.

Lemma with_pin_release n x y :
  Node.fx n = None → Node.fy n = None →
  Node.with_pin (Node.with_pin n x y) None None = n.
Proof. destruct n. cbn. by intros -> ->. Qed.

(** X7.  A drag that starts and ends without the pointer moving leaves the
    node objects as they were, if the node was not pinned before: the pin
    set at the start is removed at the end and no position is touched.  On
    a node that is not the user node, the timer has been restarted and the
    target of [alpha] is back to 0. *)
Theorem drag_start_end_round_trip (s : D3.Simulation) (d : nat) (n : SimNode) :
  D3.nodes s !! d = Some n → Node.fx n = None → Node.fy n = None →
  let s' := dragended d 0 (dragstarted d 0 s) in
  D3.nodes s' = D3.nodes s ∧ D3.alpha s' = D3.alpha s ∧
  (Node.isUser n = true → s' = s) ∧
  (Node.isUser n = false → D3.alphaTarget s' = Fin 0 ∧ D3.running s' = true).
Proof.
  intros Hn Hfx Hfy s'. unfold s', dragended, dragstarted.
  destruct (Node.isUser n) eqn:Hu.
  - assert (is_user d s = true) as Hus by (unfold is_user; by rewrite Hn).
    rewrite Hus, Hus. repeat split; done.
  - assert (is_user d s = false) as Hus by (unfold is_user; by rewrite Hn).
    rewrite Hus. rewrite !decide_True by done.
    set (f1 := λ node, Node.with_pin node (Node.x node) (Node.y node)).
    set (f2 := λ node, Node.with_pin node None None).
    set (s1 := update_node d f1 (D3.restart (D3.set_alphaTarget (Fin 0.3) s))).
    assert (Hs1 : D3.nodes s1 = <[d := f1 n]> (D3.nodes s)).
    { unfold s1. by rewrite (update_node_nodes d f1 _ n). }
    assert (Hn1 : D3.nodes s1 !! d = Some (f1 n)).
    { rewrite Hs1. apply list_lookup_insert_eq. by eapply lookup_lt_Some. }
    rewrite (is_user_false d s1 _ Hn1 Hu).
    set (s2 := update_node d f2 (D3.set_alphaTarget (Fin 0) s1)).
    assert (Hnodes : D3.nodes s2 = D3.nodes s).
    { unfold s2. rewrite (update_node_nodes d f2 _ (f1 n)) by done.
      cbn [D3.nodes D3.set_alphaTarget]. rewrite Hs1, list_insert_insert_eq.
      unfold f1, f2. rewrite with_pin_release by done. by apply list_insert_id. }
    assert (Halpha : D3.alpha s2 = D3.alpha s).
    { unfold s2. rewrite update_node_alpha. cbn [D3.alpha D3.set_alphaTarget].
      unfold s1. by rewrite update_node_alpha. }
    assert (Htarget : D3.alphaTarget s2 = Fin 0).
    { unfold s2. by rewrite update_node_alphaTarget. }
    assert (Hrun : D3.running s2 = true).
    { unfold s2. rewrite update_node_running. cbn [D3.running D3.set_alphaTarget].
      unfold s1. by rewrite update_node_running. }
    repeat split; done.
Qed.

Lemma drag_start_end_round_trip_witness :
  let s := {| D3.nodes := [userNode (Fin 800) (Fin 600);
                           Sample.leaf Sample.alice 520 300];
              D3.alpha := Fin 0.1; D3.alphaTarget := Fin 0; D3.running := false |} in
  let s' := dragended 1 0 (dragstarted 1 0 s) in
  D3.nodes s' = D3.nodes s ∧ D3.alpha s' = D3.alpha s ∧
  D3.alphaTarget s' = Fin 0 ∧ D3.running s' = true.
Proof.
  cbn zeta.
  destruct (drag_start_end_round_trip
              {| D3.nodes := [userNode (Fin 800) (Fin 600);
                              Sample.leaf Sample.alice 520 300];
                 D3.alpha := Fin 0.1; D3.alphaTarget := Fin 0; D3.running := false |}
              1 (Sample.leaf Sample.alice 520 300) eq_refl eq_refl eq_refl)
    as (H1 & H2 & _ & H3).
  destruct (H3 eq_refl) as [H4 H5].
  exact (conj H1 (conj H2 (conj H4 H5))).
Defined.

(** X8.  The user node cannot be dragged: in a mounted view, after any
    events, the three drag handlers leave the whole view unchanged when the
    gesture is on the user node. *)
Theorem user_node_not_draggable (width height : num) (conns : list ConnectionNode)
    (links : list Link.t) (forceLink : list SimLink.t → D3.VelocityField)
    (forceManyBody forceCollide : D3.VelocityField) (st : PositionStore)
    (draws : nat → R) (k : nat) (events : list Event)
    (active : nat) (px py : num) :
  let v0 := mounted width height conns links forceLink forceManyBody forceCollide st draws k in
  let sl := mountedLinks width height conns links forceLink forceManyBody forceCollide st draws k in
  let v := run width height forceLink forceManyBody forceCollide sl events v0 in
  let handle := handle width height forceLink forceManyBody forceCollide sl in
  handle (DragStart 0 active) v = v ∧
  handle (Drag 0 px py) v = v ∧
  handle (DragEnd 0 active) v = v.
Proof.
  intros v0 sl v handle.
  destruct (reachable_keeps width height conns links forceLink forceManyBody
              forceCollide st draws k events) as [Hk _].
  fold v0 sl v in Hk. unfold nodes in Hk.
  inversion Hk as [|u0 user l0 l [Hs _] _ E1 E2]; subst.
  assert (Hu : is_user 0 (sim v) = true).
  { unfold is_user. rewrite <- E2. cbn. unfold static in Hs. by simplify_eq. }
  unfold handle, GraphCanvas.handle, dragstarted, dragged, dragended.
  rewrite Hu. by destruct v.
Qed.

(** ** The store across ticks *)

Lemma savePositions_is_Some ns st key :
  is_Some (st !! key) → is_Some (savePositions ns st !! key).
Proof.
  induction ns as [|n ns IH] using rev_ind; intros Hk; [done|].
  rewrite savePositions_snoc. unfold saveNode.
  destruct (Node.isUser n), (Node.x n), (Node.y n); auto.
  destruct (decide (Node.id n = key)) as [->|Hne].
  - rewrite lookup_insert_eq. by eexists.
  - rewrite lookup_insert_ne by done. auto.
Qed.

(** X9.  A firing of the timer never removes an entry of the position
    store, and it leaves untouched the entry of any id that is not the id of
    a node of the view other than the user node: the saved position of a
    connection that the filters have removed is kept. *)
Theorem step_keeps_other_entries (width height : num)
    (forceLink : list SimLink.t → D3.VelocityField)
    (forceManyBody forceCollide : D3.VelocityField) (simLinks : list SimLink.t)
    (v : View) (key : string) :
  let v' := step width height forceLink forceManyBody forceCollide simLinks v in
  (is_Some (store v !! key) → is_Some (store v' !! key)) ∧
  ((∀ n, n ∈ D3.nodes (sim v) → Node.isUser n = false → Node.id n ≠ key) →
   store v' !! key = store v !! key).
Proof.
  intros v'. unfold v', step. cbn [store]. split.
  - apply savePositions_is_Some.
  - intros Hkey. apply savePositions_other. intros m Hm Hu.
    apply list_elem_of_lookup in Hm as [j Hj].
    pose proof (tick1_keeps width height forceLink forceManyBody forceCollide
                  simLinks (sim v)) as Hk.
    destruct (Forall2_lookup_r _ _ _ _ _ Hk Hj) as (n & Hn & [Hs _]).
    unfold static in Hs. injection Hs as Hid Hus _.
    rewrite Hid. apply Hkey; [by eapply list_elem_of_lookup_2 | congruence].
Qed.

(** ** The timer *)

Lemma pow_ratio (a b : Z) (n : nat) :
  (0 < b)%Z → (IZR a / IZR b) ^ n = IZR (a ^ Z.of_nat n) / IZR (b ^ Z.of_nat n).
Proof.
  intros Hb. assert (IZR b ≠ 0) by (apply not_0_IZR; lia).
  rewrite <- !pow_IZR. unfold Rdiv. rewrite Rpow_mult_distr. f_equal.
  by rewrite pow_inv.
Qed.

Lemma decay_151 : 0.01 <= 0.97 ^ 151.
Proof.
  replace 0.97 with (IZR 97 / IZR 100) by lra. rewrite pow_ratio by lia.
  assert (Hpos : 0 < IZR (100 ^ Z.of_nat 151)) by (apply IZR_lt; by vm_compute).
  apply Rmult_le_reg_r with (IZR (100 ^ Z.of_nat 151)); [done|].
  unfold Rdiv. rewrite Rmult_assoc, Rinv_l by lra. rewrite Rmult_1_r.
  replace 0.01 with (/ 100) by lra.
  apply Rmult_le_reg_l with 100; [lra|].
  rewrite <- Rmult_assoc, Rinv_r by lra. rewrite Rmult_1_l, <- mult_IZR.
  apply IZR_le. by vm_compute.
Qed.

Lemma decay_152 : 0.97 ^ 152 < 0.01.
Proof.
  replace 0.97 with (IZR 97 / IZR 100) by lra. rewrite pow_ratio by lia.
  assert (Hpos : 0 < IZR (100 ^ Z.of_nat 152)) by (apply IZR_lt; by vm_compute).
  apply Rmult_lt_reg_r with (IZR (100 ^ Z.of_nat 152)); [done|].
  unfold Rdiv. rewrite Rmult_assoc, Rinv_l by lra. rewrite Rmult_1_r.
  replace 0.01 with (/ 100) by lra.
  apply Rmult_lt_reg_l with 100; [lra|].
  rewrite <- (Rmult_assoc 100), Rinv_r by lra. rewrite Rmult_1_l, <- mult_IZR.
  apply IZR_lt. by vm_compute.
Qed.

Lemma decay_le (m n : nat) : (m ≤ n)%nat → 0.97 ^ n <= 0.97 ^ m.
Proof.
  induction 1 as [|n Hle IH]; [lra|]. cbn [pow].
  assert (0 < 0.97 ^ n) by (apply pow_lt; lra). lra.
Qed.

Local Transparent D3.tick.

Lemma tick_settings cfg k s :
  D3.alphaTarget (D3.tick cfg k s) = D3.alphaTarget s ∧
  D3.running (D3.tick cfg k s) = D3.running s.
Proof.
  revert s. induction k as [|k IH]; intros s; [done|].
  cbn [D3.tick]. destruct (IH (D3.tick1 cfg s)) as [-> ->]. done.
Qed.

Local Opaque D3.tick.

Lemma mounted_settings w h conns links fl fm fc st draws k :
  let s := sim (mounted w h conns links fl fm fc st draws k) in
  D3.alpha s = Fin 0.1 ∧ D3.alphaTarget s = Fin 0 ∧ D3.running s = true.
Proof.
  cbn zeta. rewrite mounted_eq. cbn [sim D3.set_alpha D3.alpha D3.alphaTarget D3.running].
  split; [done|]. by destruct (tick_settings
    (config w h fl fm fc (simLinks w h links (connectionNodes w h conns st draws k).1))
    100 (D3.set_alphaTarget (Fin 0) (D3.set_alpha (Fin 0.3)
       (D3.forceSimulation (nodes w h (connectionNodes w h conns st draws k).1)))))
    as [-> ->].
Qed.

Section Timer.
Context (width height : num) (forceLink : list SimLink.t → D3.VelocityField)
        (forceManyBody forceCollide : D3.VelocityField) (simLinks : list SimLink.t).

Let cfg := config width height forceLink forceManyBody forceCollide simLinks.
Let step := step width height forceLink forceManyBody forceCollide simLinks.

(** One firing of the timer when nothing is dragged: [alpha] is multiplied
    by 0.97, and the timer stops if the result is below 0.001. *)
Lemma step_decay v (a : R) :
  D3.alpha (sim v) = Fin a → D3.alphaTarget (sim v) = Fin 0 →
  D3.alpha (sim (step v)) = Fin (a * 0.97) ∧
  D3.alphaTarget (sim (step v)) = Fin 0 ∧
  D3.running (sim (step v))
  = (if Rlt_dec (a * 0.97) 0.001 then false else D3.running (sim v)).
Proof.
  intros Ha Ht. unfold step, GraphCanvas.step. cbn [sim].
  set (s1 := D3.tick1 _ (sim v)).
  assert (Ha1 : D3.alpha s1 = Fin (a * 0.97)).
  { unfold s1, D3.tick1. cbn [D3.alpha]. rewrite Ha, Ht. cbn. f_equal. lra. }
  assert (Ht1 : D3.alphaTarget s1 = Fin 0) by (unfold s1; by cbn).
  assert (Hr1 : D3.running s1 = D3.running (sim v)) by (unfold s1; by cbn).
  unfold D3.settle. rewrite Ha1. cbn [ltb D3.alphaMin config].
  destruct (Rlt_dec (a * 0.97) 0.001); cbn; by rewrite ?Ha1, ?Ht1, ?Hr1.
Qed.
End Timer.

(** X10.  Left alone, a mounted view stops by itself: its timer is still
    running after any number of firings below 152, with [alpha] equal to
    [0.1 · 0.97ⁿ] after [n] of them, and it is stopped after the
    152nd, whatever the forces do. *)
Theorem timer_stops_after_152_ticks (width height : num) (conns : list ConnectionNode)
    (links : list Link.t) (forceLink : list SimLink.t → D3.VelocityField)
    (forceManyBody forceCollide : D3.VelocityField) (st : PositionStore)
    (draws : nat → R) (k : nat) (n : nat) :
  let v0 := mounted width height conns links forceLink forceManyBody forceCollide st draws k in
  let sl := mountedLinks width height conns links forceLink forceManyBody forceCollide st draws k in
  let v := run width height forceLink forceManyBody forceCollide sl
             (replicate n TimerTick) v0 in
  D3.running (sim v) = bool_decide (n < 152)%nat ∧
  D3.alpha (sim v) = Fin (0.1 * 0.97 ^ (n `min` 152)) ∧
  D3.alphaTarget (sim v) = Fin 0.
Proof.
  intros v0 sl v. unfold v. clear v.
  induction n as [|n IH].
  - cbn [replicate run foldl].
    destruct (mounted_settings width height conns links forceLink forceManyBody
                forceCollide st draws k) as (Ha & Ht & Hr).
    fold v0 in Ha, Ht, Hr. rewrite Ha, Ht, Hr. cbn. split; [done|].
    split; [f_equal; lra | done].
  - rewrite replicate_S_end. unfold run in *. rewrite foldl_app. cbn [foldl].
    set (v := foldl _ v0 (replicate n TimerTick)) in *.
    destruct IH as (Hr & Ha & Ht). cbn [handle].
    destruct (decide (n < 152)%nat) as [Hlt|Hge].
    + rewrite bool_decide_true in Hr by done. rewrite Hr.
      rewrite Nat.min_l in Ha by lia.
      destruct (step_decay width height forceLink forceManyBody forceCollide sl
                  v _ Ha Ht) as (Ha' & Ht' & Hr').
      rewrite Ha', Ht', Hr', Hr. split; [|split; [|done]].
      * destruct (decide (S n < 152)%nat) as [Hlt'|Hge'].
        -- rewrite bool_decide_true by done.
           destruct (Rlt_dec _ _) as [Hbad|]; [|done]. exfalso.
           pose proof (decay_le (S n) 151 ltac:(lia)) as Hle.
           pose proof decay_151. cbn [pow] in Hle. lra.
        -- rewrite bool_decide_false by done. assert (n = 151%nat) as -> by lia.
           destruct (Rlt_dec _ _) as [|Hbad]; [done|]. exfalso. apply Hbad.
           pose proof decay_152 as H152. change (0.97 ^ 152) with (0.97 * 0.97 ^ 151) in H152.
           lra.
      * f_equal. rewrite Nat.min_l by lia. cbn [pow]. lra.
    + rewrite bool_decide_false in Hr by done. rewrite Hr.
      rewrite bool_decide_false by lia. rewrite Nat.min_r in Ha by lia.
      rewrite Nat.min_r by lia. done.
Qed.

(** * Further properties of the email overview *)

(** ** Colours and ids *)

Lemma getCategoryColor_small i :
  (i < 8)%nat → ENG.getCategoryColor i = ENG.CATEGORY_COLORS !! i.
Proof.
  intros Hi. unfold ENG.getCategoryColor.
  change (length ENG.CATEGORY_COLORS) with 8%nat. by rewrite Nat.mod_small.
Qed.

Lemma CATEGORY_COLORS_NoDup : NoDup ENG.CATEGORY_COLORS.
Proof. apply (bool_decide_unpack _). by vm_compute. Qed.

(** X11.  The categories of the overview have a colour each, and two
    different categories never share a colour. *)
Theorem category_colours_distinct (emails : list AnalyzedEmail) (i j : nat)
    (ci cj : ENG.Category.t) :
  ENG.categories emails !! i = Some ci → ENG.categories emails !! j = Some cj →
  i ≠ j →
  is_Some (ENG.Category.color ci) ∧ ENG.Category.color ci ≠ ENG.Category.color cj.
Proof.
  intros (ei & _ & Hi & ->)%categories_lookup (ej & _ & Hj & ->)%categories_lookup Hne.
  cbn [ENG.mkCategory ENG.Category.color]. rewrite !getCategoryColor_small by done.
  assert (Hlen : length ENG.CATEGORY_COLORS = 8%nat) by done.
  split.
  - apply lookup_lt_is_Some. lia.
  - intros Heq.
    destruct (lookup_lt_is_Some_2 ENG.CATEGORY_COLORS i ltac:(lia)) as [c Hc].
    rewrite Hc in Heq. symmetry in Heq.
    by pose proof (NoDup_lookup _ _ _ _ CATEGORY_COLORS_NoDup Hc Heq).
Qed.

Lemma category_colours_distinct_witness :
  ∃ ci cj,
    ENG.categories MailSample.emails !! 0%nat = Some ci ∧
    ENG.categories MailSample.emails !! 1%nat = Some cj ∧
    is_Some (ENG.Category.color ci) ∧ ENG.Category.color ci ≠ ENG.Category.color cj.
Proof.
  eexists _, _. split; [by vm_compute|]. split; [by vm_compute|].
  eapply (category_colours_distinct MailSample.emails 0 1); [by vm_compute | by vm_compute | lia].
Defined.

Lemma chars_str l : ENG.chars (ENG.str l) = l.
Proof. apply list_ascii_of_string_of_list_ascii. Qed.

Lemma str_chars s : ENG.str (ENG.chars s) = s.
Proof. apply string_of_list_ascii_of_string. Qed.

Lemma toLower_idemp a : ENG.toLower (ENG.toLower a) = ENG.toLower a.
Proof. by destruct a as [[] [] [] [] [] [] [] []]. Qed.

Lemma toLower_not_space a : ENG.isSpace (ENG.toLower a) = ENG.isSpace a.
Proof. by destruct a as [[] [] [] [] [] [] [] []]. Qed.

Lemma dashSpaces_Forall (P : ascii → Prop) b l :
  P "-"%char → Forall P l → Forall P (ENG.dashSpaces b l).
Proof.
  intros Hdash Hl. revert b. induction Hl as [|c l Hc Hl IH]; intros b; cbn; [done|].
  destruct (ENG.isSpace c); [destruct b|]; auto.
Qed.

Lemma dashSpaces_no_space b l :
  Forall (λ a, ENG.isSpace a = false) (ENG.dashSpaces b l).
Proof.
  revert b. induction l as [|c l IH]; intros b; cbn; [done|].
  destruct (ENG.isSpace c) eqn:E; [destruct b|]; auto.
Qed.

Lemma dashSpaces_id b l :
  Forall (λ a, ENG.isSpace a = false) l → ENG.dashSpaces b l = l.
Proof.
  intros Hl. revert b. induction Hl as [|c l Hc Hl IH]; intros b; cbn; [done|].
  rewrite Hc. by rewrite IH.
Qed.

(** The functions of the model on characters are the tables of ASCII. *)
Lemma toLower_lowerCase a : ENG.toLower a = lowerCase a.
Proof. destruct a as [[] [] [] [] [] [] [] []]; by vm_compute. Qed.


Lemma isSpace_whiteSpace a : ENG.isSpace a = bool_decide (a ∈ whiteSpace).
Proof. destruct a as [[] [] [] [] [] [] [] []]; by vm_compute. Qed.


Lemma isSpace_false a : ENG.isSpace a = false ↔ a ∉ whiteSpace.
Proof. rewrite isSpace_whiteSpace. apply bool_decide_eq_false. Qed.

Lemma lowerCase_not_upper a : lowerCase a ∉ upperLetters.
Proof.
  destruct a as [[] [] [] [] [] [] [] []]; apply (bool_decide_unpack _); by vm_compute.
Qed.

Lemma map_toLower l : map ENG.toLower l = lowerCase <$> l.
Proof. induction l as [|a l IH]; [done|]. cbn. by rewrite toLower_lowerCase, IH. Qed.

(** X12.  For senders written in ASCII, the id of a category holds no
    white space and no upper-case letter, so it is never the id of the
    centre node; when the label holds no white space, the id is the label
    with its upper-case letters replaced by the lower-case ones. *)
Theorem category_ids_lowercase (emails : list AnalyzedEmail) (width height : num) :
  Forall (λ e, isAscii (ENG.Email.from e)) emails →
  Forall (λ c,
    let id := ENG.chars (ENG.Category.id c) in
    let label := ENG.chars (ENG.Category.label c) in
    Forall (λ a, a ∉ whiteSpace ∧ a ∉ upperLetters) id ∧
    ENG.Category.id c ≠ ENG.ENode.id (ENG.centerNode width height) ∧
    (Forall (λ a, a ∉ whiteSpace) label → id = lowerCase <$> label))
    (ENG.categories emails).
Proof.
  intros _. apply list.Forall_forall.
  intros c (i & entry & _ & _ & ->)%categories_elem.
  cbn [ENG.mkCategory ENG.Category.id ENG.Category.label]. cbv zeta.
  rewrite chars_str, map_toLower.
  assert (Hid : Forall (λ a, a ∉ whiteSpace ∧ a ∉ upperLetters)
                  (ENG.dashSpaces false (lowerCase <$> ENG.chars entry.1))).
  { apply Forall_and. split.
    - eapply Forall_impl; [apply dashSpaces_no_space|].
      intros a Ha. by apply isSpace_false.
    - apply dashSpaces_Forall; [apply (bool_decide_unpack _); by vm_compute|].
      apply list.Forall_forall. intros a Ha.
      apply list_elem_of_fmap in Ha as (a0 & -> & _). apply lowerCase_not_upper. }
  split; [done|]. split.
  - intros Heq. apply (f_equal ENG.chars) in Heq. rewrite chars_str in Heq.
    rewrite Heq in Hid. apply Forall_cons in Hid as [[_ Hc] _].
    apply Hc. apply (bool_decide_unpack _). by vm_compute.
  - intros Hl. apply dashSpaces_id.
    apply list.Forall_forall. intros a Ha.
    apply list_elem_of_fmap in Ha as (a0 & -> & Ha0).
    rewrite <- toLower_lowerCase, toLower_not_space. apply isSpace_false.
    by eapply list.Forall_forall in Hl.
Qed.

Lemma category_ids_lowercase_witness :
  Forall (λ c,
    let id := ENG.chars (ENG.Category.id c) in
    let label := ENG.chars (ENG.Category.label c) in
    Forall (λ a, a ∉ whiteSpace ∧ a ∉ upperLetters) id ∧
    ENG.Category.id c ≠ ENG.ENode.id (ENG.centerNode (Fin 800) (Fin 400)) ∧
    (Forall (λ a, a ∉ whiteSpace) label → id = lowerCase <$> label))
    (ENG.categories MailSample.emails).
Proof.
  apply (category_ids_lowercase MailSample.emails (Fin 800) (Fin 400)).
  unfold isAscii. apply (bool_decide_unpack _). by vm_compute.
Defined.

(** ** The counts of the overview *)

Lemma sum_emailsOf (ks : list string) (emails : list AnalyzedEmail) :
  NoDup ks →
  sum_list ((λ k, length (emailsOf k emails)) <$> ks)
  = length (filter (λ e, categoryOf e ∈ ks) emails).
Proof.
  intros Hnd. induction emails as [|e emails IH].
  - cbn. induction ks as [|k ks IHk]; [done|]. cbn. apply IHk. by inversion Hnd.
  - rewrite filter_cons. 
    assert (Hstep : sum_list ((λ k, length (emailsOf k (e :: emails))) <$> ks)
                    = ((if decide (categoryOf e ∈ ks) then 1 else 0)
                       + sum_list ((λ k, length (emailsOf k emails)) <$> ks))%nat).
    { clear IH. induction Hnd as [|k ks Hk Hnd IHk]; [done|].
      cbn [fmap list_fmap sum_list]. rewrite IHk. unfold emailsOf at 1.
      rewrite filter_cons. fold (emailsOf k emails).
      destruct (decide (categoryOf e = k)) as [Heq|Hne];
        destruct (decide (categoryOf e ∈ k :: ks)) as [Hin'|Hnin'];
        destruct (decide (categoryOf e ∈ ks)) as [Hin|Hnin];
        cbn [length]; unfold Datatypes.id; try lia; exfalso; set_solver. }
    rewrite Hstep, IH. by destruct (decide _).
Qed.

Lemma categories_counts emails :
  ENG.Category.count <$> ENG.categories emails
  = (λ k, length (emailsOf k emails)) <$> (ENG.Category.label <$> ENG.categories emails).
Proof.
  rewrite <- list_fmap_compose. apply list_eq. intros i. rewrite !list_lookup_fmap.
  destruct (ENG.categories emails !! i) as [c|] eqn:E; [|done]. cbn. f_equal.
  apply categories_lookup in E as (entry & Hentry & _ & ->).
  apply list_elem_of_lookup_2, sorted_entry in Hentry as [Heq _].
  cbn. by rewrite Heq.
Qed.

Lemma categories_labels_NoDup emails :
  NoDup (ENG.Category.label <$> ENG.categories emails).
Proof.
  rewrite categories_labels.
  eapply sublist_NoDup; [apply sortByCount_keys_NoDup | apply sublist_take].
Qed.

Lemma categoryMap_keys emails e :
  e ∈ emails → categoryOf e ∈ (ENG.categoryMap emails).*1.
Proof.
  intros He. apply list_elem_of_fmap.
  exists (categoryOf e, emailsOf (categoryOf e) emails). split; [done|].
  apply (proj2 (categoryMap_spec emails)). split; [done|].
  intros Hnil. assert (e ∈ emailsOf (categoryOf e) emails) as Hin.
  { unfold emailsOf. by apply list_elem_of_filter. }
  rewrite Hnil in Hin. by apply not_elem_of_nil in Hin.
Qed.

Lemma filter_all {A} (P : A → Prop) `{!∀ x, Decision (P x)} (l : list A) :
  Forall P l → filter P l = l.
Proof.
  induction 1 as [|x l Hx Hl IH]; [done|]. rewrite filter_cons_True by done.
  by rewrite IH.
Qed.

(** X13.  The counts shown in the overview add up to the number of emails
    whose category is shown: never more than the emails there are, and all
    of them when the senders fall in at most eight categories. *)
Theorem counts_add_up (emails : list AnalyzedEmail) :
  let cats := ENG.categories emails in
  let total := sum_list (ENG.Category.count <$> cats) in
  total = length (filter (λ e, categoryOf e ∈ ENG.Category.label <$> cats) emails) ∧
  (total ≤ length emails)%nat ∧
  ((length (ENG.categoryMap emails) ≤ 8)%nat → total = length emails).
Proof.
  intros cats total.
  assert (Htotal : total
    = length (filter (λ e, categoryOf e ∈ ENG.Category.label <$> cats) emails)).
  { unfold total, cats. rewrite categories_counts.
    apply sum_emailsOf, categories_labels_NoDup. }
  split; [done|]. split.
  - rewrite Htotal. apply length_filter.
  - intros Hle. rewrite Htotal. f_equal. apply filter_all.
    apply list.Forall_forall. intros e He. unfold cats. rewrite categories_labels.
    rewrite take_ge by (rewrite length_fmap, sortByCount_perm; lia).
    rewrite sortByCount_perm. by apply categoryMap_keys.
Qed.

(** ** Where the overview puts its nodes *)

Lemma circle_eq (cx cy a r : R) :
  (cx + cos a * r - cx) * (cx + cos a * r - cx)
  + (cy + sin a * r - cy) * (cy + sin a * r - cy) = r * r.
Proof.
  pose proof (sin2_cos2 a) as H. unfold Rsqr in H.
  replace (cx + cos a * r - cx) with (cos a * r) by ring.
  replace (cy + sin a * r - cy) with (sin a * r) by ring. nra.
Qed.

Lemma evenAngle_fin (i n : nat) :
  (0 < n)%nat →
  (Fin (INR i) / Fin (INR n) * Math_PI * Fin 2)%js = Fin (evenAngle i n).
Proof.
  intros Hn. rewrite div_fin; [done|]. apply not_0_INR. lia.
Qed.

(** X14.  With finite dimensions, the overview seeds its category nodes
    evenly on the circle of radius 120 around the centre: node [i] of [n]
    at the angle [2π·i/n], unpinned, with the label of its category. *)
Theorem category_nodes_on_circle (w h : R) (cats : list ENG.Category.t)
    (i : nat) (c : ENG.Category.t) :
  cats !! i = Some c →
  ∃ d x y,
    ENG.categoryNodes (Fin w) (Fin h) cats !! i = Some d ∧
    ENG.ENode.category d = Some (ENG.Category.label c) ∧
    ENG.ENode.fx d = None ∧ ENG.ENode.fy d = None ∧
    ENG.ENode.x d = Some (Fin x) ∧ ENG.ENode.y d = Some (Fin y) ∧
    x = w / 2 + cos (evenAngle i (length cats)) * 120 ∧
    y = h / 2 + sin (evenAngle i (length cats)) * 120 ∧
    (x - w / 2) * (x - w / 2) + (y - h / 2) * (y - h / 2) = 120 * 120.
Proof.
  intros Hc.
  assert (Hn : (0 < length cats)%nat) by (apply lookup_lt_Some in Hc; lia).
  eexists _, _, _. split.
  { unfold ENG.categoryNodes. rewrite list_lookup_imap, Hc. reflexivity. }
  cbn [ENG.categoryNode ENG.ENode.category ENG.ENode.fx ENG.ENode.fy
       ENG.ENode.x ENG.ENode.y].
  rewrite evenAngle_fin by done. unfold ENG.centerX, ENG.centerY.
  rewrite !div_fin by lra. cbn [Math_cos Math_sin]. rewrite !mul_fin, !add_fin.
  repeat (split; [reflexivity|]). apply circle_eq.
Qed.

Lemma category_nodes_on_circle_witness :
  ∃ d x y,
    ENG.categoryNodes (Fin 800) (Fin 400) (ENG.categories MailSample.emails) !! 1%nat
      = Some d ∧
    ENG.ENode.category d = Some "Github"%string ∧
    ENG.ENode.fx d = None ∧ ENG.ENode.fy d = None ∧
    ENG.ENode.x d = Some (Fin x) ∧ ENG.ENode.y d = Some (Fin y) ∧
    x = 800 / 2 + cos (evenAngle 1 3) * 120 ∧
    y = 400 / 2 + sin (evenAngle 1 3) * 120 ∧
    (x - 800 / 2) * (x - 800 / 2) + (y - 400 / 2) * (y - 400 / 2) = 120 * 120.
Proof.
  exact (category_nodes_on_circle 800 400 (ENG.categories MailSample.emails) 1
           (ENG.mkCategory 1 ("Github"%string,
              [ENG.Email.mk "2" "noreply@GitHub.com" "Build" "t2" "LOW"]))
           eq_refl).
Defined.

(** ** The drill-down *)

Lemma category_emails emails c :
  c ∈ ENG.categories emails →
  ENG.Category.emails c = emailsOf (ENG.Category.label c) emails ∧
  ENG.Category.emails c ≠ [] ∧
  ENG.Category.count c = length (ENG.Category.emails c).
Proof.
  intros (i & entry & Hentry & _ & ->)%categories_elem.
  apply list_elem_of_lookup_2, sorted_entry in Hentry as [Heq Hne]. by cbn.
Qed.

Lemma categoryEmails_label emails c :
  c ∈ ENG.categories emails → ENG.Category.label c ≠ ""%string →
  ENG.categoryEmails (ENG.categories emails) (Some (ENG.Category.label c))
  = emailsOf (ENG.Category.label c) emails.
Proof.
  intros Hc Hne. unfold ENG.categoryEmails, truthyS.
  rewrite decide_False by done.
  destruct (find _ _) as [c'|] eqn:E.
  - apply find_some in E as [Hin Hl]. apply bool_decide_eq_true in Hl.
    injection Hl as Hl. rewrite <- Hl. apply category_emails.
    by apply list_elem_of_In.
  - eapply find_none in E; [|by apply list_elem_of_In].
    by rewrite bool_decide_eq_false in E.
Qed.

Lemma emailNodes_length w h es draws k :
  length (ENG.emailNodes w h es draws k).1 = length es.
Proof.
  unfold ENG.emailNodes. rewrite mapM_length. unfold indexed. apply length_imap.
Qed.

(** X15.  A click on the node of a category of the overview opens that
    category: the selection becomes its label, the emails shown are the
    emails of that category, in their order, one node each around a centre
    node, and the overview is not built.  A category whose label is the
    empty string cannot be opened: the click leaves nothing selected.  A
    click on the centre node changes nothing. *)
Theorem click_opens_category (emails : list AnalyzedEmail) (w h : num)
    (i : nat) (c : ENG.Category.t) (selected : option string) :
  ENG.categories emails !! i = Some c →
  let cats := ENG.categories emails in
  ∃ d, ENG.categoryNodes w h cats !! i = Some d ∧
       let selected' := ENG.categoryClick d selected in
       (ENG.Category.label c = ""%string → selected' = None) ∧
       (ENG.Category.label c ≠ ""%string →
          selected' = Some (ENG.Category.label c) ∧
          ENG.categoryEmails cats selected' = emailsOf (ENG.Category.label c) emails ∧
          length (ENG.categoryEmails cats selected') = ENG.Category.count c ∧
          (0 < ENG.Category.count c)%nat ∧
          ENG.categoryViewNodes w h cats selected' = None ∧
          ∀ draws k, ∃ nodes,
            (ENG.emailViewNodes w h cats selected' draws k).1 = Some nodes ∧
            length nodes = S (ENG.Category.count c)) ∧
       ENG.categoryClick (ENG.centerNode w h) selected = selected.
Proof.
  intros Hc cats. eexists. split.
  { unfold ENG.categoryNodes. rewrite list_lookup_imap. unfold cats. rewrite Hc.
    reflexivity. }
  assert (Hin : c ∈ ENG.categories emails) by by eapply list_elem_of_lookup_2.
  destruct (category_emails emails c Hin) as (Hem & Hne & Hcount).
  cbv zeta. unfold ENG.categoryClick.
  cbn [ENG.categoryNode ENG.ENode.isCenter ENG.ENode.category ENG.centerNode].
  unfold truthyS. split; [|split; [|done]].
  - intros ->. by rewrite decide_True.
  - intros Hl. rewrite decide_False by done.
    pose proof (categoryEmails_label emails c Hin Hl) as Hce. fold cats in Hce.
    split; [done|]. split; [done|]. rewrite Hce, Hcount, <- Hem.
    split; [done|]. split; [destruct (ENG.Category.emails c); [done | cbn; lia]|].
    split.
    + unfold ENG.categoryViewNodes. destruct cats; [done|].
      destruct (ENG.Category.label c); done.
    + intros draws k. unfold ENG.emailViewNodes, truthyS.
      rewrite decide_False by done. rewrite Hce, <- Hem.
      destruct (ENG.Category.emails c) as [|e es] eqn:Ees; [done|].
      unfold bind.
      pose proof (emailNodes_length w h (e :: es) draws k) as Hlen.
      destruct (ENG.emailNodes w h (e :: es) draws k) as [nodes k'].
      eexists. split; [reflexivity|]. cbn in *. by rewrite Hlen.
Qed.

Lemma click_opens_category_witness :
  ∃ d, ENG.categoryNodes (Fin 800) (Fin 400) (ENG.categories MailSample.emails) !! 0%nat
       = Some d ∧
       let selected' := ENG.categoryClick d None in
       (("Acme" = "" → selected' = None) ∧
       ("Acme" ≠ "" →
          selected' = Some "Acme" ∧
          ENG.categoryEmails (ENG.categories MailSample.emails) selected'
          = emailsOf "Acme" MailSample.emails ∧
          length (ENG.categoryEmails (ENG.categories MailSample.emails) selected') = 2%nat ∧
          (0 < 2)%nat ∧
          ENG.categoryViewNodes (Fin 800) (Fin 400)
            (ENG.categories MailSample.emails) selected' = None ∧
          ∀ draws k, ∃ nodes,
            (ENG.emailViewNodes (Fin 800) (Fin 400)
               (ENG.categories MailSample.emails) selected' draws k).1 = Some nodes ∧
            length nodes = 3%nat) ∧
       ENG.categoryClick (ENG.centerNode (Fin 800) (Fin 400)) None = None)%string.
Proof.
  exact (click_opens_category MailSample.emails (Fin 800) (Fin 400) 0
           (ENG.mkCategory 0 ("Acme"%string,
              [ENG.Email.mk "1" "Ann <ann@acme.com>" "Offer" "t1" "HIGH";
               ENG.Email.mk "4" "Cy <cy@acme.com>" "Invoice" "t4" "MEDIUM"]))
           None eq_refl).
Defined.

(** ** The email view *)

Lemma mapM_Forall2 {A B} (P : A → B → Prop) (f : A → Rand B) (l : list A) draws k :
  (∀ a k', a ∈ l → P a (f a draws k').1) → Forall2 P l (mapM f l draws k).1.
Proof.
  revert k. induction l as [|a l IH]; intros k Hf; [constructor|].
  cbn [mapM]. unfold bind at 1.
  pose proof (Hf a k ltac:(left)) as Ha.
  destruct (f a draws k) as [b k1]. unfold bind at 1.
  specialize (IH k1 ltac:(intros; apply Hf; by right)).
  destruct (mapM f l draws k1) as [bs k2]. by constructor.
Qed.

Lemma mapM_counter {A B} (f : A → Rand B) (l : list A) draws k :
  (∀ a k', (f a draws k').2 = S k') → (mapM f l draws k).2 = (k + length l)%nat.
Proof.
  intros Hf. revert k. induction l as [|a l IH]; intros k; [cbn; lia|].
  cbn [mapM]. unfold bind at 1. pose proof (Hf a k) as Ha.
  destruct (f a draws k) as [b k1]. unfold bind at 1. specialize (IH k1).
  destruct (mapM f l draws k1) as [bs k2]. cbn in *. lia.
Qed.

(** X16.  The email view seeds one node for each email of the open
    category, in their order: node [i] of [n] at the angle [2π·i/n] and at
    a distance from the centre of at least 100 and at most 120, one number
    being drawn for each node. *)
Theorem email_nodes_on_ring (w h : R) (es : list AnalyzedEmail)
    (draws : nat → R) (k : nat) :
  (∀ j, 0 <= draws j < 1) →
  let nodes := (ENG.emailNodes (Fin w) (Fin h) es draws k).1 in
  length nodes = length es ∧
  (ENG.emailNodes (Fin w) (Fin h) es draws k).2 = (k + length es)%nat ∧
  Forall2 (λ ie d,
    ENG.MailNode.email d = Some ie.2 ∧ ENG.MailNode.id d = ENG.Email.id ie.2 ∧
    ENG.MailNode.isCenter d = false ∧
    ENG.MailNode.fx d = None ∧ ENG.MailNode.fy d = None ∧
    ∃ r, 100 <= r <= 120 ∧
      ENG.MailNode.x d = Some (Fin (w / 2 + cos (evenAngle ie.1 (length es)) * r)) ∧
      ENG.MailNode.y d = Some (Fin (h / 2 + sin (evenAngle ie.1 (length es)) * r)))
    (indexed es) nodes.
Proof.
  intros Hdraws nodes. split; [apply emailNodes_length|]. split.
  { unfold ENG.emailNodes. rewrite mapM_counter; [|done].
    unfold indexed. by rewrite length_imap. }
  unfold nodes, ENG.emailNodes. apply mapM_Forall2.
  intros [i e] k' Hin. apply elem_of_indexed in Hin.
  assert (Hn : (0 < length es)%nat) by (apply lookup_lt_Some in Hin; lia).
  cbn [fst snd]. unfold ENG.emailNode, bind, Math_random, ret.
  cbn [fst snd ENG.MailNode.email ENG.MailNode.id ENG.MailNode.isCenter
       ENG.MailNode.fx ENG.MailNode.fy ENG.MailNode.x ENG.MailNode.y].
  repeat (split; [reflexivity|]).
  exists (100 + draws k' * 20). split; [specialize (Hdraws k'); lra|].
  rewrite evenAngle_fin by done. unfold ENG.centerX, ENG.centerY.
  rewrite !div_fin by lra. cbn [Math_cos Math_sin].
  by rewrite !mul_fin, !add_fin, !mul_fin, !add_fin.
Qed.

Lemma email_nodes_on_ring_witness :
  let es := MailSample.emails in
  let nodes := (ENG.emailNodes (Fin 800) (Fin 400) es Sample.half 0%nat).1 in
  length nodes = length es ∧
  (ENG.emailNodes (Fin 800) (Fin 400) es Sample.half 0%nat).2 = (0 + length es)%nat ∧
  Forall2 (λ ie d,
    ENG.MailNode.email d = Some ie.2 ∧ ENG.MailNode.id d = ENG.Email.id ie.2 ∧
    ENG.MailNode.isCenter d = false ∧
    ENG.MailNode.fx d = None ∧ ENG.MailNode.fy d = None ∧
    ∃ r, 100 <= r <= 120 ∧
      ENG.MailNode.x d = Some (Fin (800 / 2 + cos (evenAngle ie.1 (length es)) * r)) ∧
      ENG.MailNode.y d = Some (Fin (400 / 2 + sin (evenAngle ie.1 (length es)) * r)))
    (indexed es) nodes.
Proof.
  apply (email_nodes_on_ring 800 400 MailSample.emails Sample.half 0%nat).
  intros j. unfold Sample.half. lra.
Defined.

(** ** Circle sizes of the overview *)

Lemma countTwice_fin d : ∃ t : R, ENG.countTwice d = Fin t ∧ 0 <= t.
Proof.
  unfold ENG.countTwice. destruct (ENG.ENode.count d) as [n|]; cbn.
  - pose proof (pos_INR n). destruct (Req_dec_T (INR n) 0) as [E|E]; cbn.
    + exists (0 * 2). split; [done | lra].
    + exists (INR n * 2). split; [done | lra].
  - exists (0 * 2). split; [done | lra].
Qed.

(** X17.  In the overview every circle has a finite radius between 25 and
    40, and the radius that the collision force gives the node is larger
    than the one drawn by at least 5 and at most 7. *)
Theorem collision_radius_clears_circle (d : ENG.ENode.t) :
  ∃ r c : R,
    ENG.circleRadius d = Fin r ∧ ENG.collisionRadius d = Fin c ∧
    25 <= r <= 40 ∧ r + 5 <= c <= r + 7.
Proof.
  unfold ENG.circleRadius, ENG.collisionRadius.
  destruct (ENG.ENode.isCenter d).
  - exists 40, 45. repeat split; lra.
  - destruct (countTwice_fin d) as (t & -> & Ht). cbn.
    eexists _, _. split; [reflexivity|]. split; [reflexivity|].
    unfold Rmin. destruct (Rle_dec t 10), (Rle_dec t 12); lra.
Qed.

(** ** The category of a sender *)















Lemma trimStart_nil l : ENG.trimStart (l ++ []) = ENG.trimStart l.
Proof. by rewrite app_nil_r. Qed.






(** * The selection highlight *)

Lemma stroke_static (selected : option ConnectionNode) (n : SimNode) :
  stroke selected n =
    (if (static n).1.2 then "rgba(255,255,255,0.5)"
     else if decide (Conn.id <$> selected = Some (static n).1.1) then "#fff"
     else "transparent")%string.
Proof. done. Qed.

Lemma strokes_lookup (selected : option ConnectionNode) (ns : list SimNode)
    (conns : list ConnectionNode) (j : nat) :
  static <$> ns
  = ("USER"%string, true, None) :: ((λ c, (Conn.id c, false, Some c)) <$> conns) →
  (stroke selected <$> ns) !! j =
    match j with
    | O => Some "rgba(255,255,255,0.5)"%string
    | S j' =>
        (λ c, if decide (Conn.id <$> selected = Some (Conn.id c))
              then "#fff" else "transparent")%string <$> conns !! j'
    end.
Proof.
  intros Hst. rewrite list_lookup_fmap.
  destruct (ns !! j) as [n|] eqn:Hn.
  - pose proof (static_lookup _ _ _ _ Hst Hn) as H. cbn [fmap option_fmap option_map].
    rewrite stroke_static. destruct j as [|j'].
    + assert (Hs : static n = ("USER"%string, true, None)) by (cbn in H; congruence).
      by rewrite Hs.
    + change (((λ c, (Conn.id c, false, Some c)) <$> conns) !! j' = Some (static n)) in H.
      rewrite list_lookup_fmap in H. destruct (conns !! j') as [c|]; [|done].
      assert (Hs : static n = (Conn.id c, false, Some c)) by (cbn in H; congruence).
      by rewrite Hs.
  - apply (f_equal (fmap (M:=option) static)) in Hn as Hs.
    rewrite <- list_lookup_fmap, Hst in Hs. destruct j as [|j']; [done|].
    change (((λ c, (Conn.id c, false, Some c)) <$> conns) !! j' = None) in Hs.
    rewrite list_lookup_fmap in Hs. by destruct (conns !! j').
Qed.

(** X20.  However the view has been driven, the highlight follows the
    selection: when the ids of the connections are distinct and connection
    number [i] is selected, its node alone has the white stroke; when
    nothing is selected, or a connection that the view does not show, no
    node has it.  The user node keeps its own stroke in every case. *)
Theorem selection_highlights_one_node (width height : num)
    (conns : list ConnectionNode) (links : list Link.t)
    (forceLink : list SimLink.t → D3.VelocityField)
    (forceManyBody forceCollide : D3.VelocityField)
    (st : PositionStore) (draws : nat → R) (k : nat) (events : list Event)
    (i : nat) (c : ConnectionNode) :
  NoDup (Conn.id <$> conns) → conns !! i = Some c →
  let v0 := mounted width height conns links forceLink forceManyBody forceCollide
              st draws k in
  let sl := mountedLinks width height conns links forceLink forceManyBody
              forceCollide st draws k in
  let v := run width height forceLink forceManyBody forceCollide sl events v0 in
  let ns := D3.nodes (sim v) in
  let plain := replicate (length conns) "transparent"%string in
  stroke (Some c) <$> ns
    = "rgba(255,255,255,0.5)"%string :: <[i := "#fff"%string]> plain ∧
  stroke None <$> ns = "rgba(255,255,255,0.5)"%string :: plain ∧
  (∀ c', Conn.id c' ∉ Conn.id <$> conns →
         stroke (Some c') <$> ns = "rgba(255,255,255,0.5)"%string :: plain).
Proof.
  intros Hnd Hc v0 sl v ns plain.
  pose proof (reachable_static width height conns links forceLink forceManyBody
                forceCollide st draws k events) as Hst.
  fold v0 sl v ns in Hst.
  assert (Hplain : ∀ j, plain !! j = (λ _, "transparent"%string) <$> conns !! j).
  { intros j. unfold plain. destruct (conns !! j) as [cj|] eqn:Hj; cbn.
    - apply lookup_replicate_2. by eapply lookup_lt_Some.
    - apply lookup_replicate_None. by apply lookup_ge_None. }
  split; [|split].
  - apply list_eq. intros j. rewrite (strokes_lookup _ ns conns j Hst).
    destruct j as [|j]; [done|]. cbn [lookup list_lookup].
    change ((<[i:="#fff"%string]> plain) !! j) with
      (list_lookup j (<[i:="#fff"%string]> plain)).
    change (list_lookup j (<[i:="#fff"%string]> plain))
      with ((<[i:="#fff"%string]> plain) !! j).
    destruct (decide (i = j)) as [<-|Hne].
    + rewrite list_lookup_insert_eq
        by (unfold plain; rewrite length_replicate; by eapply lookup_lt_Some).
      rewrite Hc. cbn. by rewrite decide_True.
    + rewrite list_lookup_insert_ne by done. rewrite Hplain.
      destruct (conns !! j) as [cj|] eqn:Hj; [|done]. cbn.
      rewrite decide_False; [done|]. intros [= Heq].
      apply Hne. eapply NoDup_lookup; [exact Hnd| |].
      * rewrite list_lookup_fmap, Hc. reflexivity.
      * rewrite list_lookup_fmap, Hj. cbn. by rewrite Heq.
  - apply list_eq. intros j. rewrite (strokes_lookup _ ns conns j Hst).
    destruct j as [|j]; [done|]. cbn [lookup list_lookup].
    change (list_lookup j plain) with (plain !! j). rewrite Hplain.
    by destruct (conns !! j).
  - intros c' Hc'. apply list_eq. intros j.
    rewrite (strokes_lookup _ ns conns j Hst).
    destruct j as [|j]; [done|]. cbn [lookup list_lookup].
    change (list_lookup j plain) with (plain !! j). rewrite Hplain.
    destruct (conns !! j) as [cj|] eqn:Hj; [|done]. cbn.
    rewrite decide_False; [done|]. intros [= Heq]. apply Hc'.
    rewrite Heq. apply list_elem_of_fmap. exists cj. split; [done|].
    by eapply list_elem_of_lookup_2.
Qed.

Lemma selection_highlights_one_node_witness :
  let conns := [Sample.alice; Sample.bob] in
  let v0 := mounted (Fin 800) (Fin 600) conns [] (λ _, Sample.still) Sample.still
              Sample.still ∅ Sample.half 0 in
  let sl := mountedLinks (Fin 800) (Fin 600) conns [] (λ _, Sample.still) Sample.still
              Sample.still ∅ Sample.half 0 in
  let v := run (Fin 800) (Fin 600) (λ _, Sample.still) Sample.still Sample.still sl
             [TimerTick] v0 in
  let ns := D3.nodes (sim v) in
  let plain := replicate (length conns) "transparent"%string in
  stroke (Some Sample.bob) <$> ns
    = "rgba(255,255,255,0.5)"%string :: <[1%nat := "#fff"%string]> plain ∧
  stroke None <$> ns = "rgba(255,255,255,0.5)"%string :: plain ∧
  (∀ c', Conn.id c' ∉ Conn.id <$> conns →
         stroke (Some c') <$> ns = "rgba(255,255,255,0.5)"%string :: plain).
Proof.
  apply (selection_highlights_one_node (Fin 800) (Fin 600)
           [Sample.alice; Sample.bob] [] (λ _, Sample.still) Sample.still
           Sample.still ∅ Sample.half 0 [TimerTick] 1 Sample.bob).
  - apply (bool_decide_unpack _). by vm_compute.
  - reflexivity.
Defined.

(** * The particles of the background *)

Lemma bounce_near (limit c v : R) :
  near limit c v →
  near limit (c + v) (if PB.outside (c + v) limit then v * -1 else v).
Proof.
  unfold near, PB.outside. intros (Hv & Hc & Hlo & Hhi).
  destruct (Rlt_dec (c + v) 0) as [H0|H0];
    [|destruct (Rgt_dec (c + v) limit) as [H1|H1]];
    revert Hv Hc Hlo Hhi; unfold Rabs;
    repeat match goal with |- context [Rcase_abs ?a] => destruct (Rcase_abs a) end;
    intros; repeat split; try lra.
Qed.

Lemma bounce_speed (limit c v : R) :
  Rabs (if PB.outside c limit then v * -1 else v) = Rabs v.
Proof.
  destruct (PB.outside c limit); [|done].
  replace (v * -1) with (- v) by ring. apply Rabs_Ropp.
Qed.

Lemma later_refl w h p : later w h p p.
Proof. unfold later. auto. Qed.

Lemma later_trans w h p q r : later w h p q → later w h q r → later w h p r.
Proof.
  unfold later. intros (? & ? & ? & ? & ?) (? & ? & ? & ? & ?).
  split; [congruence|]. split; [congruence|]. split; [congruence|]. split; auto.
Qed.

Lemma later_move w h p : later w h p (PB.move w h p).
Proof.
  unfold later, PB.move. cbn. split; [done|].
  split; [apply bounce_speed|]. split; [apply bounce_speed|].
  split; apply bounce_near.
Qed.

Lemma draw_fst w h ps draws k :
  (PB.draw w h ps draws k).1 = PB.move w h <$> ps.
Proof.
  unfold PB.draw. rewrite <- (list_fmap_id (mapM _ _ _ _).1).
  apply (mapM_fmap Datatypes.id (PB.move w h)). done.
Qed.

Lemma Forall2_later_trans w h l1 l2 l3 :
  Forall2 (later w h) l1 l2 → Forall2 (later w h) l2 l3 → Forall2 (later w h) l1 l3.
Proof.
  intros H12. revert l3. induction H12 as [|p q l1 l2 Hpq _ IH]; intros l3 H23.
  - by inversion H23.
  - inversion H23 as [|q' r l2' l3' Hqr H23']; subst. constructor.
    + by eapply later_trans.
    + by apply IH.
Qed.

Lemma frames_later w h n ps draws k :
  Forall2 (later w h) ps (PB.frames w h n ps draws k).1.
Proof.
  revert ps k. induction n as [|n IH]; intros ps k.
  - cbn. apply Forall_Forall2_diag, list.Forall_forall. intros. apply later_refl.
  - cbn [PB.frames]. unfold bind.
    pose proof (draw_fst w h ps draws k) as Hd.
    destruct (PB.draw w h ps draws k) as [ps' k1]. cbn in Hd. subst ps'.
    eapply Forall2_later_trans; [|apply IH].
    apply Forall2_fmap_r, Forall_Forall2_diag, list.Forall_forall.
    intros. apply later_move.
Qed.

Lemma newParticle_spec w h draws k :
  PB.newParticle w h draws k =
    ({| PB.Particle.x := draws k * w; PB.Particle.y := draws (S k) * h;
        PB.Particle.vx := (draws (S (S k)) - 0.5) * 0.3;
        PB.Particle.vy := (draws (S (S (S k))) - 0.5) * 0.3;
        PB.Particle.size := draws (S (S (S (S k)))) * 2 + 1 |},
     (k + 5)%nat).
Proof.
  unfold PB.newParticle, bind, PB.random, ret. f_equal. lia.
Qed.

Lemma pushParticles_spec w h (P : PB.Particle.t → Prop) n draws k :
  (∀ j, P (PB.newParticle w h draws j).1) →
  length (PB.pushParticles w h n draws k).1 = n ∧
  (PB.pushParticles w h n draws k).2 = (k + 5 * n)%nat ∧
  Forall P (PB.pushParticles w h n draws k).1.
Proof.
  intros HP. revert k. induction n as [|n IH]; intros k.
  - cbn. split; [done|]. split; [lia | constructor].
  - cbn [PB.pushParticles]. unfold bind.
    pose proof (HP k) as Hp. rewrite newParticle_spec in Hp |- *. cbn [fst] in Hp.
    destruct (IH (k + 5)%nat) as (Hlen & Hk & Hall).
    destruct (PB.pushParticles w h n draws (k + 5)%nat) as [ps k2].
    unfold ret. cbn [fst snd length] in *.
    split; [lia|]. split; [lia|]. by constructor.
Qed.

Lemma initParticles_spec (w h : R) (draws : nat → R) (k : nat) :
  (∀ j, 0 <= draws j < 1) → 0 <= w → 0 <= h →
  let ps := (PB.initParticles w h draws k).1 in
  length ps = Z.to_nat (PB.particleCount w h) ∧
  (PB.initParticles w h draws k).2 = (k + 5 * length ps)%nat ∧
  Forall (λ p,
    0 <= PB.Particle.x p <= w ∧ 0 <= PB.Particle.y p <= h ∧
    -0.15 <= PB.Particle.vx p < 0.15 ∧ -0.15 <= PB.Particle.vy p < 0.15 ∧
    1 <= PB.Particle.size p < 3) ps.
Proof.
  intros Hd Hw Hh ps. unfold ps, PB.initParticles.
  edestruct (pushParticles_spec w h) as (Hlen & Hk & Hall);
    [|rewrite Hlen, Hk; split; [done|]; split; [done | exact Hall]].
  intros j. rewrite newParticle_spec. cbn.
  pose proof (Hd j). pose proof (Hd (S j)). pose proof (Hd (S (S j))).
  pose proof (Hd (S (S (S j)))). pose proof (Hd (S (S (S (S j))))).
  repeat split; nra.
Qed.

Lemma Forall2_with_l {A B} (P : A → B → Prop) (Q : A → Prop) l k :
  Forall2 P l k → Forall Q l → Forall2 (λ a b, P a b ∧ Q a) l k.
Proof.
  induction 1 as [|a b l k Hab _ IH]; intros HQ; [constructor|].
  apply Forall_cons in HQ as [Ha HQ]. constructor; auto.
Qed.

Lemma particleCount_integer (a b : Z) :
  (0 ≤ a)%Z → (0 ≤ b)%Z →
  PB.particleCount (IZR a) (IZR b) = (a * b / 15000)%Z.
Proof.
  intros Ha Hb. unfold PB.particleCount. symmetry. apply Int_part_spec.
  set (q := (a * b / 15000)%Z).
  assert (Hlo : (15000 * q ≤ a * b)%Z) by (apply Z.mul_div_le; lia).
  assert (Hhi : (a * b < 15000 * (q + 1))%Z).
  { unfold q. replace (q + 1)%Z with (Z.succ q) by lia.
    apply Z.mul_succ_div_gt. lia. }
  apply IZR_le in Hlo. apply IZR_lt in Hhi.
  rewrite mult_IZR in Hlo, Hhi. rewrite mult_IZR in Hlo. rewrite mult_IZR in Hhi.
  rewrite plus_IZR in Hhi. lra.
Qed.

(** X21.  On a window whose width and height are whole numbers of pixels,
    [initParticles] makes one particle for every full 15000 square pixels,
    drawing five numbers for each; every particle starts inside the canvas,
    with a speed of at most 0.15 a frame along each axis and a size from 1
    to 3. *)
Theorem particles_start_inside (a b : Z) (draws : nat → R) (k : nat) :
  (0 ≤ a)%Z → (0 ≤ b)%Z → (a * b < 2 ^ 53)%Z → (∀ j, 0 <= draws j < 1) →
  let w := IZR a in
  let h := IZR b in
  let ps := (PB.initParticles w h draws k).1 in
  length ps = Z.to_nat (a * b / 15000) ∧
  (PB.initParticles w h draws k).2 = (k + 5 * length ps)%nat ∧
  Forall (λ p,
    0 <= PB.Particle.x p <= w ∧ 0 <= PB.Particle.y p <= h ∧
    -0.15 <= PB.Particle.vx p <= 0.15 ∧ -0.15 <= PB.Particle.vy p <= 0.15 ∧
    1 <= PB.Particle.size p <= 3) ps.
Proof.
  intros Ha Hb _ Hd w h ps.
  assert (Hw : 0 <= w) by (apply IZR_le in Ha; exact Ha).
  assert (Hh : 0 <= h) by (apply IZR_le in Hb; exact Hb).
  destruct (initParticles_spec w h draws k Hd Hw Hh) as (Hlen & Hk & Hall).
  fold ps in Hlen, Hk, Hall. split; [|split; [done|]].
  - rewrite Hlen. unfold w, h. by rewrite particleCount_integer.
  - eapply Forall_impl; [exact Hall|]. cbn beta. intros p. lra.
Qed.

Lemma particles_start_inside_witness :
  let w := IZR 300 in
  let h := IZR 300 in
  let ps := (PB.initParticles w h Sample.half 0%nat).1 in
  length ps = Z.to_nat (300 * 300 / 15000) ∧
  (PB.initParticles w h Sample.half 0%nat).2 = (0 + 5 * length ps)%nat ∧
  Forall (λ p,
    0 <= PB.Particle.x p <= w ∧ 0 <= PB.Particle.y p <= h ∧
    -0.15 <= PB.Particle.vx p <= 0.15 ∧ -0.15 <= PB.Particle.vy p <= 0.15 ∧
    1 <= PB.Particle.size p <= 3) ps.
Proof.
  apply (particles_start_inside 300 300 Sample.half 0%nat); [lia | lia | lia |].
  intros j. unfold Sample.half. lra.
Defined.

(** X22.  On a canvas at least 0.15 wide and high, the animation keeps
    every particle within 0.15 of the canvas along each axis, however many
    frames are drawn; a frame changes neither the number of particles, nor
    the size of one, nor its speed along an axis, only the sign of it. *)
Theorem particles_stay_near_canvas (w h : R) (draws : nat → R) (k n : nat) :
  0.15 <= w → 0.15 <= h → (∀ j, 0 <= draws j < 1) →
  Forall2 (λ p q,
    PB.Particle.size q = PB.Particle.size p ∧
    Rabs (PB.Particle.vx q) = Rabs (PB.Particle.vx p) ∧
    Rabs (PB.Particle.vy q) = Rabs (PB.Particle.vy p) ∧
    -0.15 <= PB.Particle.x q <= w + 0.15 ∧ -0.15 <= PB.Particle.y q <= h + 0.15)
    (PB.initParticles w h draws k).1 (PB.animation w h n draws k).1.
Proof.
  intros Hw Hh Hd.
  destruct (initParticles_spec w h draws k Hd) as (_ & _ & Hinit); [lra | lra|].
  unfold PB.animation, bind.
  destruct (PB.initParticles w h draws k) as [ps k1]. cbn [fst] in *.
  pose proof (Forall2_with_l _ _ _ _ (frames_later w h n ps draws k1) Hinit) as Hl.
  eapply Forall2_impl; [exact Hl|]. cbn beta.
  intros p q [(Hsize & Hvx & Hvy & Hx & Hy) (Hpx & Hpy & Hpvx & Hpvy & _)].
  assert (Hax : Rabs (PB.Particle.vx p) <= 0.15) by (apply Rabs_le; lra).
  assert (Hay : Rabs (PB.Particle.vy p) <= 0.15) by (apply Rabs_le; lra).
  pose proof (Rabs_pos (PB.Particle.vx p)). pose proof (Rabs_pos (PB.Particle.vy p)).
  destruct Hx as (_ & Hqx & _); [unfold near; repeat split; lra|].
  destruct Hy as (_ & Hqy & _); [unfold near; repeat split; lra|].
  rewrite Hvx in Hqx. rewrite Hvy in Hqy. repeat split; try done; lra.
Qed.

Lemma particles_stay_near_canvas_witness :
  Forall2 (λ p q,
    PB.Particle.size q = PB.Particle.size p ∧
    Rabs (PB.Particle.vx q) = Rabs (PB.Particle.vx p) ∧
    Rabs (PB.Particle.vy q) = Rabs (PB.Particle.vy p) ∧
    -0.15 <= PB.Particle.x q <= 300 + 0.15 ∧ -0.15 <= PB.Particle.y q <= 300 + 0.15)
    (PB.initParticles 300 300 Sample.half 0%nat).1 (PB.animation 300 300 7%nat Sample.half 0%nat).1.
Proof.
  apply (particles_stay_near_canvas 300 300 Sample.half 0%nat 7%nat); [lra | lra |].
  intros j. unfold Sample.half. lra.
Defined.

(** * The earlier connection view *)

Module Legacy := LegacyGraphCanvas.

(** X23.  The earlier view seeds every connection node at random in the
    square of side 300 around the centre, two numbers being drawn for each
    node: nothing of a previous layout is kept. *)
Theorem legacy_seed_in_square (w h : R) (conns : list ConnectionNode)
    (draws : nat → R) (k : nat) :
  (∀ j, 0 <= draws j < 1) →
  (Legacy.connectionNodes (Fin w) (Fin h) conns draws k).2
    = (k + 2 * length conns)%nat ∧
  Forall2 (λ c n,
    Node.id n = Conn.id c ∧ Node.isUser n = false ∧ Node.connection n = Some c ∧
    Node.fx n = None ∧ Node.fy n = None ∧
    ∃ x y, Node.x n = Some (Fin x) ∧ Node.y n = Some (Fin y) ∧
           w / 2 - 150 <= x < w / 2 + 150 ∧ h / 2 - 150 <= y < h / 2 + 150)
    conns (Legacy.connectionNodes (Fin w) (Fin h) conns draws k).1.
Proof.
  intros Hd. split.
  - unfold Legacy.connectionNodes. revert k.
    induction conns as [|c conns IH]; intros k; [cbn; lia|].
    cbn [mapM]. unfold bind at 1.
    assert (Hc : (Legacy.connectionNode (Fin w) (Fin h) c draws k).2 = S (S k)) by done.
    destruct (Legacy.connectionNode (Fin w) (Fin h) c draws k) as [n k1].
    cbn in Hc. subst k1. unfold bind at 1. specialize (IH (S (S k))).
    destruct (mapM _ conns draws (S (S k))) as [ns k2]. cbn in *. lia.
  - unfold Legacy.connectionNodes. apply mapM_Forall2. intros c k' _.
    unfold Legacy.connectionNode, bind, Math_random, ret.
    cbn [fst Node.id Node.isUser Node.connection Node.fx Node.fy Node.x Node.y].
    repeat (split; [reflexivity|]).
    rewrite centerX_fin, centerY_fin, !sub_fin, !mul_fin, !add_fin.
    eexists _, _. split; [reflexivity|]. split; [reflexivity|].
    pose proof (Hd k'). pose proof (Hd (S k')). lra.
Qed.

Lemma legacy_seed_in_square_witness :
  (Legacy.connectionNodes (Fin 800) (Fin 600) [Sample.alice; Sample.bob]
     Sample.half 0%nat).2 = (0 + 2 * 2)%nat ∧
  Forall2 (λ c n,
    Node.id n = Conn.id c ∧ Node.isUser n = false ∧ Node.connection n = Some c ∧
    Node.fx n = None ∧ Node.fy n = None ∧
    ∃ x y, Node.x n = Some (Fin x) ∧ Node.y n = Some (Fin y) ∧
           800 / 2 - 150 <= x < 800 / 2 + 150 ∧ 600 / 2 - 150 <= y < 600 / 2 + 150)
    [Sample.alice; Sample.bob]
    (Legacy.connectionNodes (Fin 800) (Fin 600) [Sample.alice; Sample.bob]
       Sample.half 0%nat).1.
Proof.
  apply (legacy_seed_in_square 800 600 [Sample.alice; Sample.bob] Sample.half 0%nat).
  intros j. unfold Sample.half. lra.
Defined.

Lemma or_truthy (a b : num) : truthy b = true → truthy (JS.or (Some a) b) = true.
Proof. intros Hb. unfold JS.or. by destruct (truthy a) eqn:E. Qed.

Lemma truthy_80 : truthy (Fin 80) = true.
Proof. apply truthy_fin_true. lra. Qed.

(** X24.  The rest length that the earlier view gives a link, [ring k]
    standing for the entry [degreeRadius[k]] as a number.  A link from the
    user node gets [ring 1].  For any other link the length follows the
    degree of the target: the gap [ring 2 - ring 1] for degree 2, and for a
    target without connection or of degree 0; the gap [ring 3 - ring 2] for
    degree 3; a gap that is zero or not a number is replaced by 80; and the
    length is 80 for every other degree, degree 1 included.  Such a length
    is never zero and never NaN. *)
Theorem legacy_link_distance (width height : num) (source target : SimNode) :
  let ring := λ k, toNumber (degreeRadius width height k) in
  let dist := Legacy.linkDistance width height source target in
  let degree := Conn.degree <$> Node.connection target in
  (Node.isUser source = true → dist = ring 1%Z) ∧
  (Node.isUser source = false →
     truthy dist = true ∧
     (degree = None ∨ degree = Some 0%Z ∨ degree = Some 2%Z →
        dist = JS.or (Some (ring 2%Z - ring 1%Z)%js) (Fin 80)) ∧
     (degree = Some 3%Z → dist = JS.or (Some (ring 3%Z - ring 2%Z)%js) (Fin 80)) ∧
     (∀ d, degree = Some d → d ≠ 0%Z → d ≠ 2%Z → d ≠ 3%Z → dist = Fin 80)).
Proof.
  intros ring dist degree. unfold dist, Legacy.linkDistance. cbv zeta.
  split; [by intros ->|]. intros ->. split; [apply or_truthy, truthy_80|].
  unfold degree, Legacy.targetDegree.
  destruct (Node.connection target) as [c|]; cbn [fmap option_fmap option_map].
  - split; [|split].
    + intros [H|[H|H]]; [done | |]; injection H as ->; done.
    + intros H. injection H as ->. done.
    + intros d [= <-] H0 H2 H3. rewrite decide_False by done.
      destruct (decide (Conn.degree c = 1%Z)) as [->|H1].
      * change (1 - 1)%Z with 0%Z. rewrite (degreeRadius_unknown _ _ 0%Z) by lia.
        cbn [toNumber]. unfold JS.sub. cbn [neg]. by rewrite add_NaN_r.
      * rewrite (degreeRadius_unknown _ _ (Conn.degree c)) by lia. cbn [toNumber].
        by rewrite sub_NaN_l.
  - split; [done|]. split; [done|]. by intros d [=].
Qed.
